(** * ecolint: a shallow embedding of the line parser, the rule engine and
    the project scanner, with the properties of its specification.

    Go strings are byte sequences: they are modelled by [string] (a list of
    [ascii], that is of bytes).  Go's [int] is modelled by [Z]; the only
    arithmetic on it is the line counter [lineNum++], which cannot reach
    2^63 on a file that was read line by line.  Go maps are [gmap string _];
    the order of a [range] over a map is unspecified in Go, so every
    result built by such a loop comes with a relation that accepts any
    permutation of the canonical list. [float64] is Rocq's primitive
    binary64 [float]. *)

From Stdlib Require Import ZArith QArith Floats Ascii.
From stdpp Require Import gmap strings list fin_maps sorting pretty.

Set Warnings "-inexact-float,-register-all".
Set Default Proof Using "Type".

(** ** Go's [strings] package, the functions the repository calls *)

Module GoStrings.

Definition byte_in (lo hi : nat) (c : ascii) : bool :=
  (lo <=? nat_of_ascii c)%nat && (nat_of_ascii c <=? hi)%nat.

Definition is_upper (c : ascii) : bool := byte_in 65 90 c.
Definition is_lower (c : ascii) : bool := byte_in 97 122 c.
Definition is_digit (c : ascii) : bool := byte_in 48 57 c.

(** [s] holds only bytes below 0x80. *)
Fixpoint is_ascii (s : string) : bool :=
  match s with
  | EmptyString => true
  | String c s' => (nat_of_ascii c <? 128)%nat && is_ascii s'
  end.

Definition upper_byte (c : ascii) : ascii :=
  if is_lower c then ascii_of_nat (nat_of_ascii c - 32) else c.
Definition lower_byte (c : ascii) : ascii :=
  if is_upper c then ascii_of_nat (nat_of_ascii c + 32) else c.

Fixpoint map_bytes (f : ascii -> ascii) (s : string) : string :=
  match s with
  | EmptyString => EmptyString
  | String c s' => String (f c) (map_bytes f s')
  end.

(** The ASCII case maps: what [strings.ToUpper] and [strings.ToLower] do to
    a string of ASCII bytes. *)
Definition upper_ascii (s : string) : string := map_bytes upper_byte s.
Definition lower_ascii (s : string) : string := map_bytes lower_byte s.

(** [strings.ToUpper] and [strings.ToLower].  Go maps every rune of the
    string through the Unicode case tables, which are not part of the
    repository: the functions that call them are defined for any pair of
    case maps.  The one law the proofs use is that upper-casing goes rune by
    rune, so that an ASCII suffix is upper-cased on its own; [ascii_case]
    below is the instance that is Go's on ASCII strings. *)
Class CaseTables : Type := {
  ToUpper : string -> string;
  ToLower : string -> string;
  ToUpper_ascii_suffix (s t : string) :
    is_ascii t = true -> ToUpper (s +:+ t) = ToUpper s +:+ upper_ascii t
}.

Fixpoint HasPrefix (s prefix : string) {struct prefix} : bool :=
  match prefix, s with
  | EmptyString, _ => true
  | String a p', String b s' => Ascii.eqb a b && HasPrefix s' p'
  | String _ _, EmptyString => false
  end.

Fixpoint drop_bytes (n : nat) (s : string) : string :=
  match n, s with
  | O, _ => s
  | S n', String _ s' => drop_bytes n' s'
  | S _, EmptyString => EmptyString
  end.

Fixpoint take_bytes (n : nat) (s : string) : string :=
  match n, s with
  | O, _ => EmptyString
  | S n', String c s' => String c (take_bytes n' s')
  | S _, EmptyString => EmptyString
  end.

(** [strings.Index]: the byte offset of the first occurrence of [sep],
    [None] for Go's -1. *)
Fixpoint Index (s sep : string) : option nat :=
  if HasPrefix s sep then Some O
  else match s with
       | EmptyString => None
       | String _ s' => S <$> Index s' sep
       end.

Definition Contains (s substr : string) : bool :=
  match Index s substr with Some _ => true | None => false end.

Definition TrimPrefix (s prefix : string) : string :=
  if HasPrefix s prefix then drop_bytes (String.length prefix) s else s.

(** The loop of [genSplit]: at most [n] cuts at the first occurrence of
    [sep], the remainder last. *)
Fixpoint split_loop (n : nat) (s sep : string) : list string :=
  match n with
  | O => [s]
  | S n' =>
      match Index s sep with
      | None => [s]
      | Some m =>
          take_bytes m s :: split_loop n' (drop_bytes (m + String.length sep) s) sep
      end
  end.

(** [explode(s, n)] for [n > 0]: one string per byte, the [n]-th and last
    one being the remainder. *)
Fixpoint explode (n : nat) (s : string) : list string :=
  match s with
  | EmptyString => []
  | String c s' =>
      match n with
      | O => []
      | S O => [s]
      | S n' => String c EmptyString :: explode n' s'
      end
  end.

(** [strings.SplitN(s, sep, n)], after [genSplit(s, sep, 0, n)]: [n = 0]
    gives nil, a negative [n] all the pieces, and a positive [n] is first
    lowered to [len(s) + 1].  The repository only calls it with a
    separator of one byte; with the empty separator Go cuts after every
    rune ([explode]), which is after every byte here. *)
Definition SplitN (s sep : string) (n : Z) : list string :=
  if (n =? 0)%Z then []
  else if String.eqb sep EmptyString then
    explode (if (n <? 0)%Z then String.length s else Z.to_nat n) s
  else
    let n1 := if (n <? 0)%Z then S (String.length s)
              else Nat.min (Z.to_nat n) (String.length s + 1) in
    split_loop (n1 - 1) s sep.

(** [strings.ReplaceAll(s, old, new)] for a non-empty [old]: the
    occurrences of [old] that do not overlap, from the left.  [skip] counts
    the bytes of an occurrence still to be passed over. (With an empty
    [old], which no caller passes, Go inserts [new] around every rune; the
    model returns [s].) *)
Fixpoint replace_go (skip : nat) (s old new : string) : string :=
  match s with
  | EmptyString => EmptyString
  | String c s' =>
      match skip with
      | S k => replace_go k s' old new
      | O =>
          if HasPrefix s old
          then new +:+ replace_go (String.length old - 1) s' old new
          else String c (replace_go O s' old new)
      end
  end.

Definition ReplaceAll (s old new : string) : string :=
  if String.eqb old EmptyString then s else replace_go O s old new.

(** The UTF-8 encodings of the runes of [unicode.IsSpace]: the six ASCII
    ones, U+0085, U+00A0, U+1680, U+2000..U+200A, U+2028, U+2029, U+202F,
    U+205F and U+3000. *)
Definition bytes (l : list nat) : string :=
  String.string_of_list_ascii (ascii_of_nat <$> l).

Definition space_encodings : list string :=
  (bytes <$> [[9]; [10]; [11]; [12]; [13]; [32]; [194; 133]; [194; 160];
             [225; 154; 128]])
  ++ ((fun b => bytes [226; 128; b]) <$> seq 128 11)
  ++ (bytes <$> [[226; 128; 168]; [226; 128; 169]; [226; 128; 175];
                [226; 129; 159]; [227; 128; 128]]).

(** The length of the white-space rune [s] starts with, if any. *)
Fixpoint leading_space (encs : list string) (s : string) : option nat :=
  match encs with
  | [] => None
  | e :: encs' =>
      if HasPrefix s e then Some (String.length e) else leading_space encs' s
  end.

Fixpoint trim_left (fuel : nat) (encs : list string) (s : string) : string :=
  match fuel with
  | O => s
  | S fuel' =>
      match leading_space encs s with
      | Some n => trim_left fuel' encs (drop_bytes n s)
      | None => s
      end
  end.

Definition TrimLeftSpace (s : string) : string :=
  trim_left (String.length s) space_encodings s.

(** Trimming on the right is trimming the reversed string by the reversed
    encodings: a string ends with a white-space rune exactly when its last
    bytes are one of the encodings. *)
Definition TrimRightSpace (s : string) : string :=
  String.rev (trim_left (String.length s) (String.rev <$> space_encodings)
                (String.rev s)).

(** [strings.TrimSpace]. *)
Definition TrimSpace (s : string) : string :=
  TrimRightSpace (TrimLeftSpace s).

Lemma map_bytes_app (f : ascii -> ascii) (s t : string) :
  map_bytes f (s +:+ t) = map_bytes f s +:+ map_bytes f t.
Proof.
  induction s as [|c s IH]; [reflexivity|].
  change (String (f c) (map_bytes f (s +:+ t))
          = String (f c) (map_bytes f s +:+ map_bytes f t)).
  by rewrite IH.
Qed.

(** The case tables restricted to ASCII: bytes from 0x80 on are kept. *)
Definition ascii_case : CaseTables :=
  {| ToUpper := upper_ascii;
     ToLower := lower_ascii;
     ToUpper_ascii_suffix := fun s t _ => map_bytes_app upper_byte s t |}.

End GoStrings.

Import GoStrings.

(** ** Go's [regexp] package: the syntax the repository's patterns use *)

Module regexp.

(** Regular expressions over bytes.  Every class of the repository's
    patterns is a set of ASCII characters or the complement of one, so
    matching byte by byte agrees with Go's matching rune by rune: no byte of
    a multi-byte rune is in an ASCII class, and all of them are in the
    complement of one. *)
Inductive regex : Type :=
| Empty
| Class (p : ascii -> bool)
| Cat (r1 r2 : regex)
| Alt (r1 r2 : regex)
| Star (r : regex)
| Group (i : nat) (r : regex)
| BeginText
| EndText
| WordBoundary.

Definition Plus (r : regex) : regex := Cat r (Star r).
Definition Opt (r : regex) : regex := Alt r Empty.

(** [r{n}] and [r{n,}]. *)
Fixpoint Repeat (n : nat) (r : regex) : regex :=
  match n with
  | O => Empty
  | S n' => Cat r (Repeat n' r)
  end.
Definition AtLeast (n : nat) (r : regex) : regex := Cat (Repeat n r) (Star r).

Definition Byte (c : ascii) : regex := Class (Ascii.eqb c).

Fixpoint Lit (s : string) : regex :=
  match s with
  | EmptyString => Empty
  | String c s' => Cat (Byte c) (Lit s')
  end.

(** A literal under the flag [(?i)]: a letter matches both of its cases,
    and, by Unicode simple case folding, [k] also matches U+212A (the Kelvin
    sign, bytes E2 84 AA) and [s] also matches U+017F (the long s, bytes
    C5 BF). *)
Definition FoldByte (c : ascii) : regex :=
  let both := Class (fun b => Ascii.eqb (lower_byte b) (lower_byte c)) in
  if Ascii.eqb (lower_byte c) "k" then Alt both (Lit (bytes [226; 132; 170]))
  else if Ascii.eqb (lower_byte c) "s" then Alt both (Lit (bytes [197; 191]))
  else both.

Fixpoint LitFold (s : string) : regex :=
  match s with
  | EmptyString => Empty
  | String c s' => Cat (FoldByte c) (LitFold s')
  end.

(** [\w] of [\b]: an ASCII letter, digit or underscore. *)
Definition is_word (c : ascii) : bool :=
  is_upper c || is_lower c || is_digit c || Ascii.eqb c "_".

Definition is_word_at (c : option ascii) : bool :=
  match c with Some c => is_word c | None => false end.

Definition first_byte (s : string) : option ascii :=
  match s with String c _ => Some c | EmptyString => None end.

(** The text of each group that matched, latest first. *)
Definition captures : Type := list (nat * string).

Section matcher.
Context {R : Type}.

(** A backtracking matcher in continuation-passing style: [run r prev s caps
    k] matches [r] at the front of [s], [prev] being the byte before [s] in
    the text, and hands what is left to [k].  Alternatives are tried from the
    left and a star takes an iteration before it tries to stop, which is the
    leftmost-first preference of Go's [regexp]; an iteration of a star that
    consumes nothing is refused. *)
Fixpoint run (r : regex) (prev : option ascii) (s : string) (caps : captures)
    (k : option ascii -> string -> captures -> option R) : option R :=
  match r with
  | Empty => k prev s caps
  | Class p =>
      match s with
      | String c s' => if p c then k (Some c) s' caps else None
      | EmptyString => None
      end
  | Cat r1 r2 =>
      run r1 prev s caps (fun prev' s' caps' => run r2 prev' s' caps' k)
  | Alt r1 r2 =>
      match run r1 prev s caps k with
      | Some x => Some x
      | None => run r2 prev s caps k
      end
  | Star r1 =>
      (fix iter (fuel : nat) (prev : option ascii) (s : string)
           (caps : captures) {struct fuel} : option R :=
         match fuel with
         | O => k prev s caps
         | S fuel' =>
             match run r1 prev s caps
                     (fun prev' s' caps' =>
                        if (String.length s' <? String.length s)%nat
                        then iter fuel' prev' s' caps' else None) with
             | Some x => Some x
             | None => k prev s caps
             end
         end) (String.length s) prev s caps
  | Group i r1 =>
      run r1 prev s caps
        (fun prev' s' caps' =>
           k prev' s'
             ((i, take_bytes (String.length s - String.length s') s) :: caps'))
  | BeginText => match prev with None => k prev s caps | Some _ => None end
  | EndText => match s with EmptyString => k prev s caps | _ => None end
  | WordBoundary =>
      if xorb (is_word_at prev) (is_word_at (first_byte s))
      then k prev s caps else None
  end.

End matcher.

(** A match of [r] that starts at the front of [s]: what follows the match,
    and the groups. *)
Definition match_here (r : regex) (prev : option ascii) (s : string)
  : option (string * captures) :=
  run r prev s [] (fun _ s' caps => Some (s', caps)).

(** The leftmost match of [r] in [s]. *)
Fixpoint search (r : regex) (prev : option ascii) (s : string)
  : option (string * captures) :=
  match match_here r prev s with
  | Some m => Some m
  | None =>
      match s with
      | EmptyString => None
      | String c s' => search r (Some c) s'
      end
  end.

(** [Regexp.MatchString]. *)
Definition MatchString (r : regex) (s : string) : bool :=
  match search r None s with Some _ => true | None => false end.

(** A replacement template: text and references [${i}]. *)
Inductive template_item : Type :=
| TText (s : string)
| TGroup (i : nat).

Definition group_text (caps : captures) (i : nat) : string :=
  match List.find (fun c => Nat.eqb (fst c) i) caps with
  | Some c => snd c
  | None => EmptyString
  end.

Fixpoint expand (t : list template_item) (caps : captures) : string :=
  match t with
  | [] => EmptyString
  | TText s :: t' => s +:+ expand t' caps
  | TGroup i :: t' => group_text caps i +:+ expand t' caps
  end.

(** [Regexp.ReplaceAllString]: the matches that do not overlap, from the
    left, each replaced by the expanded template.  [skip] counts the bytes of
    the last match still to be passed over.  (The patterns it is called with
    consume at least two bytes; after an empty match the model copies one
    byte and goes on.) *)
Fixpoint replace_from (r : regex) (t : list template_item) (skip : nat)
    (prev : option ascii) (s : string) : string :=
  match skip with
  | S k =>
      match s with
      | EmptyString => EmptyString
      | String c s' => replace_from r t k (Some c) s'
      end
  | O =>
      match match_here r prev s with
      | Some (rest, caps) =>
          match s with
          | EmptyString => expand t caps
          | String c s' =>
              match (String.length s - String.length rest)%nat with
              | O => expand t caps +:+ String c (replace_from r t O (Some c) s')
              | S n => expand t caps +:+ replace_from r t n (Some c) s'
              end
          end
      | None =>
          match s with
          | EmptyString => EmptyString
          | String c s' => String c (replace_from r t O (Some c) s')
          end
      end
  end.

Definition ReplaceAllString (r : regex) (src : string)
    (t : list template_item) : string :=
  replace_from r t O None src.

(** The number of groups of [r]: its highest group index. *)
Fixpoint NumSubexp (r : regex) : nat :=
  match r with
  | Cat r1 r2 | Alt r1 r2 => Nat.max (NumSubexp r1) (NumSubexp r2)
  | Star r1 => NumSubexp r1
  | Group i r1 => Nat.max i (NumSubexp r1)
  | _ => O
  end.

(** [Regexp.FindAllStringSubmatch(s, -1)]: for each of the matches that do
    not overlap, from the left, the text of the match and of each group (the
    empty string for a group that took no part). *)
Fixpoint find_from (r : regex) (skip : nat) (prev : option ascii) (s : string)
  : list (list string) :=
  match skip with
  | S k =>
      match s with
      | EmptyString => []
      | String c s' => find_from r k (Some c) s'
      end
  | O =>
      match match_here r prev s with
      | Some (rest, caps) =>
          let n := (String.length s - String.length rest)%nat in
          let m := take_bytes n s :: (group_text caps <$> seq 1 (NumSubexp r)) in
          match s with
          | EmptyString => [m]
          | String c s' => m :: find_from r (n - 1) (Some c) s'
          end
      | None =>
          match s with
          | EmptyString => []
          | String c s' => find_from r O (Some c) s'
          end
      end
  end.

Definition FindAllStringSubmatch (r : regex) (s : string) : list (list string) :=
  find_from r O None s.

End regexp.

(** ** Errors, variables and issues *)

(** A Go [error]: one raised by the operating system or by [bufio], or one
    built by [fmt.Errorf] with a [%w] cause; [msg] is the formatted text in
    front of the cause. *)
Inductive error : Type :=
| ErrIO (msg : string)
| Errorf (msg : string) (cause : error).

(** What [os.Open] followed by a [bufio.Scanner] over the file gives: the
    open fails, or the scanner yields [lines] and stops at the end of the
    file ([read_err = None]) or on a read error ([scanner.Err()]). *)
Record TextFile : Type := mkTextFile {
  lines : list string;
  read_err : option error
}.

Definition Opened : Type := error + TextFile.

Module env.
(** Modelled from the spec: the declaration of [env.Var] (package
    [domain/env]) is not among the sources; this is the Variable Record of
    the specification, [{ key, value, sourceLine }], under the field names
    the code reads and writes ([v.Key], [v.Value], [v.Line]). *)
Record Var : Type := mkVar {
  Key : string;
  Value : string;
  Line : Z
}.
End env.

Module issues.
(** [issues.Issue]; [Line] is the last line of the issue. *)
Record Issue : Type := mkIssue {
  Key : string;
  FirstLine : Z;
  Line : Z;
  Name : string;
  File : string;
  Recommendations : list string
}.

Definition NewIssue (name key file : string) (fl ll : Z) (r : list string)
  : Issue :=
  {| Name := name; Key := key; File := file;
     FirstLine := fl; Line := ll; Recommendations := r |}.
End issues.

Import issues.

(** ** The line parser *)

Module parse.

Record EnhancedResult : Type := mkResult {
  IssueList : list Issue;
  Vars : list env.Var
}.

Definition dquote : string := String "034"%char EmptyString.

Definition add_issue (i : Issue) (st : EnhancedResult) : EnhancedResult :=
  {| IssueList := IssueList st ++ [i]; Vars := Vars st |}.
Definition add_var (v : env.Var) (st : EnhancedResult) : EnhancedResult :=
  {| IssueList := IssueList st; Vars := Vars st ++ [v] |}.

Definition no_equals_recs : list string :=
  ["Each line should be in KEY=VALUE format";
   "Use # for comments";
   "Check for missing equals sign"].

Definition split_recs : list string :=
  ["Each line should be in KEY=VALUE format";
   "Check for multiple equals signs without proper quoting"].

(** The body of the [for scanner.Scan()] loop of [ParseWithIssues], for the
    line [line] numbered [lineNum]; each [continue] of the source is a
    branch that returns the state. *)
Definition parseLine (filename : string) (lineNum : Z) (line : string)
    (st : EnhancedResult) : EnhancedResult :=
  let trimmedLine := TrimSpace line in
  if String.eqb trimmedLine "" || HasPrefix trimmedLine "#" then st
  else if negb (Contains trimmedLine "=") then
    add_issue (NewIssue "malformed line" trimmedLine filename lineNum lineNum
                 no_equals_recs) st
  else
    match SplitN trimmedLine "=" 2 with
    | [part0; part1] =>
        let key := TrimSpace part0 in
        let value := TrimSpace part1 in
        if String.eqb key "" then
          add_issue (NewIssue "empty key" line filename lineNum lineNum
                       ["Variable names cannot be empty";
                        "Use descriptive variable names"]) st
        else
          let st1 :=
            if Contains key " " || Contains key (String "009"%char EmptyString)
            then add_issue (NewIssue "invalid key format" key filename
                              lineNum lineNum
                              ["Variable names should not contain spaces or tabs";
                               "Use underscores instead of spaces";
                               "Follow UPPER_SNAKE_CASE convention"]) st
            else st in
          let st2 :=
            if String.eqb value ""
            then add_issue (NewIssue "empty value" key filename lineNum lineNum
                              ["Consider if this variable should have a default value";
                               "Use quotes for intentionally empty strings: KEY="
                                 +:+ dquote +:+ dquote;
                               "Document why this value is empty"]) st1
            else st1 in
          add_var (env.mkVar key value lineNum) st2
    | _ =>
        add_issue (NewIssue "malformed line" trimmedLine filename lineNum lineNum
                     split_recs) st
    end.

(** The loop: [lineNum] is the number of the last line read. *)
Fixpoint scanLines (filename : string) (lineNum : Z) (ls : list string)
    (st : EnhancedResult) : EnhancedResult :=
  match ls with
  | [] => st
  | line :: ls' =>
      scanLines filename (lineNum + 1) ls'
        (parseLine filename (lineNum + 1) line st)
  end.

(** [EnhancedParser.ParseWithIssues]. *)
Definition ParseWithIssues (f : Opened) (filename : string)
  : error + EnhancedResult :=
  match f with
  | inl err => inl (Errorf "cannot open .env file: " err)
  | inr file =>
      let st := scanLines filename 0 (lines file) (mkResult [] []) in
      match read_err file with
      | Some err => inl (Errorf "error reading file: " err)
      | None => inr st
      end
  end.

(** [EnhancedParser.Parse]. *)
Definition Parse (f : Opened) (filename : string) : error + list env.Var :=
  match ParseWithIssues f filename with
  | inl err => inl err
  | inr result => inr (Vars result)
  end.

End parse.

(** ** The rules *)

Module rules.
Import regexp.

(** [type Rule func(vars []env.Var, file string) []issues.Issue]. *)
Definition Rule : Type := list env.Var -> string -> list Issue.

(** One iteration of the first loop of [Duplicate] on the map [seen]. *)
Definition Duplicate_step (file : string) (seen : gmap string Issue)
    (v : env.Var) : gmap string Issue :=
  match seen !! env.Key v with
  | Some currentIssue =>
      <[env.Key v := NewIssue "duplicate variable" (env.Key v) file
                       (FirstLine currentIssue) (env.Line v) []]> seen
  | None =>
      <[env.Key v := NewIssue "duplicate variable" (env.Key v) file
                       (env.Line v) 0 []]> seen
  end.

Definition Duplicate_seen (vars : list env.Var) (file : string)
  : gmap string Issue :=
  foldl (Duplicate_step file) ∅ vars.

(** [Duplicate], with the second loop ranging over [seen] in the order of
    [map_to_list]. *)
Definition Duplicate : Rule := fun vars file =>
  filter (fun issue => Line issue ≠ 0%Z)
         (snd <$> map_to_list (Duplicate_seen vars file)).

(** What a run of [Duplicate] can return: Go ranges over [seen] in an
    unspecified order. *)
Definition Duplicate_returns (vars : list env.Var) (file : string)
    (out : list Issue) : Prop :=
  out ≡ₚ Duplicate vars file.

Section case_tables.
Context `{CaseTables}.

(** *** Security *)

Definition alnum (c : ascii) : bool := is_upper c || is_lower c || is_digit c.

Definition one_of (s : string) (c : ascii) : bool := Contains s (String c EmptyString).

(** [secretKeyPatterns], in the order of the source. *)
Definition secretKeyPatterns : list regex :=
  [ (* (?i)(password|pwd|pass)$ *)
    Cat (Group 1 (Alt (LitFold "password") (Alt (LitFold "pwd") (LitFold "pass"))))
        EndText;
    (* (?i)(secret|key|token)$ *)
    Cat (Group 1 (Alt (LitFold "secret") (Alt (LitFold "key") (LitFold "token"))))
        EndText;
    (* (?i)(private|priv)_key$ *)
    Cat (Group 1 (Alt (LitFold "private") (LitFold "priv")))
        (Cat (LitFold "_key") EndText);
    (* (?i)api_(key|secret|token)$ *)
    Cat (LitFold "api_")
        (Cat (Group 1 (Alt (LitFold "key") (Alt (LitFold "secret") (LitFold "token"))))
             EndText);
    (* (?i)(auth|oauth)_(key|secret|token)$ *)
    Cat (Group 1 (Alt (LitFold "auth") (LitFold "oauth")))
        (Cat (LitFold "_")
             (Cat (Group 2 (Alt (LitFold "key")
                                (Alt (LitFold "secret") (LitFold "token"))))
                  EndText));
    (* (?i)(access|refresh)_token$ *)
    Cat (Group 1 (Alt (LitFold "access") (LitFold "refresh")))
        (Cat (LitFold "_token") EndText);
    (* (?i)jwt_(secret|key)$ *)
    Cat (LitFold "jwt_")
        (Cat (Group 1 (Alt (LitFold "secret") (LitFold "key"))) EndText);
    (* (?i)(db|database)_(password|pass|pwd)$ *)
    Cat (Group 1 (Alt (LitFold "db") (LitFold "database")))
        (Cat (LitFold "_")
             (Cat (Group 2 (Alt (LitFold "password")
                                (Alt (LitFold "pass") (LitFold "pwd"))))
                  EndText));
    (* (?i)(smtp|email)_(password|pass|pwd)$ *)
    Cat (Group 1 (Alt (LitFold "smtp") (LitFold "email")))
        (Cat (LitFold "_")
             (Cat (Group 2 (Alt (LitFold "password")
                                (Alt (LitFold "pass") (LitFold "pwd"))))
                  EndText));
    (* (?i)(aws|gcp|azure)_(secret|key)$ *)
    Cat (Group 1 (Alt (LitFold "aws") (Alt (LitFold "gcp") (LitFold "azure"))))
        (Cat (LitFold "_")
             (Cat (Group 2 (Alt (LitFold "secret") (LitFold "key"))) EndText)) ].

(** [secretValuePatterns], in the order of the source. *)
Definition secretValuePatterns : list regex :=
  let seg := Plus (Class (fun c => alnum c || one_of "_-" c)) in
  [ (* ^[A-Za-z0-9_-]+\.[A-Za-z0-9_-]+\.[A-Za-z0-9_-]+$ *)
    Cat BeginText
        (Cat seg (Cat (Byte ".") (Cat seg (Cat (Byte ".") (Cat seg EndText)))));
    (* ^[A-Za-z0-9]{32,}$ *)
    Cat BeginText (Cat (AtLeast 32 (Class alnum)) EndText);
    (* ^[A-Za-z0-9+/]{20,}={0,2}$ *)
    Cat BeginText
        (Cat (AtLeast 20 (Class (fun c => alnum c || one_of "+/" c)))
             (Cat (Opt (Cat (Byte "=") (Opt (Byte "=")))) EndText));
    (* ^[a-fA-F0-9]{16,}$ *)
    Cat BeginText
        (Cat (AtLeast 16 (Class (fun c => byte_in 97 102 c || byte_in 65 70 c
                                          || is_digit c)))
             EndText);
    (* ^AKIA[0-9A-Z]{16}$ *)
    Cat BeginText
        (Cat (Lit "AKIA")
             (Cat (Repeat 16 (Class (fun c => is_digit c || is_upper c))) EndText));
    (* ^AIza[0-9A-Za-z_-]{35}$ *)
    Cat BeginText
        (Cat (Lit "AIza")
             (Cat (Repeat 35 (Class (fun c => alnum c || one_of "_-" c)))
                  EndText)) ].

Definition safePlaceholders : list string :=
  ["changeme"; "placeholder"; "your_key_here"; "your_secret_here";
   "example"; "sample"; "dummy"; "test"; "localhost"; "127.0.0.1";
   "true"; "false"; "development"; "production"; "staging"].

(** The three flags the loop body of [Security] computes; each loop of the
    source sets its flag at the first hit and breaks. *)
Definition isSecretKey (key : string) : bool :=
  existsb (fun pattern => MatchString pattern key) secretKeyPatterns.

Definition looksLikeSecret (value : string) : bool :=
  existsb (fun pattern => MatchString pattern value) secretValuePatterns.

Definition isSafePlaceholder (value : string) : bool :=
  let lowerValue := ToLower value in
  existsb (fun placeholder =>
             String.eqb lowerValue placeholder || Contains lowerValue placeholder)
          safePlaceholders.

Definition security_recommendations (secretKey secretValue : bool)
  : list string :=
  let recommendations :=
    ["Consider using a secret management system (e.g., HashiCorp Vault, AWS Secrets Manager)";
     "Use placeholder values in committed files (e.g., 'your_api_key_here')";
     "Add this file to .gitignore if it contains real secrets";
     "Use environment-specific files (.env.local) for sensitive data"] in
  let recommendations :=
    if secretKey && negb secretValue
    then "Variable name suggests it may contain sensitive data" :: recommendations
    else recommendations in
  if secretValue
  then "Value appears to be a secret or API key" :: recommendations
  else recommendations.

(** The body of the loop of [Security] for the variable [v]: the issue it
    appends, if any. *)
Definition Security_var (file : string) (v : env.Var) : option Issue :=
  if String.eqb (env.Value v) "" then None
  else
    let secretKey := isSecretKey (env.Key v) in
    let secretValue := looksLikeSecret (env.Value v) in
    if isSafePlaceholder (env.Value v) then None
    else if secretKey || secretValue then
      Some (NewIssue "potential secret in plaintext" (env.Key v) file
              (env.Line v) 0 (security_recommendations secretKey secretValue))
    else None.

(** [Security]. *)
Definition Security : Rule := fun vars file =>
  omap (Security_var file) vars.

(** *** Convention *)

(** [convertCamelToSnake]. *)
Definition convertCamelToSnake (s : string) : string :=
  (* ([a-z0-9])([A-Z]) *)
  let re1 := Cat (Group 1 (Class (fun c => is_lower c || is_digit c)))
                 (Group 2 (Class is_upper)) in
  let result := ReplaceAllString re1 s [TGroup 1; TText "_"; TGroup 2] in
  (* ([A-Z])([A-Z][a-z]) *)
  let re2 := Cat (Group 1 (Class is_upper))
                 (Group 2 (Cat (Class is_upper) (Class is_lower))) in
  let result := ReplaceAllString re2 result [TGroup 1; TText "_"; TGroup 2] in
  ToLower result.

(** ^[A-Z][A-Z0-9_]*$ *)
Definition validPattern : regex :=
  Cat BeginText
      (Cat (Class is_upper)
           (Cat (Star (Class (fun c => is_upper c || is_digit c || Ascii.eqb c "_")))
                EndText)).

Definition systemVars : list string :=
  ["PATH"; "HOME"; "USER"; "SHELL"; "PWD"; "TERM"; "LANG"; "LC_ALL";
   "TMPDIR"; "TMP"; "TEMP"; "HOSTNAME"; "HOSTTYPE"; "MACHTYPE"].

Definition antiPatterns : gmap string string :=
  list_to_map
    [("CONFIG", "Be more specific (e.g., DATABASE_CONFIG, APP_CONFIG)");
     ("SETTINGS", "Be more specific (e.g., USER_SETTINGS, APP_SETTINGS)");
     ("DATA", "Be more specific (e.g., USER_DATA, CACHE_DATA)");
     ("INFO", "Be more specific (e.g., USER_INFO, DEBUG_INFO)");
     ("TEMP", "Use TMPDIR or TMP_PATH instead");
     ("TEST", "Be more specific (e.g., TEST_DATABASE_URL)")].

Definition redundantPrefixes : list string :=
  ["ENV_"; "ENVIRONMENT_"; "VAR_"; "VARIABLE_"].

(** The bindings of the map [abbreviationSuggestions]. *)
Definition abbreviationSuggestions : list (string * string) :=
  [("DB", "DATABASE"); ("PWD", "PASSWORD"); ("USR", "USER"); ("SVR", "SERVER");
   ("CFG", "CONFIG"); ("STG", "STAGING"); ("PRD", "PRODUCTION");
   ("DEV", "DEVELOPMENT")].

(** The local state of the loop body of [Convention]. *)
Record findings : Type := mkFindings {
  recommendations : list string;
  issueFound : bool
}.

Definition recommend (cond : bool) (recs : list string) (st : findings)
  : findings :=
  if cond then mkFindings (recommendations st ++ recs) (issueFound st) else st.

Definition flag (cond : bool) (recs : list string) (st : findings) : findings :=
  if cond then mkFindings (recommendations st ++ recs) true else st.

(** The block under [if !validPattern.MatchString(v.Key)]. *)
Definition pattern_findings (key : string) (st : findings) : findings :=
  let tab := String "009"%char EmptyString in
  let st := mkFindings (recommendations st) true in
  let st := recommend (Contains key " " || Contains key tab)
              ["Remove spaces and tabs from variable names";
               "Use underscores (_) to separate words"] st in
  let st := recommend (String.eqb (ToLower key) key)
              ["Use UPPERCASE for environment variables";
               "Try: " +:+ ToUpper key] st in
  let st := recommend (negb (String.eqb key (ToUpper key))
                       && negb (String.eqb key (ToLower key)))
              ["Use consistent UPPER_SNAKE_CASE";
               "Try: " +:+ ToUpper key] st in
  let st := recommend (Contains key "-")
              ["Use underscores (_) instead of hyphens (-)";
               "Try: " +:+ ReplaceAll (ToUpper key) "-" "_"] st in
  (* [a-z][A-Z] *)
  let st := recommend (MatchString (Cat (Class is_lower) (Class is_upper)) key)
              ["Convert camelCase to UPPER_SNAKE_CASE";
               "Try: " +:+ ToUpper (convertCamelToSnake key)] st in
  (* ^[0-9] *)
  let st := recommend (MatchString (Cat BeginText (Class is_digit)) key)
              ["Variable names cannot start with numbers";
               "Prefix with a descriptive word (e.g., ITEM_" +:+ key +:+ ")"] st in
  (* [^A-Za-z0-9_] *)
  let st := recommend (MatchString (Class (fun c => negb (is_word c))) key)
              ["Only use letters, numbers, and underscores";
               "Remove or replace special characters"] st in
  recommend (Nat.eqb (length (recommendations st)) 0)
    ["Use UPPER_SNAKE_CASE convention (e.g., DATABASE_URL)";
     "Start with a letter, use only letters, numbers, and underscores"] st.

(** One iteration of the loop over [abbreviationSuggestions]. *)
Definition abbreviation_step (key : string) (st : findings)
    (entry : string * string) : findings :=
  let '(abbrev, full) := entry in
  if Contains key abbrev && negb (Contains key full) then
    (* \babbrev\b *)
    flag (MatchString (Cat WordBoundary (Cat (Lit abbrev) WordBoundary)) key)
      ["Consider using full words instead of abbreviations";
       "Try: " +:+ ReplaceAll key abbrev full +:+ " (instead of " +:+ abbrev +:+ ")"]
      st
  else st.

(** The body of the loop of [Convention] for the variable [v], the map
    [abbreviationSuggestions] being ranged over in the order [abbrevs]. *)
Definition Convention_var (abbrevs : list (string * string)) (file : string)
    (v : env.Var) : option Issue :=
  let key := env.Key v in
  let st := mkFindings [] false in
  let st := if negb (MatchString validPattern key)
            then pattern_findings key st else st in
  let st := flag (Nat.eqb (String.length key) 1)
              ["Avoid single-letter variable names";
               "Use descriptive names (e.g., PORT instead of P)"] st in
  let st := flag (Nat.ltb 50 (String.length key))
              ["Consider shorter, more concise variable names";
               "Break down complex names into logical parts"] st in
  let st := flag (existsb (String.eqb key) systemVars)
              ["Avoid overriding system environment variables";
               "Consider prefixing with your app name (e.g., MYAPP_" +:+ key +:+ ")";
               "This could cause unexpected behavior in scripts and tools"] st in
  let st := match antiPatterns !! key with
            | Some suggestion =>
                flag true ["Variable name is too generic"; suggestion] st
            | None => st
            end in
  let st := match List.find (HasPrefix key) redundantPrefixes with
            | Some prefix =>
                let suggestions := TrimPrefix key prefix in
                flag true
                  (("Remove redundant prefix '" +:+ prefix +:+ "'")
                   :: (if String.eqb suggestions "" then []
                       else ["Try: " +:+ suggestions])) st
            | None => st
            end in
  let st := foldl (abbreviation_step key) st abbrevs in
  if issueFound st
  then Some (NewIssue "naming convention violation" key file
               (env.Line v) (env.Line v) (recommendations st))
  else None.

(** [Convention], every variable seeing the map in the order [abbrevs]. *)
Definition Convention_in (abbrevs : list (string * string)) : Rule :=
  fun vars file => omap (Convention_var abbrevs file) vars.

Definition Convention : Rule := Convention_in abbreviationSuggestions.

(** What a run of [Convention] can return on a single variable: the map is
    ranged over in some order. *)
Definition Convention_returns1 (v : env.Var) (file : string)
    (out : list Issue) : Prop :=
  exists abbrevs, abbrevs ≡ₚ abbreviationSuggestions /\
                  out = Convention_in abbrevs [v] file.

End case_tables.

End rules.

(** ** The lint orchestrator *)

Module lint.

Record Linter : Type := mkLinter {
  linter_rules : list rules.Rule;
  includeParseIssues : bool
}.

(** [New]; the parser has no state and is left out. *)
Definition New : Linter := mkLinter [] true.

Definition WithRule (rule : rules.Rule) (l : Linter) : Linter :=
  mkLinter (linter_rules l ++ [rule]) (includeParseIssues l).

Definition WithParseIssues (include : bool) (l : Linter) : Linter :=
  mkLinter (linter_rules l) include.

(** [Linter.Lint]; [fs] gives what opening and reading each path yields. *)
Fixpoint Lint_from (l : Linter) (fs : string -> Opened) (files : list string)
    (allIssues : list Issue) : error + list Issue :=
  match files with
  | [] => inr allIssues
  | file :: files' =>
      match parse.ParseWithIssues (fs file) file with
      | inl err => inl err
      | inr result =>
          let withParse :=
            if includeParseIssues l
            then allIssues ++ parse.IssueList result else allIssues in
          Lint_from l fs files'
            (foldl (fun acc (rule : rules.Rule) =>
                      acc ++ rule (parse.Vars result) file)
                   withParse (linter_rules l))
      end
  end.

Definition Lint (l : Linter) (fs : string -> Opened) (files : list string)
  : error + list Issue :=
  Lint_from l fs files [].

End lint.

(** ** The project scanner *)

Module scan.

(** [filepath.Ext] and [filepath.Base], with [/] as the separator. *)
Fixpoint ext_rev (r acc : string) : string :=
  match r with
  | EmptyString => EmptyString
  | String c r' =>
      if Ascii.eqb c "/" then EmptyString
      else if Ascii.eqb c "." then String c acc
      else ext_rev r' (String c acc)
  end.

Definition Ext (path : string) : string := ext_rev (String.rev path) EmptyString.

Fixpoint strip_slashes (r : string) : string :=
  match r with
  | String c r' => if Ascii.eqb c "/" then strip_slashes r' else r
  | EmptyString => EmptyString
  end.

Fixpoint last_element_rev (r acc : string) : string :=
  match r with
  | EmptyString => acc
  | String c r' => if Ascii.eqb c "/" then acc else last_element_rev r' (String c acc)
  end.

Definition Base (path : string) : string :=
  if String.eqb path "" then "."
  else
    let name := last_element_rev (strip_slashes (String.rev path)) EmptyString in
    if String.eqb name "" then "/" else name.

(** [VariablePattern].  The compiled [*regexp.Regexp] is represented by what
    the scanner asks of it: [Pattern line] is
    [pattern.Pattern.FindAllStringSubmatch(line, -1)], one list per match,
    the whole match first and then the groups. *)
Record VariablePattern : Type := mkPattern {
  Name : string;
  Pattern : string -> list (list string);
  Description : string;
  Language : string
}.

Record ProjectScanner : Type := mkScanner {
  patterns : list VariablePattern;
  excludePaths : list string;
  includeExts : list string
}.

(** [UsageResult]; [Variable] and [Context] are reserved words, so the
    fields other than [Confidence] carry a [u]. *)
Record UsageResult : Type := mkUsage {
  uVariable : string;
  uFile : string;
  uLine : Z;
  uContext : string;
  uPattern : string;
  Confidence : float
}.

Record ScanResult : Type := mkScanResult {
  Variables : gmap string (list UsageResult);
  Files : list string;
  Errors : list error
}.

(** [getCommonPatterns]. *)
Definition getCommonPatterns : list VariablePattern :=
  let quote := regexp.Class (fun c => Ascii.eqb c "034" || Ascii.eqb c "'") in
  let tail := regexp.Class (fun c => is_upper c || is_digit c || Ascii.eqb c "_") in
  (* NAME, that is [A-Z][A-Z0-9_]* *)
  let name := regexp.Cat (regexp.Class is_upper) (regexp.Star tail) in
  (* prefix[\x22'](NAME)[\x22']suffix, \x22 being the double quote *)
  let quoted (prefix suffix : string) :=
    regexp.Cat (regexp.Lit prefix)
      (regexp.Cat quote
         (regexp.Cat (regexp.Group 1 name)
            (regexp.Cat quote (regexp.Lit suffix)))) in
  let compiled (r : regexp.regex) := regexp.FindAllStringSubmatch r in
  [ mkPattern "Go os.Getenv" (compiled (quoted "os.Getenv(" ")"))
      "Go os.Getenv() calls" "go";
    (* process\.env\.(NAME) *)
    mkPattern "Node.js process.env"
      (compiled (regexp.Cat (regexp.Lit "process.env.") (regexp.Group 1 name)))
      "Node.js process.env access" "javascript";
    mkPattern "Python os.environ" (compiled (quoted "os.environ[" "]"))
      "Python os.environ access" "python";
    mkPattern "Python os.getenv" (compiled (quoted "os.getenv(" ")"))
      "Python os.getenv() calls" "python";
    (* \$\{(NAME)\} *)
    mkPattern "Shell variable expansion"
      (compiled (regexp.Cat (regexp.Lit "${")
                   (regexp.Cat (regexp.Group 1 name) (regexp.Lit "}"))))
      "Shell ${VAR} expansion" "shell";
    (* \$([A-Z][A-Z0-9_]{2,}) *)
    mkPattern "Shell variable simple"
      (compiled (regexp.Cat (regexp.Lit "$")
                   (regexp.Group 1
                      (regexp.Cat (regexp.Class is_upper)
                         (regexp.AtLeast 2 tail)))))
      "Shell $VAR expansion" "shell";
    (* ENV\s+(NAME), with \s for [\t\n\f\r ] *)
    mkPattern "Docker ENV"
      (compiled (regexp.Cat (regexp.Lit "ENV")
                   (regexp.Cat
                      (regexp.Plus
                         (regexp.Class
                            (fun c => existsb (Ascii.eqb c)
                                        ["009"; "010"; "012"; "013"; " "]%char)))
                      (regexp.Group 1 name))))
      "Dockerfile ENV declarations" "docker";
    mkPattern "Java System.getenv" (compiled (quoted "System.getenv(" ")"))
      "Java System.getenv() calls" "java";
    mkPattern "C# Environment.GetEnvironmentVariable"
      (compiled (quoted "Environment.GetEnvironmentVariable(" ")"))
      "C# Environment.GetEnvironmentVariable() calls" "csharp";
    mkPattern "Ruby ENV" (compiled (quoted "ENV[" "]"))
      "Ruby ENV hash access" "ruby";
    mkPattern "PHP getenv" (compiled (quoted "getenv(" ")"))
      "PHP getenv() calls" "php";
    mkPattern "PHP $_ENV" (compiled (quoted "$_ENV[" "]"))
      "PHP $_ENV superglobal access" "php";
    mkPattern "YAML environment reference"
      (compiled (regexp.Cat (regexp.Lit "${")
                   (regexp.Cat (regexp.Group 1 name) (regexp.Lit "}"))))
      "YAML environment variable references" "yaml";
    (* [\x22']([A-Z][A-Z0-9_]{3,})[\x22'] *)
    mkPattern "Generic string literal"
      (compiled (regexp.Cat quote
                   (regexp.Cat
                      (regexp.Group 1
                         (regexp.Cat (regexp.Class is_upper)
                            (regexp.AtLeast 3 tail)))
                      quote)))
      "Environment variable names in strings (lower confidence)" "generic" ].

(** [NewProjectScanner]. *)
Definition NewProjectScanner : ProjectScanner :=
  {| patterns := getCommonPatterns;
     excludePaths := ["node_modules"; "vendor"; "dist"; "build"; ".git";
                      "target"; "bin"; "obj"; ".next"; ".nuxt"];
     includeExts := [".go"; ".js"; ".ts"; ".jsx"; ".tsx"; ".py"; ".java";
                     ".rb"; ".php"; ".cs"; ".cpp"; ".c"; ".rs"; ".kt";
                     ".scala"; ".sh"; ".bash"; ".zsh"; ".fish"; ".ps1";
                     ".yml"; ".yaml"; ".json"; ".toml"; ".ini"; ".conf";
                     ".dockerfile"; "Dockerfile"; ".env"; ".env.example"] |}.

Definition WithCustomPatterns (custom : list VariablePattern)
    (ps : ProjectScanner) : ProjectScanner :=
  mkScanner (patterns ps ++ custom) (excludePaths ps) (includeExts ps).
Definition WithExcludePaths (paths : list string) (ps : ProjectScanner)
  : ProjectScanner :=
  mkScanner (patterns ps) paths (includeExts ps).
Definition WithIncludeExtensions (exts : list string) (ps : ProjectScanner)
  : ProjectScanner :=
  mkScanner (patterns ps) (excludePaths ps) exts.

(** [shouldScanFile]. *)
Definition shouldScanFile (ps : ProjectScanner) (path : string) : bool :=
  let ext := Ext path in
  let fileName := Base path in
  existsb (fun include => String.eqb fileName include || String.eqb ext include)
          (includeExts ps).

Section case_tables.
Context `{CaseTables}.

Definition commonEnvVars : list string :=
  ["PORT"; "HOST"; "DATABASE_URL"; "API_KEY"; "SECRET_KEY";
   "NODE_ENV"; "ENVIRONMENT"; "DEBUG"; "LOG_LEVEL"; "TIMEOUT"].

(** The tests of [calculateConfidence] on the name and on the line. *)
Definition allCaps (varName : string) : bool :=
  String.eqb (ToUpper varName) varName && (1 <? String.length varName)%nat.
Definition hasUnderscore (varName : string) : bool := Contains varName "_".
Definition veryShort (varName : string) : bool :=
  (String.length varName <=? 2)%nat.
Definition envContext (line : string) : bool :=
  let lowerLine := ToLower line in
  Contains lowerLine "process.env" || Contains lowerLine "os.getenv"
  || Contains lowerLine "os.environ" || Contains lowerLine "$env:"
  || Contains lowerLine "${".

(** The loop over [commonEnvVars]: at the first name that the upper-cased
    [varName] contains it adds 0.2 and breaks. *)
Fixpoint common_loop (varName : string) (commons : list string)
    (confidence : float) : float :=
  match commons with
  | [] => confidence
  | common :: commons' =>
      if Contains (ToUpper varName) common then (confidence + 0.2)%float
      else common_loop varName commons' confidence
  end.

(** [calculateConfidence]: the running value [confidence] in binary64. *)
Definition calculateConfidence (varName line : string)
    (pattern : VariablePattern) : float :=
  let confidence := 0.5%float in
  let confidence :=
    if allCaps varName then (confidence + 0.3)%float else confidence in
  let confidence :=
    if hasUnderscore varName then (confidence + 0.2)%float else confidence in
  let confidence :=
    if veryShort varName then (confidence - 0.3)%float else confidence in
  let confidence := common_loop varName commonEnvVars confidence in
  let confidence :=
    if envContext line then (confidence + 0.2)%float else confidence in
  let confidence :=
    if (1.0 <? confidence)%float then 1.0%float else confidence in
  let confidence :=
    if (confidence <? 0.0)%float then 0.0%float else confidence in
  confidence.

(** [result.Variables[varName] = append(result.Variables[varName], usages...)]:
    a missing key reads as the nil slice. *)
Definition append_usages (varName : string) (usages : list UsageResult)
    (vars : gmap string (list UsageResult)) : gmap string (list UsageResult) :=
  <[varName := default [] (vars !! varName) ++ usages]> vars.

(** The body of the innermost loop of [scanFile], for one match. *)
Definition record_match (filePath : string) (lineNum : Z) (line : string)
    (pattern : VariablePattern) (vars : gmap string (list UsageResult))
    (m : list string) : gmap string (list UsageResult) :=
  match m with
  | _ :: varName :: _ =>
      let confidence := calculateConfidence varName line pattern in
      let usage := {| uVariable := varName; uFile := filePath;
                      uLine := lineNum; uContext := TrimSpace line;
                      uPattern := Name pattern; Confidence := confidence |} in
      append_usages varName [usage] vars
  | _ => vars
  end.

Definition scan_line (ps : ProjectScanner) (filePath : string) (lineNum : Z)
    (line : string) (vars : gmap string (list UsageResult))
  : gmap string (list UsageResult) :=
  foldl (fun vars pattern =>
           foldl (record_match filePath lineNum line pattern) vars
                 (Pattern pattern line))
        vars (patterns ps).

Fixpoint scan_lines (ps : ProjectScanner) (filePath : string) (lineNum : Z)
    (ls : list string) (vars : gmap string (list UsageResult))
  : gmap string (list UsageResult) :=
  match ls with
  | [] => vars
  | line :: ls' =>
      scan_lines ps filePath (lineNum + 1) ls'
        (scan_line ps filePath (lineNum + 1) line vars)
  end.

(** [scanFile]; [f] is what opening and reading [filePath] yields. *)
Definition scanFile (ps : ProjectScanner) (f : Opened) (filePath : string)
  : error + ScanResult :=
  match f with
  | inl err => inl err
  | inr file =>
      let vars := scan_lines ps filePath 0 (lines file) ∅ in
      inr {| Variables := vars;
             Files := [filePath];
             Errors := match read_err file with
                       | Some err => [err]
                       | None => []
                       end |}
  end.

(** *** [filepath.Walk] *)

(** What the walk finds at a path: [Lstat] fails, or the entry is a file,
    or it is a directory whose names cannot be read or whose entries are
    listed, each with the path [filepath.Join(path, name)] under which the
    walk visits it, in the order of the walk. *)
Inductive entry : Type :=
| Unreachable (err : error)
| FileEntry
| DirEntry (listing : error + list (string * entry)).

(** The three ways [Walk] calls its function: with an error (of [Lstat],
    then with a nil [info], or of reading a directory), on a directory, on
    another file. *)
Inductive visit : Type :=
| VisitError (err : error)
| VisitDir
| VisitFile.

(** What a [WalkFunc] returns. *)
Inductive walk_ret : Type :=
| WalkNil
| WalkSkipDir
| WalkErr (err : error).

(** Induction on a tree of entries, the entries of a listed directory
    satisfying the predicate. *)
Fixpoint entry_ind' (P : entry -> Prop)
    (Hu : forall err, P (Unreachable err))
    (Hf : P FileEntry)
    (He : forall err, P (DirEntry (inl err)))
    (Hd : forall names,
        (forall filename child, In (filename, child) names -> P child) ->
        P (DirEntry (inr names)))
    (e : entry) : P e :=
  match e with
  | Unreachable err => Hu err
  | FileEntry => Hf
  | DirEntry (inl err) => He err
  | DirEntry (inr names) =>
      Hd names
        ((fix children (l : list (string * entry))
            : forall filename child, In (filename, child) l -> P child :=
            match l return forall filename child,
                             In (filename, child) l -> P child with
            | [] => fun _ _ Hin => match (Hin : False) with end
            | (filename', child') :: l' =>
                fun filename child Hin =>
                  match Hin with
                  | or_introl Heq =>
                      match Heq in _ = p return P (snd p) with
                      | eq_refl => entry_ind' P Hu Hf He Hd child'
                      end
                  | or_intror Hin' => children l' filename child Hin'
                  end
            end) names)
  end.

Section walk.
Context {S : Type} (walkFn : string -> visit -> S -> S * walk_ret).

(** [walk(path, info, walkFn)] of [path/filepath], for an entry whose
    [Lstat] succeeded, and its loop over the names of a directory. *)
Fixpoint walk (path : string) (e : entry) (st : S) : S * walk_ret :=
  match e with
  | Unreachable err => walkFn path (VisitError err) st
  | FileEntry => walkFn path VisitFile st
  | DirEntry (inl err) => walkFn path (VisitError err) st
  | DirEntry (inr names) =>
      let '(st1, err1) := walkFn path VisitDir st in
      match err1 with
      | WalkNil =>
          (fix walk_names (names : list (string * entry)) (st : S)
             : S * walk_ret :=
             match names with
             | [] => (st, WalkNil)
             | (filename, child) :: names' =>
                 match child with
                 | Unreachable err =>
                     let '(st', r) := walkFn filename (VisitError err) st in
                     match r with
                     | WalkErr _ => (st', r)
                     | _ => walk_names names' st'
                     end
                 | _ =>
                     let '(st', r) := walk filename child st in
                     match r, child with
                     | WalkNil, _ => walk_names names' st'
                     | WalkSkipDir, DirEntry _ => walk_names names' st'
                     | _, _ => (st', r)
                     end
                 end
             end) names st1
      | _ => (st1, err1)
      end
  end.

(** [filepath.Walk(root, fn)]: [SkipDir] from the root is not an error. *)
Definition Walk (root : string) (e : entry) (st : S) : S * option error :=
  let '(st', r) := walk root e st in
  (st', match r with WalkErr err => Some err | _ => None end).

End walk.

(** The merge loop of [ScanProject], over the bindings [usages] of the
    per-file map. *)
Definition merge_usages (usages : list (string * list UsageResult))
    (vars : gmap string (list UsageResult)) : gmap string (list UsageResult) :=
  foldl (fun vars kv => append_usages kv.1 kv.2 vars) vars usages.

(** The function [ScanProject] hands to [filepath.Walk]; [open] is what
    opening and reading each path yields. *)
Definition visit_path (ps : ProjectScanner) (open : string -> Opened)
    (path : string) (v : visit) (result : ScanResult) : ScanResult * walk_ret :=
  match v with
  | VisitError err =>
      ({| Variables := Variables result; Files := Files result;
          Errors := Errors result
                    ++ [Errorf ("error accessing " +:+ path +:+ ": ") err] |},
       WalkNil)
  | VisitDir =>
      if existsb (fun exclude => Contains path exclude) (excludePaths ps)
      then (result, WalkSkipDir) else (result, WalkNil)
  | VisitFile =>
      if negb (shouldScanFile ps path) then (result, WalkNil)
      else
        match scanFile ps (open path) path with
        | inl err =>
            ({| Variables := Variables result; Files := Files result;
                Errors := Errors result
                          ++ [Errorf ("error scanning " +:+ path +:+ ": ") err] |},
             WalkNil)
        | inr fileResult =>
            ({| Variables := merge_usages (map_to_list (Variables fileResult))
                               (Variables result);
                Files := Files result ++ [path];
                Errors := Errors result |},
             WalkNil)
        end
  end.

(** [ScanProject] on the tree [tree] found at [rootPath]. *)
Definition ScanProject (ps : ProjectScanner) (open : string -> Opened)
    (tree : entry) (rootPath : string) : ScanResult * option error :=
  Walk (visit_path ps open) rootPath tree (mkScanResult ∅ [] []).

End case_tables.

(** [float64(len(usages))]. *)
Definition float_of_len {A} (l : list A) : float :=
  PrimFloat.of_uint63 (Uint63.of_Z (Z.of_nat (length l))).

(** The average confidence [GetRequiredVariables] computes for one name. *)
Definition avgConfidence (usages : list UsageResult) : float :=
  let totalConfidence :=
    foldl (fun total usage => (total + Confidence usage)%float) 0.0%float usages in
  (totalConfidence / float_of_len usages)%float.

(** The test of the loop body of [GetRequiredVariables]. *)
Definition required (minConfidence : float) (minUsages : Z)
    (usages : list UsageResult) : bool :=
  if (Z.of_nat (length usages) <? minUsages)%Z then false
  else (minConfidence <=? avgConfidence usages)%float.

(** [GetRequiredVariables], ranging over the map in the order of
    [map_to_list]. *)
Definition GetRequiredVariables (sr : ScanResult) (minConfidence : float)
    (minUsages : Z) : list string :=
  fst <$> filter (fun kv => required minConfidence minUsages kv.2 = true)
                 (map_to_list (Variables sr)).


End scan.

(** ** The vocabulary of the specification *)

Section vocabulary.
Context `{CaseTables}.
Import parse rules scan.

(** An issue that, if it is a [malformed line] one, was emitted by the
    check for a missing equals sign. *)
Definition from_no_equals_check (i : Issue) : Prop :=
  issues.Name i = "malformed line" ->
  Recommendations i = no_equals_recs /\ Contains (Key i) "=" = false.

Definition scenario_file : TextFile :=
  mkTextFile ["PORT=8080"; ""; "PORT=3000"; "MALFORMED LINE WITHOUT EQUALS";
              "EMPTY_VAR="] None.

Definition scenario_vars : list env.Var :=
  [env.mkVar "PORT" "8080" 1; env.mkVar "PORT" "3000" 3;
   env.mkVar "EMPTY_VAR" "" 5].

Definition scenario_parse_issues (filename : string) : list Issue :=
  [NewIssue "malformed line" "MALFORMED LINE WITHOUT EQUALS" filename 4 4
     parse.no_equals_recs;
   NewIssue "empty value" "EMPTY_VAR" filename 5 5
     ["Consider if this variable should have a default value";
      "Use quotes for intentionally empty strings: KEY="
        +:+ parse.dquote +:+ parse.dquote;
      "Document why this value is empty"]].

(** The issue [Duplicate] keeps for a key whose occurrences are [occ]. *)
Definition seen_issue (k file : string) (occ : list env.Var) : option Issue :=
  match occ with
  | [] => None
  | v1 :: rest =>
      Some (NewIssue "duplicate variable" k file (env.Line v1)
              (match last rest with Some vn => env.Line vn | None => 0%Z end)
              [])
  end.

(** The exemption in the words of the specification: the case-folded value
    equals or contains one of the safe placeholder words. *)
Definition exempted (value : string) : Prop :=
  exists placeholder, placeholder ∈ safePlaceholders /\
    (ToLower value = placeholder \/ Contains (ToLower value) placeholder = true).

(** The heuristic in the words of the specification. *)
Definition commonName (varName : string) : bool :=
  existsb (fun common => Contains (ToUpper varName) common) commonEnvVars.

Definition adjustment (applies : bool) (amount : float) : float :=
  if applies then amount else 0.0%float.

Definition clamp01 (x : float) : float :=
  if (1.0 <? x)%float then 1.0%float
  else if (x <? 0.0)%float then 0.0%float else x.

Definition confidence_formula (caps underscore short common context : bool)
  : float :=
  clamp01 (0.5 + adjustment caps 0.3 + adjustment underscore 0.2
           - adjustment short 0.3 + adjustment common 0.2
           + adjustment context 0.2)%float.

(** Every usage stored under a key is a usage of that key. *)
Definition bucket_invariant (vars : gmap string (list UsageResult)) : Prop :=
  forall (k : string) (usages : list UsageResult) (u : UsageResult),
    vars !! k = Some usages -> u ∈ usages -> uVariable u = k.

(** The first of the common patterns. *)
Definition getenv_pattern : VariablePattern :=
  List.nth 0 getCommonPatterns (mkPattern "" (fun _ => []) "" "").



(** A project of one file, [app.js], that [shouldScanFile] accepts and
    whose reading stops on an error after its first line (for
    [bufio.Scanner], a later line longer than its 64 KiB buffer). *)
Definition long_line_open (path : string) : Opened :=
  if String.eqb path "app.js"
  then inr (mkTextFile ["const port = process.env.PORT;"]
              (Some (ErrIO "bufio.Scanner: token too long")))
  else inl (ErrIO "open: no such file or directory").

Definition long_line_tree : entry := DirEntry (inr [("app.js", FileEntry)]).

End vocabulary.

(** ** More of the repository *)

(** *** [parse/parser.go]: the first parser *)

Module parser.

(** The body of the loop of [Parser.parseFile]. *)
Definition parseLine (lineNum : Z) (rawLine : string) (vars : list env.Var)
  : list env.Var :=
  let line := TrimSpace rawLine in
  if String.eqb line "" || HasPrefix line "#" then vars
  else
    match SplitN line "=" 2 with
    | [part0; part1] =>
        vars ++ [env.mkVar (TrimSpace part0) (TrimSpace part1) lineNum]
    | _ => vars
    end.

Fixpoint scanLines (lineNum : Z) (ls : list string) (vars : list env.Var)
  : list env.Var :=
  match ls with
  | [] => vars
  | line :: ls' => scanLines (lineNum + 1) ls' (parseLine (lineNum + 1) line vars)
  end.

(** [Parser.parseFile], which [Parser.Parse] returns. *)
Definition parseFile (f : Opened) : error + list env.Var :=
  match f with
  | inl err => inl (Errorf "cannot open .env file: " err)
  | inr file =>
      let vars := scanLines 0 (lines file) [] in
      match read_err file with
      | Some err => inl (Errorf "error reading file: " err)
      | None => inr vars
      end
  end.

End parser.

(** *** The rules [Missing] and [EmptyValues] *)

Module rules_more.

Definition missing_recs : list string :=
  ["Add the missing variable to your .env file";
   "Check your configuration for required variables";
   "Ensure the variable name is spelled correctly";
   "Consider if this should be optional instead"].

(** The set [existing] of [Missing]: a map to [true]. *)
Definition existing_keys (vars : list env.Var) : gmap string bool :=
  foldl (fun existing v => <[env.Key v := true]> existing) ∅ vars.

(** [Missing(requiredVars)]; a key that is not in the map reads as
    [false]. *)
Definition Missing (requiredVars : list string) : rules.Rule :=
  fun vars file =>
    let existing := existing_keys vars in
    foldl (fun out required =>
             if negb (default false (existing !! required))
             then out ++ [NewIssue "missing required variable" required file
                            0 0 missing_recs]
             else out)
          [] requiredVars.

(** [EmptyValues]. *)
Definition EmptyValues : rules.Rule := fun vars file =>
  foldl (fun out v =>
           if negb (String.eqb (env.Value v) "") then out
           else out ++ [NewIssue "empty variable" (env.Key v) file
                          (env.Line v) 0
                          ["Add the variable value to your .env file"]])
        [] vars.

End rules_more.

(** *** [Linter.LintSingle] *)

Module lint_single.




End lint_single.

(** *** [cmd/lint.go] *)

Module cmd.


(** One of the two loops of [mergeLists], on the map [unique] and the slice
    [merged]. *)
Definition merge_loop (vs : list string) (st : gmap string bool * list string)
  : gmap string bool * list string :=
  foldl (fun '(unique, merged) v =>
           if negb (default false (unique !! v))
           then (<[v := true]> unique, merged ++ [v])
           else (unique, merged))
        st vs.

(** [mergeLists]. *)
Definition mergeLists (existing discovered : list string) : list string :=
  (merge_loop existing (merge_loop discovered (∅, []))).2.



(** [autoDiscoverRequiredVars], in the order of [map_to_list]. *)
Definition autoDiscoverRequiredVars `{CaseTables} (open : string -> Opened)
    (tree : scan.entry) (scanPath : string) (minConfidence : float)
    (minUsages : Z) : error + list string :=
  let '(result, err) :=
    scan.ScanProject scan.NewProjectScanner open tree scanPath in
  match err with
  | Some err => inl err
  | None => inr (scan.GetRequiredVariables result minConfidence minUsages)
  end.

End cmd.

(** *** The fix command *)

Module fixcmd.

Record FixResult : Type := mkFix {
  OriginalLine : string;
  FixedLine : string;
  LineNumber : Z;
  Issue : string
}.

(** The tests at the head of the body of both loops of [removeDuplicates]:
    the key of the line, or [None] where the source continues with the next
    line. *)
Definition line_key (line : string) : option string :=
  let trimmedLine := TrimSpace line in
  if String.eqb trimmedLine "" || HasPrefix trimmedLine "#" then None
  else if negb (Contains trimmedLine "=") then None
  else
    match SplitN trimmedLine "=" 2 with
    | [part0; _] =>
        let key := TrimSpace part0 in
        if String.eqb key "" then None else Some key
    | _ => None
    end.

(** The first loop of [removeDuplicates] on the map [seen], [i] being the
    index of the first of [lines]. *)
Fixpoint last_lines (i : Z) (lines : list string) (seen : gmap string Z)
  : gmap string Z :=
  match lines with
  | [] => seen
  | line :: lines' =>
      last_lines (i + 1) lines'
        match line_key line with
        | Some key => <[key := (i + 1)%Z]> seen
        | None => seen
        end
  end.

(** [%d] of [fmt.Sprintf]. *)
Definition Itoa (n : Z) : string := pretty n.

(** The second loop of [removeDuplicates]. *)
Fixpoint mark_earlier (seen : gmap string Z) (i : Z) (lines : list string)
    (fixes : list FixResult) : list FixResult :=
  match lines with
  | [] => fixes
  | line :: lines' =>
      mark_earlier seen (i + 1) lines'
        match line_key line with
        | Some key =>
            let lineNum := (i + 1)%Z in
            let lastOccurrence := default 0%Z (seen !! key) in
            if negb (lineNum =? lastOccurrence)%Z
            then fixes ++ [mkFix line "" lineNum
                             ("removed duplicate variable '" +:+ key
                              +:+ "' (kept line " +:+ Itoa lastOccurrence
                              +:+ ")")]
            else fixes
        | None => fixes
        end
  end.

(** [removeDuplicates]. *)
Definition removeDuplicates (lines : list string) : list FixResult :=
  mark_earlier (last_lines 0 lines ∅) 0 lines [].

(** The loop of [fixFile] that applies the fixes to a copy of the lines. *)
Definition applyFixes (originalLines : list string) (fixes : list FixResult)
  : list string :=
  foldl (fun fixedLines f =>
           if (0 <? LineNumber f)%Z
              && (LineNumber f <=? Z.of_nat (length fixedLines))%Z
           then <[Z.to_nat (LineNumber f - 1) := FixedLine f]> fixedLines
           else fixedLines)
        originalLines fixes.

End fixcmd.

(** *** Vocabulary of the further properties *)

Section further_vocabulary.
Import parse.

(** The line parser's state after the lines up to number [n] of the file
    [filename]: the variables have a key, stand on lines 1 to [n] in
    increasing order, one per line at most; the issues are about single
    lines of the file, in the order of the lines. *)
Record parsed_upto (filename : string) (n : Z) (st : EnhancedResult) : Prop := {
  vars_keyed : Forall (fun v => env.Key v <> "" /\ (1 <= env.Line v <= n)%Z)
                      (Vars st);
  vars_sorted : StronglySorted Z.lt (env.Line <$> Vars st);
  issues_placed : Forall (fun i => FirstLine i = Line i /\ (1 <= Line i <= n)%Z
                                   /\ issues.File i = filename)
                         (IssueList st);
  issues_sorted : StronglySorted Z.le (Line <$> IssueList st)
}.

(** Where an issue is and what it is about. *)
Definition issue_place (i : Issue) : string * Z := (Key i, FirstLine i).

(** The issues of one file in a run of the linter: the issues of the
    parser, when they are included, then those of each rule in turn. *)
Definition file_issues (l : lint.Linter) (file : string)
    (result : EnhancedResult) : list Issue :=
  (if lint.includeParseIssues l then IssueList result else [])
  ++ concat ((fun rule : rules.Rule => rule (Vars result) file)
               <$> lint.linter_rules l).

(** Every byte of [s] is in the class [p]. *)
Fixpoint all_bytes (p : ascii -> bool) (s : string) : bool :=
  match s with
  | EmptyString => true
  | String c s' => p c && all_bytes p s'
  end.

(** A name in upper snake case: an upper-case letter, then upper-case
    letters, digits and underscores. *)
Definition upper_snake (key : string) : bool :=
  match key with
  | EmptyString => false
  | String c rest =>
      is_upper c
      && all_bytes (fun c => is_upper c || is_digit c || Ascii.eqb c "_") rest
  end.

(** The abbreviation [entry] stands in [key] as a word, without its full
    word. *)
Definition abbreviation_fires (key : string) (entry : string * string) : bool :=
  Contains key entry.1 && negb (Contains key entry.2)
  && regexp.MatchString
       (regexp.Cat regexp.WordBoundary
          (regexp.Cat (regexp.Lit entry.1) regexp.WordBoundary)) key.

(** What makes [Convention] report a key, besides its shape. *)
Definition name_findings (key : string) : bool :=
  Nat.eqb (String.length key) 1 || Nat.ltb 50 (String.length key)
  || existsb (String.eqb key) rules.systemVars
  || bool_decide (is_Some (rules.antiPatterns !! key))
  || existsb (HasPrefix key) rules.redundantPrefixes
  || existsb (abbreviation_fires key) rules.abbreviationSuggestions.

(** [r] has no group. *)
Fixpoint group_free (r : regexp.regex) : bool :=
  match r with
  | regexp.Group _ _ => false
  | regexp.Cat r1 r2 | regexp.Alt r1 r2 => group_free r1 && group_free r2
  | regexp.Star r1 => group_free r1
  | _ => true
  end.

(** Whenever [r] matches from captures that satisfy [P] and what follows
    the match succeeds, what follows was entered with captures that satisfy
    [Q]. *)
Definition hands_over (P : regexp.captures -> Prop) (r : regexp.regex)
    (Q : regexp.captures -> Prop) : Prop :=
  forall (R : Type) prev s caps
         (k : option ascii -> string -> regexp.captures -> option R) x,
    P caps -> regexp.run r prev s caps k = Some x ->
    exists prev' s' caps', Q caps' /\ k prev' s' caps' = Some x.

(** [r] matches bytes of the class [p] only and leaves the captures as they
    are. *)
Definition takes_only (p : ascii -> bool) (r : regexp.regex) : Prop :=
  forall (R : Type) prev s caps
         (k : option ascii -> string -> regexp.captures -> option R) x,
    regexp.run r prev s caps k = Some x ->
    exists t s' prev',
      s = t +:+ s' /\ all_bytes p t = true /\ k prev' s' caps = Some x.

(** The latest capture is group 1 and holds a name in upper snake case. *)
Definition names_variable (caps : regexp.captures) : Prop :=
  exists t rest, caps = (1%nat, t) :: rest /\ upper_snake t = true.

(** [r] is built from classes, sequences, alternatives, groups and the end
    of the text. *)
Fixpoint plain (r : regexp.regex) : bool :=
  match r with
  | regexp.Empty | regexp.Class _ | regexp.EndText => true
  | regexp.Cat r1 r2 | regexp.Alt r1 r2 => plain r1 && plain r2
  | regexp.Group _ r1 => plain r1
  | _ => false
  end.

(** For a plain [r]: [r] matches at the front of [s] and [s'] is left. *)
Fixpoint matches_from (r : regexp.regex) (s s' : string) : Prop :=
  match r with
  | regexp.Empty => s' = s
  | regexp.Class p => exists c, s = String c s' /\ p c = true
  | regexp.Cat r1 r2 => exists s1, matches_from r1 s s1 /\ matches_from r2 s1 s'
  | regexp.Alt r1 r2 => matches_from r1 s s' \/ matches_from r2 s s'
  | regexp.Group _ r1 => matches_from r1 s s'
  | regexp.EndText => s = EmptyString /\ s' = EmptyString
  | _ => False
  end.

(** Wherever [r] matches, [r'] matches at the front of a suffix of the
    match and leaves the same rest. *)
Definition ends_as (r r' : regexp.regex) : Prop :=
  forall suf s', matches_from r suf s' ->
  exists pre suf', suf = pre +:+ suf' /\ matches_from r' suf' s'.

(** The words that end the name of a secret. *)
Definition secret_words : list string :=
  ["password"; "pwd"; "pass"; "secret"; "key"; "token"].

(** The first occurrence of each name of [l], in the order of [l]. *)
Fixpoint first_occurrences (l : list string) : list string :=
  match l with
  | [] => []
  | x :: l' => x :: filter (fun y => y <> x) (first_occurrences l')
  end.


(** The [empty value] issues of the parser's state stand where its
    variables with an empty value stand. *)
Definition empty_values_agree (st : parse.EnhancedResult) : Prop :=
  issue_place <$> filter (fun i => Name i = "empty value") (parse.IssueList st)
  = (fun v => (env.Key v, env.Line v))
      <$> filter (fun v => env.Value v = "") (parse.Vars st).

(** The findings are sound when an issue found comes with advice. *)
Definition advised (st : rules.findings) : Prop :=
  rules.issueFound st = true -> rules.recommendations st <> [].

(** The line of index [i] defines the key [key]. *)
Definition defines (ls : list string) (i : nat) (key : string) : Prop :=
  exists line, ls !! i = Some line /\ fixcmd.line_key line = Some key.

(** The index of the last line of [ls] that defines [key]. *)
Fixpoint last_index (key : string) (ls : list string) : option nat :=
  match ls with
  | [] => None
  | line :: ls' =>
      match last_index key ls' with
      | Some j => Some (S j)
      | None => if decide (fixcmd.line_key line = Some key) then Some O else None
      end
  end.

(** What the second loop of [removeDuplicates] appends from the index [i]
    on. *)
Fixpoint marks (seen : gmap string Z) (i : Z) (ls : list string)
  : list fixcmd.FixResult :=
  match ls with
  | [] => []
  | line :: ls' =>
      match fixcmd.line_key line with
      | Some key =>
          if negb (i + 1 =? default 0 (seen !! key))%Z
          then [fixcmd.mkFix line "" (i + 1)
                  ("removed duplicate variable '" +:+ key
                   +:+ "' (kept line " +:+ fixcmd.Itoa (default 0%Z (seen !! key))
                   +:+ ")")]
          else []
      | None => []
      end ++ marks seen (i + 1) ls'
  end.

(** The value that [ParseWithIssues] reads on a line that defines a key. *)
Definition line_value (line : string) : string :=
  match SplitN (TrimSpace line) "=" 2 with
  | [_; part1] => TrimSpace part1
  | _ => EmptyString
  end.

(** The lines of a file after the fixes of [removeDuplicates]. *)
Definition without_duplicates (ls : list string) : list string :=
  fixcmd.applyFixes ls (fixcmd.removeDuplicates ls).

(** The number of bytes of the class [p] that [s] starts with. *)
Fixpoint span (p : ascii -> bool) (s : string) : nat :=
  match s with
  | String c s' => if p c then S (span p s') else O
  | EmptyString => O
  end.

(** The classes of the second, third, fourth and fifth patterns of
    [secretValuePatterns]. *)
Definition base64_byte (c : ascii) : bool :=
  rules.alnum c || rules.one_of "+/" c.
Definition hex_byte (c : ascii) : bool :=
  byte_in 97 102 c || byte_in 65 70 c || is_digit c.
Definition key_id_byte (c : ascii) : bool := is_digit c || is_upper c.

(** The test by which the parsers skip a line. *)
Definition blank_or_comment (line : string) : bool :=
  String.eqb (TrimSpace line) "" || HasPrefix (TrimSpace line) "#".

(** A file of four lines that defines [PORT] twice. *)
Definition two_ports_file : TextFile :=
  mkTextFile ["PORT=8080"; "HOST=h"; "# the port again"; "PORT=3000"] None.

End further_vocabulary.

Section scan_vocabulary.
Context `{CaseTables}.
Import scan.

(** The usage that [scanFile] records for a match of [pattern] that names
    [varName] in the line [line], of number [lineNum], of [filePath]. *)
Definition recorded (filePath : string) (lineNum : Z) (line : string)
    (pattern : VariablePattern) (varName : string) : UsageResult :=
  {| uVariable := varName; uFile := filePath; uLine := lineNum;
     uContext := TrimSpace line; uPattern := Name pattern;
     Confidence := calculateConfidence varName line pattern |}.

(** [u] is recorded for a match of a pattern of [ps] that names [k] in a
    line of [file]. *)
Definition found_in (ps : ProjectScanner) (file : TextFile) (filePath : string)
    (k : string) (u : UsageResult) : Prop :=
  exists (i : nat) line pattern whole groups,
    lines file !! i = Some line /\ pattern ∈ patterns ps
    /\ (whole :: k :: groups) ∈ Pattern pattern line
    /\ u = recorded filePath (Z.of_nat i + 1) line pattern k.

(** The usages of the matches of a file, in the order in which the loops of
    [scanFile] come to them. *)
Definition usages_of_match (filePath : string) (lineNum : Z) (line : string)
    (pattern : VariablePattern) (m : list string) : list UsageResult :=
  match m with
  | _ :: varName :: _ => [recorded filePath lineNum line pattern varName]
  | _ => []
  end.

Definition usages_of_line (ps : ProjectScanner) (filePath : string)
    (lineNum : Z) (line : string) : list UsageResult :=
  patterns ps ≫= fun pattern =>
    Pattern pattern line ≫= usages_of_match filePath lineNum line pattern.

Fixpoint usages_of_lines (ps : ProjectScanner) (filePath : string)
    (lineNum : Z) (ls : list string) : list UsageResult :=
  match ls with
  | [] => []
  | line :: ls' =>
      usages_of_line ps filePath (lineNum + 1) line
      ++ usages_of_lines ps filePath (lineNum + 1) ls'
  end.

(** The map [vars] holds the usages [us], each under its name and in their
    order, and no empty list. *)
Definition buckets_of (us : list UsageResult)
    (vars : gmap string (list UsageResult)) : Prop :=
  forall k, vars !! k = match filter (fun u => uVariable u = k) us with
                        | [] => None
                        | mine => Some mine
                        end.

(** What holds of a result of [ScanProject] while it walks: the files
    listed pass [shouldScanFile] and were opened; no name has an empty list
    of usages, and every usage was found in a listed file. *)
Definition scanned_ok (ps : ProjectScanner) (open : string -> Opened)
    (result : ScanResult) : Prop :=
  Forall (fun path => shouldScanFile ps path = true
                      /\ exists file, open path = inr file) (Files result)
  /\ forall k usages,
       Variables result !! k = Some usages ->
       usages <> []
       /\ Forall (fun u => uFile u ∈ Files result
                           /\ exists file, open (uFile u) = inr file
                                           /\ found_in ps file (uFile u) k u)
                 usages.

End scan_vocabulary.

(** * Properties *)

(** ** Strings *)

Section string_facts.

Lemma Index_Some_lt (s sep : string) (m : nat) :
  Index s sep = Some m -> sep <> EmptyString -> (m < String.length s)%nat.
Proof.
  revert m; induction s as [|c s IH]; intros m; cbn [Index].
  - destruct sep; cbn; [congruence|discriminate].
  - destruct (HasPrefix (String c s) sep).
    + intros [= <-] _; cbn; lia.
    + destruct (Index s sep) as [m'|] eqn:E; cbn; [|discriminate].
      intros [= <-] Hsep. specialize (IH m' eq_refl Hsep). cbn; lia.
Qed.

Lemma Contains_Index (s sub : string) :
  Contains s sub = true -> exists m, Index s sub = Some m.
Proof. unfold Contains; destruct (Index s sub); [eauto|discriminate]. Qed.

(** Splitting in at most two at a separator that occurs gives two parts. *)
Lemma SplitN_2_present (s sep : string) :
  sep <> EmptyString -> Contains s sep = true ->
  exists part0 part1, SplitN s sep 2 = [part0; part1].
Proof.
  intros Hsep [m Hm]%Contains_Index.
  pose proof (Index_Some_lt _ _ _ Hm Hsep) as Hlt.
  unfold SplitN. cbn [Z.eqb Z.ltb Z.compare].
  destruct (String.eqb_spec sep EmptyString) as [->|_]; [congruence|].
  replace (Nat.min (Z.to_nat 2) (String.length s + 1) - 1)%nat with 1%nat
    by (change (Z.to_nat 2) with 2%nat; lia).
  cbn [split_loop]. rewrite Hm. eauto.
Qed.

End string_facts.

(** ** The line parser *)

Section parser_facts.
Import parse.

Lemma parseLine_from_no_equals_check filename lineNum line st :
  Forall from_no_equals_check (IssueList st) ->
  Forall from_no_equals_check (IssueList (parseLine filename lineNum line st)).
Proof.
  intros Hst. unfold parseLine.
  destruct (_ || _); [assumption|].
  destruct (Contains (TrimSpace line) "=") eqn:Heq; cbn [negb].
  - destruct (SplitN_2_present (TrimSpace line) "=") as (p0 & p1 & ->);
      [discriminate|assumption|].
    repeat match goal with
           | |- context [if ?b then _ else _] => destruct b
           end;
      cbn [add_issue add_var IssueList];
      repeat (apply Forall_app; split); try assumption;
      apply Forall_singleton; intros [=].
  - cbn [add_issue IssueList]. apply Forall_app; split; [assumption|].
    apply Forall_singleton. intros _. cbn. auto.
Qed.

Lemma scanLines_from_no_equals_check filename ls : forall lineNum st,
  Forall from_no_equals_check (IssueList st) ->
  Forall from_no_equals_check (IssueList (scanLines filename lineNum ls st)).
Proof.
  induction ls as [|line ls IH]; intros lineNum st Hst; cbn [scanLines];
    [assumption|].
  apply IH, parseLine_from_no_equals_check, Hst.
Qed.

End parser_facts.

(** C10. In [ParseWithIssues], a trimmed line that contains an equals sign
    is always split in exactly two parts by [SplitN(_, "=", 2)], so the
    second [malformed line] branch is never taken: whatever the file, every
    [malformed line] issue of the result carries the recommendations of the
    check for a missing equals sign, and its subject holds no equals sign. *)
Theorem second_malformed_branch_unreachable :
  (forall line : string,
      Contains (TrimSpace line) "=" = true ->
      length (SplitN (TrimSpace line) "=" 2) = 2%nat) /\
  (forall (f : Opened) (filename : string) (result : parse.EnhancedResult)
          (issue : Issue),
      parse.ParseWithIssues f filename = inr result ->
      issue ∈ parse.IssueList result ->
      Name issue = "malformed line" ->
      Recommendations issue = parse.no_equals_recs /\
      Recommendations issue <> parse.split_recs /\
      Contains (Key issue) "=" = false).
Proof.
  split.
  - intros line H.
    destruct (SplitN_2_present (TrimSpace line) "=") as (p0 & p1 & ->);
      [discriminate|assumption|reflexivity].
  - intros f filename result issue Hparse Hin Hname.
    unfold parse.ParseWithIssues in Hparse.
    destruct f as [err|file]; [discriminate|].
    destruct (read_err file); [discriminate|].
    injection Hparse as <-.
    pose proof (scanLines_from_no_equals_check filename (lines file) 0
                  (parse.mkResult [] []) (Forall_nil_2 _)) as Hall.
    rewrite Forall_forall in Hall.
    destruct (Hall issue Hin Hname) as [Hrec Hkey].
    rewrite Hrec. repeat split; [discriminate|assumption].
Qed.

(** The line [A=b=c] is split at its first equals sign only. *)
Lemma second_malformed_branch_unreachable_witness :
  length (SplitN (TrimSpace " A=b=c ") "=" 2) = 2%nat.
Proof.
  apply (proj1 second_malformed_branch_unreachable " A=b=c ").
  vm_compute. reflexivity.
Defined.

(** ** End to end *)

(** C1. Parsing the five lines [PORT=8080], a blank line, [PORT=3000],
    [MALFORMED LINE WITHOUT EQUALS], [EMPTY_VAR=] with [ParseWithIssues]
    gives the three variables PORT=8080 at line 1, PORT=3000 at line 3 and
    EMPTY_VAR with the empty value at line 5, one [malformed line] issue at
    line 4 and one [empty value] issue for EMPTY_VAR at line 5; every run of
    the Duplicate rule on these variables returns exactly one issue, for
    PORT, with first line 1 and last line 3; and the linter with that one
    rule returns these three issues and no other. *)
Theorem end_to_end_scenario (filename : string) :
  parse.ParseWithIssues (inr scenario_file) filename
    = inr (parse.mkResult (scenario_parse_issues filename) scenario_vars) /\
  (forall out, rules.Duplicate_returns scenario_vars filename out ->
     out = [NewIssue "duplicate variable" "PORT" filename 1 3 []]) /\
  lint.Lint (lint.WithRule rules.Duplicate lint.New)
            (fun _ => inr scenario_file) [filename]
    = inr (scenario_parse_issues filename
             ++ [NewIssue "duplicate variable" "PORT" filename 1 3 []]).
Proof.
  assert (Hdup : rules.Duplicate scenario_vars filename
                 = [NewIssue "duplicate variable" "PORT" filename 1 3 []]).
  { vm_compute. reflexivity. }
  split; [vm_compute; reflexivity|]. split.
  - intros out Hout. unfold rules.Duplicate_returns in Hout.
    rewrite Hdup in Hout. by apply Permutation_singleton_r.
  - vm_compute. reflexivity.
Qed.

(** The run of [Duplicate] that ranges over its map in the order of
    [map_to_list]. *)
Lemma end_to_end_scenario_witness :
  rules.Duplicate scenario_vars ".env"
  = [NewIssue "duplicate variable" "PORT" ".env" 1 3 []].
Proof.
  apply (proj1 (proj2 (end_to_end_scenario ".env"))).
  apply Permutation_refl.
Defined.

(** ** The Duplicate rule *)

Section duplicate_facts.
Import rules.

(** The pairs of a map whose key is [k]: the binding of [k], if any. *)
Lemma filter_key_map_to_list {A} (m : gmap string A) (k : string) :
  filter (fun p => p.1 = k) (map_to_list m)
  = match m !! k with Some x => [(k, x)] | None => [] end.
Proof.
  induction m as [|i x m Hi IH] using map_ind.
  - by rewrite map_to_list_empty, lookup_empty.
  - assert (Hperm : filter (fun p : string * A => p.1 = k)
                           (map_to_list (<[i:=x]> m))
                    ≡ₚ filter (fun p => p.1 = k) ((i, x) :: map_to_list m))
      by (by rewrite map_to_list_insert).
    rewrite filter_cons, IH in Hperm. cbn [fst] in Hperm.
    destruct (decide (i = k)) as [->|Hne].
    + rewrite lookup_insert_eq. rewrite Hi in Hperm.
      by apply Permutation_singleton_r.
    + rewrite lookup_insert_ne by done.
      destruct (m !! k);
        [by apply Permutation_singleton_r|by apply Permutation_nil_r].
Qed.

Lemma Duplicate_seen_lookup (vars : list env.Var) (file k : string) :
  Duplicate_seen vars file !! k
  = seen_issue k file (filter (fun v => env.Key v = k) vars).
Proof.
  unfold Duplicate_seen.
  induction vars as [|v vars IH] using rev_ind; [done|].
  rewrite foldl_snoc, filter_app, filter_cons, filter_nil.
  unfold Duplicate_step at 1.
  destruct (decide (env.Key v = k)) as [<-|Hne].
  - rewrite IH.
    destruct (filter _ vars) as [|v1 rest]; cbn [seen_issue app].
    + by rewrite lookup_insert_eq.
    + by rewrite lookup_insert_eq, last_snoc.
  - rewrite app_nil_r, <- IH.
    destruct (foldl _ _ _ !! env.Key v); by rewrite lookup_insert_ne.
Qed.

Lemma Duplicate_seen_Key vars file k i :
  Duplicate_seen vars file !! k = Some i -> Key i = k.
Proof.
  rewrite Duplicate_seen_lookup. destruct (filter _ vars); cbn; [done|].
  by intros [= <-].
Qed.

(** The issues of [Duplicate] about the key [k]. *)
Lemma Duplicate_filter_key vars file k :
  filter (fun i => Key i = k) (Duplicate vars file)
  = match Duplicate_seen vars file !! k with
    | Some i => if decide (Line i ≠ 0%Z) then [i] else []
    | None => []
    end.
Proof.
  unfold Duplicate.
  assert (Hcomm : forall l : list Issue,
             filter (fun i => Key i = k) (filter (fun i => Line i ≠ 0%Z) l)
             = filter (fun i => Line i ≠ 0%Z) (filter (fun i => Key i = k) l)).
  { intros l. rewrite !list_filter_filter. apply list_filter_iff. tauto. }
  rewrite Hcomm.
  assert (Hkeys : filter (fun i => Key i = k)
                    (snd <$> map_to_list (Duplicate_seen vars file))
                  = snd <$> filter (fun p => p.1 = k)
                              (map_to_list (Duplicate_seen vars file))).
  { assert (Hall : Forall (fun p => Key p.2 = p.1)
                     (map_to_list (Duplicate_seen vars file))).
    { apply Forall_forall. intros [k' i] Hin%elem_of_map_to_list.
      by apply Duplicate_seen_Key in Hin. }
    induction Hall as [|[k' i] l Hki _ IHl]; [done|].
    cbn [fmap list_fmap snd]. rewrite !filter_cons. cbn [fst snd] in *.
    rewrite Hki. destruct (decide (k' = k)); cbn; by rewrite IHl. }
  rewrite Hkeys, filter_key_map_to_list.
  destruct (Duplicate_seen vars file !! k) as [i|]; [|done].
  cbn [fmap list_fmap snd]. rewrite filter_cons, filter_nil.
  by destruct (decide _).
Qed.

End duplicate_facts.

(** C2. For every list of variables whose lines are numbered from 1 and
    every run of [Duplicate] on it: a key that occurs more than once has
    exactly one issue in the output, of kind [duplicate variable], whose
    first line is the line of the first occurrence of the key and whose last
    line is the line of its last occurrence; a key that occurs once has no
    issue; and the output holds nothing else. *)
Theorem Duplicate_first_last (vars : list env.Var) (file : string)
    (out : list Issue) (k : string) :
  Forall (fun v => (1 <= env.Line v)%Z) vars ->
  rules.Duplicate_returns vars file out ->
  let occ := filter (fun v => env.Key v = k) vars in
  ((1 < length occ)%nat ->
     exists v1 vn, head occ = Some v1 /\ last occ = Some vn /\
       filter (fun i => Key i = k) out
       = [NewIssue "duplicate variable" k file (env.Line v1) (env.Line vn) []])
  /\ ((length occ <= 1)%nat -> filter (fun i => Key i = k) out = [])
  /\ Forall (fun i => Name i = "duplicate variable") out.
Proof.
  intros Hlines Hout occ. unfold rules.Duplicate_returns in Hout.
  assert (Hk : filter (fun i => Key i = k) out
               ≡ₚ filter (fun i => Key i = k) (rules.Duplicate vars file))
    by (by rewrite Hout).
  rewrite Duplicate_filter_key, Duplicate_seen_lookup in Hk. fold occ in Hk.
  assert (Hocc : Forall (fun v => (1 <= env.Line v)%Z) occ).
  { apply Forall_forall. intros v [_ Hv]%list_elem_of_filter.
    by apply (proj1 (Forall_forall _ _) Hlines). }
  split; [|split].
  - intros Hlen. destruct occ as [|v1 [|v2 rest]]; cbn in Hlen; try lia.
    destruct (last (v2 :: rest)) as [vn|] eqn:Hlast;
      [|by apply last_None in Hlast].
    exists v1, vn. split; [done|]. split.
    { by rewrite last_cons, Hlast. }
    cbn [seen_issue] in Hk. rewrite Hlast in Hk.
    assert (1 <= env.Line vn)%Z.
    { apply (proj1 (Forall_forall _ _) Hocc). right.
      by apply last_Some_elem_of. }
    case_decide as Hn; [by apply Permutation_singleton_r|].
    cbn in Hn; lia.
  - intros Hlen. destruct occ as [|v1 [|v2 rest]]; cbn in Hlen; try lia;
      cbn [seen_issue last] in Hk; [by apply Permutation_nil_r|].
    case_decide as Hn; [exfalso; apply Hn; reflexivity|by apply Permutation_nil_r].
  - rewrite Hout. unfold rules.Duplicate.
    apply Forall_forall. intros i [_ Hi]%list_elem_of_filter.
    apply list_elem_of_fmap in Hi as ([k' i'] & -> & Hi%elem_of_map_to_list).
    rewrite Duplicate_seen_lookup in Hi. revert Hi.
    destruct (filter (fun v => env.Key v = k') vars); cbn; [done|].
    by intros [= <-].
Qed.

(** A key on lines 3 and 9 only: one issue, from line 3 to line 9. *)
Lemma Duplicate_first_last_witness :
  filter (fun i => Key i = "PORT")
    (rules.Duplicate [env.mkVar "PORT" "8080" 3; env.mkVar "HOST" "h" 5;
                      env.mkVar "PORT" "3000" 9] ".env")
  = [NewIssue "duplicate variable" "PORT" ".env" 3 9 []].
Proof.
  destruct (Duplicate_first_last
              [env.mkVar "PORT" "8080" 3; env.mkVar "HOST" "h" 5;
               env.mkVar "PORT" "3000" 9] ".env"
              (rules.Duplicate [env.mkVar "PORT" "8080" 3; env.mkVar "HOST" "h" 5;
                                env.mkVar "PORT" "3000" 9] ".env")
              "PORT") as [H _].
  - repeat constructor; cbn; lia.
  - apply Permutation_refl.
  - destruct H as (v1 & vn & H1 & Hn & ->); [vm_compute; lia|].
    vm_compute in H1, Hn. injection H1 as <-. injection Hn as <-. reflexivity.
Defined.

(** [Duplicate] uses a last line of 0 to mark a key seen once: a repeated
    key whose last occurrence is on line 0, which no parsed file has, is
    not reported. *)
Lemma Duplicate_last_line_zero :
  rules.Duplicate [env.mkVar "PORT" "8080" 1; env.mkVar "PORT" "3000" 0] ".env"
  = [].
Proof. vm_compute. reflexivity. Qed.




(** ** The Security rule *)

Section security_facts.
Context `{CaseTables}.
Import rules.

Lemma isSafePlaceholder_exempted (value : string) :
  isSafePlaceholder value = true <-> exempted value.
Proof.
  unfold isSafePlaceholder, exempted. rewrite existsb_exists.
  split; intros (p & Hp & Hc); exists p.
  - split; [by apply list_elem_of_In|].
    apply orb_prop in Hc as [Hc|Hc]; [left; by apply String.eqb_eq|by right].
  - split; [by apply list_elem_of_In|].
    apply orb_true_iff. destruct Hc as [Hc|Hc]; [left; by apply String.eqb_eq|by right].
Qed.

End security_facts.

(** C3, the claim as stated fails: the variable [DB_PASSWORD] with the empty
    value is not exempted and its name fires the key-name signal, yet
    [Security] reports nothing, because it skips empty values first. *)
Lemma Security_skips_empty_value :
  ~ @exempted ascii_case "" /\
  rules.isSecretKey "DB_PASSWORD" = true /\
  @rules.Security ascii_case [env.mkVar "DB_PASSWORD" "" 1] ".env" = [].
Proof.
  split; [|split; vm_compute; reflexivity].
  rewrite <- isSafePlaceholder_exempted. vm_compute. discriminate.
Qed.

(** C3, amended. In every list of variables, a variable whose case-folded
    value equals or contains a safe placeholder word produces no issue, and
    neither does a variable whose value is empty: the issues are those of
    the variables before it followed by those of the variables after it.  A
    variable with a non-empty value that is not exempted and for which the
    key-name signal or the value-shape signal fires produces exactly one
    issue, of kind [potential secret in plaintext], between the issues of
    the variables before it and those of the variables after it.  So
    [localhost] on [API_SECRET] produces none and
    [sk_live_51H1234567890abcdef] on [REAL_SECRET] produces one. *)
Theorem Security_exemption_and_signals `{CaseTables}
    (before after : list env.Var) (v : env.Var) (file : string) (line : Z) :
  (exempted (env.Value v) ->
   rules.Security (before ++ v :: after) file
   = rules.Security before file ++ rules.Security after file) /\
  (env.Value v = "" ->
   rules.Security (before ++ v :: after) file
   = rules.Security before file ++ rules.Security after file) /\
  (env.Value v <> "" -> ~ exempted (env.Value v) ->
   rules.isSecretKey (env.Key v) = true
   \/ rules.looksLikeSecret (env.Value v) = true ->
   exists issue,
     rules.Security (before ++ v :: after) file
     = rules.Security before file ++ issue :: rules.Security after file /\
     Name issue = "potential secret in plaintext" /\ Key issue = env.Key v
     /\ FirstLine issue = env.Line v /\ File issue = file) /\
  @rules.Security ascii_case [env.mkVar "API_SECRET" "localhost" line] file
  = [] /\
  exists issue,
    @rules.Security ascii_case
       [env.mkVar "REAL_SECRET" "sk_live_51H1234567890abcdef" line] file
    = [issue] /\ Name issue = "potential secret in plaintext".
Proof.
  assert (Hsplit : rules.Security (before ++ v :: after) file
                   = rules.Security before file
                     ++ from_option (fun issue => [issue]) []
                          (rules.Security_var file v)
                     ++ rules.Security after file).
  { unfold rules.Security. rewrite omap_app. cbn [omap list_omap].
    by destruct (rules.Security_var file v). }
  rewrite Hsplit. unfold rules.Security_var.
  split; [|split; [|split; [|split]]].
  - intros Hex%isSafePlaceholder_exempted. rewrite Hex.
    by destruct (String.eqb _ _).
  - intros ->. done.
  - intros Hne Hnex Hsig.
    destruct (String.eqb_spec (env.Value v) "") as [|_]; [done|].
    destruct (rules.isSafePlaceholder (env.Value v)) eqn:Hsafe.
    { by apply isSafePlaceholder_exempted in Hsafe. }
    assert (rules.isSecretKey (env.Key v)
            || rules.looksLikeSecret (env.Value v) = true) as ->
      by (apply orb_true_iff; exact Hsig).
    eexists; split; [reflexivity|]. by repeat split.
  - vm_compute. reflexivity.
  - eexists. split; vm_compute; reflexivity.
Qed.

(** A non-empty password on [DB_PASSWORD], between a port and a host, is
    reported. *)
Lemma Security_exemption_and_signals_witness :
  exists issue,
    @rules.Security ascii_case
       ([env.mkVar "PORT" "8080" 6]
        ++ env.mkVar "DB_PASSWORD" "hunter2" 7 :: [env.mkVar "HOST" "db1" 8])
       ".env"
    = @rules.Security ascii_case [env.mkVar "PORT" "8080" 6] ".env"
      ++ issue :: @rules.Security ascii_case [env.mkVar "HOST" "db1" 8] ".env"
    /\ Name issue = "potential secret in plaintext"
    /\ Key issue = "DB_PASSWORD" /\ FirstLine issue = 7%Z
    /\ File issue = ".env".
Proof.
  apply (proj1 (proj2 (proj2 (@Security_exemption_and_signals ascii_case
                                [env.mkVar "PORT" "8080" 6]
                                [env.mkVar "HOST" "db1" 8]
                                (env.mkVar "DB_PASSWORD" "hunter2" 7)
                                ".env" 7)))).
  - discriminate.
  - rewrite <- isSafePlaceholder_exempted. vm_compute. discriminate.
  - left. vm_compute. reflexivity.
Defined.

(** ** The Convention rule *)

Section convention_facts.
Context `{CaseTables}.
Import rules.

(** The loop over the abbreviations leaves the findings alone when no
    abbreviation occurs in the key without its full word. *)
Lemma abbreviation_loop_skip (key : string) (abbrevs : list (string * string)) :
  forall st,
  Forall (fun e => Contains key e.1 && negb (Contains key e.2) = false) abbrevs ->
  foldl (abbreviation_step key) st abbrevs = st.
Proof.
  induction abbrevs as [|[abbrev full] abbrevs IH]; intros st Hall; [done|].
  apply Forall_cons in Hall as [Hhd Htl]. cbn [foldl fst snd] in *.
  unfold abbreviation_step at 2. rewrite Hhd. by apply IH.
Qed.

End convention_facts.

(** The cases of the repository's [TestConvertCamelToSnake]. *)
Lemma convertCamelToSnake_tests :
  @rules.convertCamelToSnake ascii_case
    <$> ["camelCase"; "PascalCase"; "databaseUrl"; "HTTPSProxy";
         "XMLHttpRequest"; "iPhone"; "URLPath"; "simpleword"; "ALLCAPS"; ""]
  = ["camel_case"; "pascal_case"; "database_url"; "https_proxy";
     "xml_http_request"; "i_phone"; "url_path"; "simpleword"; "allcaps"; ""].
Proof. vm_compute. reflexivity. Qed.

(** The number of issues the repository's [TestConvention] expects for each
    of its lists of keys. *)
Lemma Convention_test_counts :
  (fun keys => length (@rules.Convention ascii_case
                         ((fun key => env.mkVar key "value" 1) <$> keys)
                         "test.env"))
    <$> [["DATABASE_URL"; "API_KEY"; "PORT"; "LOG_LEVEL"];
         ["databaseUrl"; "apiKey"]; ["database-url"; "api-key"];
         ["DATABASE URL"; "API KEY"]; ["database_url"; "api_key"];
         ["3RD_PARTY_API"; "123_CONFIG"]; ["A"; "X"];
         ["PATH"; "HOME"; "USER"]; ["CONFIG"; "DATA"; "SETTINGS"];
         ["ENV_DATABASE_URL"; "ENVIRONMENT_API_KEY"; "VAR_PORT"];
         ["DB"; "DB_PWD"; "SVR"]]
  = [0; 2; 2; 2; 2; 2; 2; 3; 3; 3; 2]%nat.
Proof. vm_compute. reflexivity. Qed.

(** C4. On the single variable [databaseUrl] every run of [Convention]
    returns exactly one issue.  Its recommendations are the two of the mixed
    case and the two of the camel case, the last one being the suggestion
    computed from the key by [convertCamelToSnake] and upper-casing,
    [Try: DATABASE_URL]; so one of its recommendations contains
    [DATABASE_URL].  On the single variable [DATABASE_URL] every run returns
    no issue. *)
Theorem Convention_databaseUrl (value file : string) (line : Z) :
  (forall out,
     @rules.Convention_returns1 ascii_case
        (env.mkVar "databaseUrl" value line) file out ->
     exists issue, out = [issue] /\
       Key issue = "databaseUrl" /\
       Recommendations issue
       = ["Use consistent UPPER_SNAKE_CASE";
          "Try: " +:+ @ToUpper ascii_case "databaseUrl";
          "Convert camelCase to UPPER_SNAKE_CASE";
          "Try: " +:+ @ToUpper ascii_case
                        (@rules.convertCamelToSnake ascii_case "databaseUrl")] /\
       @rules.convertCamelToSnake ascii_case "databaseUrl" = "database_url" /\
       "Try: " +:+ @ToUpper ascii_case
                     (@rules.convertCamelToSnake ascii_case "databaseUrl")
       = "Try: DATABASE_URL" /\
       exists r, r ∈ Recommendations issue /\ Contains r "DATABASE_URL" = true) /\
  (forall out,
     @rules.Convention_returns1 ascii_case
        (env.mkVar "DATABASE_URL" value line) file out ->
     out = []).
Proof.
  split; intros out (abbrevs & Hperm & ->);
    unfold rules.Convention_in, rules.Convention_var;
    cbn [omap list_omap env.Key];
    rewrite abbreviation_loop_skip
      by (rewrite Hperm; repeat constructor).
  - eexists. split; [vm_compute; reflexivity|]. split; [reflexivity|].
    split; [vm_compute; reflexivity|]. split; [vm_compute; reflexivity|].
    split; [vm_compute; reflexivity|].
    exists "Try: DATABASE_URL". split; [|vm_compute; reflexivity].
    cbn [Recommendations NewIssue]. set_solver.
  - vm_compute. reflexivity.
Qed.

(** The run of [Convention] that ranges over the abbreviations in the order
    of the source. *)
Lemma Convention_databaseUrl_witness :
  @rules.Convention ascii_case [env.mkVar "DATABASE_URL" "postgres://db" 1]
     ".env" = [].
Proof.
  apply (proj2 (Convention_databaseUrl "postgres://db" ".env" 1)).
  exists rules.abbreviationSuggestions. split; [apply Permutation_refl|].
  reflexivity.
Defined.

(** ** Strings, continued *)

Section contains_facts.

Lemma Contains_cons (c : ascii) (s sub : string) :
  Contains (String c s) sub = HasPrefix (String c s) sub || Contains s sub.
Proof.
  unfold Contains. cbn [Index].
  destruct (HasPrefix (String c s) sub); [done|].
  by destruct (Index s sub).
Qed.

Lemma HasPrefix_app (s t prefix : string) :
  HasPrefix s prefix = true -> HasPrefix (s +:+ t) prefix = true.
Proof.
  revert s; induction prefix as [|a prefix IH]; intros [|b s]; try done.
  change (String b s +:+ t) with (String b (s +:+ t)). cbn [HasPrefix].
  intros [-> Hp]%andb_prop. by rewrite (IH _ Hp).
Qed.

Lemma Contains_app_l (s t sub : string) :
  Contains s sub = true -> Contains (s +:+ t) sub = true.
Proof.
  induction s as [|c s IH].
  - unfold Contains at 1. cbn [Index].
    destruct (HasPrefix "" sub) eqn:Hp; [|discriminate]. intros _.
    destruct sub; [|discriminate]. unfold Contains. by destruct t.
  - rewrite Contains_cons.
    change (String c s +:+ t) with (String c (s +:+ t)).
    rewrite Contains_cons.
    intros [Hp|Hc]%orb_prop; apply orb_true_iff.
    + left. by apply (HasPrefix_app (String c s) t).
    + right. by apply IH.
Qed.

Lemma Contains_app_r (s t sub : string) :
  Contains t sub = true -> Contains (s +:+ t) sub = true.
Proof.
  intros Ht. induction s as [|c s IH]; [done|].
  change (String c s +:+ t) with (String c (s +:+ t)).
  rewrite Contains_cons, IH. apply orb_true_r.
Qed.

Lemma length_app_string (s t : string) :
  String.length (s +:+ t) = (String.length s + String.length t)%nat.
Proof.
  induction s as [|c s IH]; [done|].
  change (String c s +:+ t) with (String c (s +:+ t)). cbn. by rewrite IH.
Qed.

End contains_facts.

(** ** The confidence heuristic *)

Section confidence_facts.
Context `{CaseTables}.
Import scan.

Lemma common_loop_once (varName : string) (commons : list string)
    (confidence : float) :
  common_loop varName commons confidence
  = if existsb (fun common => Contains (ToUpper varName) common) commons
    then (confidence + 0.2)%float else confidence.
Proof.
  induction commons as [|common commons IH]; cbn [common_loop existsb]; [done|].
  by destruct (Contains (ToUpper varName) common).
Qed.

(** [calculateConfidence] as a function of its five tests. *)
Lemma calculateConfidence_tests varName line pattern :
  calculateConfidence varName line pattern
  = confidence_formula (allCaps varName) (hasUnderscore varName)
      (veryShort varName) (commonName varName) (envContext line).
Proof.
  unfold calculateConfidence. rewrite common_loop_once. fold (commonName varName).
  destruct (allCaps varName), (hasUnderscore varName), (veryShort varName),
    (commonName varName), (envContext line); vm_compute; reflexivity.
Qed.

Lemma confidence_formula_range (b1 b2 b3 b4 b5 : bool) :
  (0.0 <=? confidence_formula b1 b2 b3 b4 b5)%float = true /\
  (confidence_formula b1 b2 b3 b4 b5 <=? 1.0)%float = true.
Proof. destruct b1, b2, b3, b4, b5; vm_compute; split; reflexivity. Qed.

(** The formula does not decrease when a bonus is gained or the penalty is
    lost. *)
Lemma confidence_formula_mono (b1 b2 b3 b4 b5 c1 c4 : bool) :
  (b1 = true -> c1 = true) -> (b4 = true -> c4 = true) ->
  (confidence_formula b1 b2 b3 b4 b5
   <=? confidence_formula c1 true false c4 b5)%float = true.
Proof.
  intros H1 H4.
  destruct b1; [rewrite H1 by done|]; (destruct b4; [rewrite H4 by done|]);
    destruct b2, b3, b5; try destruct c1; try destruct c4;
    vm_compute; reflexivity.
Qed.

End confidence_facts.

(** C5. For every candidate name, source line and pattern, the computed
    confidence is 0.5, plus 0.3 if the name is its own upper-casing and longer
    than one byte, plus 0.2 if the name contains an underscore, minus 0.3 if
    the name has at most two bytes, plus 0.2, once, if the upper-cased name
    contains one of the ten common names, plus 0.2 if the lower-cased line
    contains one of the five markers, the sum (in binary64, from the left)
    clamped; and the result lies between 0 and 1. *)
Theorem calculateConfidence_formula `{CaseTables} (varName line : string)
    (pattern : scan.VariablePattern) :
  scan.calculateConfidence varName line pattern
  = confidence_formula
      (String.eqb (ToUpper varName) varName && (1 <? String.length varName)%nat)
      (Contains varName "_")
      (String.length varName <=? 2)%nat
      (existsb (fun common => Contains (ToUpper varName) common)
         ["PORT"; "HOST"; "DATABASE_URL"; "API_KEY"; "SECRET_KEY";
          "NODE_ENV"; "ENVIRONMENT"; "DEBUG"; "LOG_LEVEL"; "TIMEOUT"])
      (existsb (fun marker => Contains (ToLower line) marker)
         ["process.env"; "os.getenv"; "os.environ"; "$env:"; "${"]) /\
  (0.0 <=? scan.calculateConfidence varName line pattern)%float = true /\
  (scan.calculateConfidence varName line pattern <=? 1.0)%float = true.
Proof.
  rewrite calculateConfidence_tests. split; [|apply confidence_formula_range].
  f_equal. unfold scan.envContext. cbn [existsb].
  by rewrite orb_false_r, !orb_assoc.
Qed.

(** [DB] read through [os.Getenv]: 0.5 + 0.3 - 0.3 + 0.2. *)
Lemma calculateConfidence_formula_witness :
  @scan.calculateConfidence ascii_case "DB" "db := os.Getenv('DB')"
     getenv_pattern
  = confidence_formula true false true false true.
Proof.
  rewrite (proj1 (@calculateConfidence_formula ascii_case "DB"
                    "db := os.Getenv('DB')" getenv_pattern)).
  vm_compute. reflexivity.
Defined.

(** C6. Appending [_KEY] to a candidate name, the line and the pattern being
    the same, never gives a smaller confidence. *)
Theorem calculateConfidence_KEY_monotone `{CaseTables} (varName line : string)
    (pattern : scan.VariablePattern) :
  (scan.calculateConfidence varName line pattern
   <=? scan.calculateConfidence (varName +:+ "_KEY") line pattern)%float = true.
Proof.
  rewrite !calculateConfidence_tests.
  assert (Hupper : ToUpper (varName +:+ "_KEY") = ToUpper varName +:+ "_KEY")
    by (by rewrite ToUpper_ascii_suffix).
  assert (scan.hasUnderscore (varName +:+ "_KEY") = true) as ->
    by (by apply Contains_app_r).
  assert (scan.veryShort (varName +:+ "_KEY") = false) as ->.
  { unfold scan.veryShort. rewrite length_app_string. cbn.
    apply Nat.leb_gt. lia. }
  apply confidence_formula_mono.
  - unfold scan.allCaps. rewrite Hupper, length_app_string.
    intros [->%String.eqb_eq _]%andb_prop.
    rewrite String.eqb_refl. apply Nat.ltb_lt. cbn [String.length]. lia.
  - unfold commonName. rewrite Hupper, !existsb_exists.
    intros (common & Hin & Hc). exists common. split; [done|].
    by apply Contains_app_l.
Qed.

(** From [API] to [API_KEY]. *)
Lemma calculateConfidence_KEY_monotone_witness :
  (@scan.calculateConfidence ascii_case "API" "key := os.Getenv('API')"
      getenv_pattern
   <=? @scan.calculateConfidence ascii_case "API_KEY"
         "key := os.Getenv('API')" getenv_pattern)%float = true.
Proof.
  exact (@calculateConfidence_KEY_monotone ascii_case "API"
           "key := os.Getenv('API')" getenv_pattern).
Defined.


(** ** The confidence aggregator *)

Section aggregator_facts.
Import scan.

Lemma required_spec (minConfidence : float) (minUsages : Z)
    (usages : list UsageResult) :
  required minConfidence minUsages usages = true
  <-> (minUsages <= Z.of_nat (length usages))%Z
      /\ (minConfidence <=? avgConfidence usages)%float = true.
Proof.
  unfold required. destruct (Z.ltb_spec (Z.of_nat (length usages)) minUsages).
  - split; [discriminate|]. intros [? _]. lia.
  - split; [intros ->; split; [lia|done]|by intros [_ ->]].
Qed.

Lemma GetRequiredVariables_elem (sr : ScanResult) (minConfidence : float)
    (minUsages : Z) (name : string) :
  name ∈ GetRequiredVariables sr minConfidence minUsages
  <-> exists usages, Variables sr !! name = Some usages
        /\ required minConfidence minUsages usages = true.
Proof.
  unfold GetRequiredVariables. rewrite list_elem_of_fmap. split.
  - intros ([k usages] & -> & [Hreq Hin%elem_of_map_to_list]%list_elem_of_filter).
    by exists usages.
  - intros (usages & Hlook & Hreq). exists (name, usages). split; [done|].
    apply list_elem_of_filter. split; [done|]. by apply elem_of_map_to_list.
Qed.

Lemma GetRequiredVariables_NoDup (sr : ScanResult) (minConfidence : float)
    (minUsages : Z) :
  NoDup (GetRequiredVariables sr minConfidence minUsages).
Proof.
  unfold GetRequiredVariables.
  eapply sublist_NoDup; [apply (NoDup_fst_map_to_list (Variables sr))|].
  apply fmap_sublist, sublist_filter.
Qed.

End aggregator_facts.



(** ** The project scanner *)

Section walk_facts.
Import scan.

Context {S : Type} (walkFn : string -> visit -> S -> S * walk_ret).

(** An invariant of the state that the function preserves is preserved by
    the walk. *)
Lemma walk_preserves (P : S -> Prop) :
  (forall path v st, P st -> P (walkFn path v st).1) ->
  forall e path st, P st -> P (walk walkFn path e st).1.
Proof.
  intros Hfn e.
  induction e as [err| |err|names IH] using entry_ind';
    intros path st Hst; cbn [walk]; try by apply Hfn.
  pose proof (Hfn path VisitDir st Hst) as Hst1.
  destruct (walkFn path VisitDir st) as [st1 err1]. cbn [fst] in Hst1.
  destruct err1; try done.
  clear Hst. revert st1 Hst1.
  induction names as [|[filename child] names IHnames]; intros st2 Hst2; [done|].
  assert (Hchild : forall path st, P st -> P (walk walkFn path child st).1)
    by (apply (IH filename child); by left).
  assert (Hrest : forall st, P st ->
            P ((fix walk_names (names : list (string * entry)) (st : S)
                  : S * walk_ret :=
                  match names with
                  | [] => (st, WalkNil)
                  | (filename, child) :: names' =>
                      match child with
                      | Unreachable err =>
                          let '(st', r) := walkFn filename (VisitError err) st in
                          match r with
                          | WalkErr _ => (st', r)
                          | _ => walk_names names' st'
                          end
                      | _ =>
                          let '(st', r) := walk walkFn filename child st in
                          match r, child with
                          | WalkNil, _ => walk_names names' st'
                          | WalkSkipDir, DirEntry _ => walk_names names' st'
                          | _, _ => (st', r)
                          end
                      end
                  end) names st).1).
  { intros st' Hst'. apply IHnames; [|done].
    intros f c Hin. apply (IH f c). by right. }
  destruct child as [err| |listing].
  - pose proof (Hfn filename (VisitError err) st2 Hst2) as Hst'.
    destruct (walkFn filename (VisitError err) st2) as [st' r].
    destruct r; try done; by apply Hrest.
  - pose proof (Hchild filename st2 Hst2) as Hst'.
    destruct (walk walkFn filename FileEntry st2) as [st' r].
    destruct r; try done; by apply Hrest.
  - pose proof (Hchild filename st2 Hst2) as Hst'.
    destruct (walk walkFn filename (DirEntry listing) st2) as [st' r].
    destruct r; try done; by apply Hrest.
Qed.

(** A function that returns no error, and [SkipDir] on directories only,
    makes the walk return no error. *)
Lemma walk_no_error :
  (forall path v st, match (walkFn path v st).2 with
                     | WalkErr _ => False
                     | WalkSkipDir => v = VisitDir
                     | WalkNil => True
                     end) ->
  forall e path st, match (walk walkFn path e st).2 with
                    | WalkErr _ => False
                    | WalkSkipDir => exists listing, e = DirEntry listing
                    | WalkNil => True
                    end.
Proof.
  intros Hfn e.
  induction e as [err| |err|names IH] using entry_ind';
    intros path st; cbn [walk].
  - specialize (Hfn path (VisitError err) st).
    by destruct (walkFn path (VisitError err) st) as [? []].
  - specialize (Hfn path VisitFile st).
    by destruct (walkFn path VisitFile st) as [? []].
  - specialize (Hfn path (VisitError err) st).
    by destruct (walkFn path (VisitError err) st) as [? []].
  - pose proof (Hfn path VisitDir st) as Hdir.
    destruct (walkFn path VisitDir st) as [st1 err1]. cbn [snd] in Hdir.
    destruct err1; cbn [snd]; [|by eauto|done].
    clear Hdir.
    enough (Hloop : forall names' st1,
               (forall f c, In (f, c) names' -> In (f, c) names) ->
               match ((fix walk_names (names : list (string * entry)) (st : S)
                         : S * walk_ret :=
                         match names with
                         | [] => (st, WalkNil)
                         | (filename, child) :: names' =>
                             match child with
                             | Unreachable err =>
                                 let '(st', r) :=
                                   walkFn filename (VisitError err) st in
                                 match r with
                                 | WalkErr _ => (st', r)
                                 | _ => walk_names names' st'
                                 end
                             | _ =>
                                 let '(st', r) := walk walkFn filename child st in
                                 match r, child with
                                 | WalkNil, _ => walk_names names' st'
                                 | WalkSkipDir, DirEntry _ => walk_names names' st'
                                 | _, _ => (st', r)
                                 end
                             end
                         end) names' st1).2 with
               | WalkErr _ => False
               | _ => True
               end).
    { specialize (Hloop names st1 (fun _ _ Hin => Hin)).
      destruct (_ names st1) as [? []]; cbn [snd] in *; by eauto. }
    clear st1. intros names'.
    induction names' as [|[filename child] names' IHnames]; intros st1 Hsub;
      [done|].
    assert (Hchild := IH filename child (Hsub _ _ (or_introl eq_refl))
                        filename st1).
    assert (IHn := fun st => IHnames st (fun f c Hin => Hsub f c (or_intror Hin))).
    destruct child as [err| |listing].
    + specialize (Hfn filename (VisitError err) st1).
      destruct (walkFn filename (VisitError err) st1) as [st' []];
        cbn [snd] in *; try done; apply IHn.
    + destruct (walk walkFn filename FileEntry st1) as [st' []];
        cbn [snd] in *;
        first [apply IHn | done].
    + destruct (walk walkFn filename (DirEntry listing) st1) as [st' []];
        cbn [snd] in *; first [apply IHn | done].
Qed.

End walk_facts.

Section scanner_facts.
Context `{CaseTables}.
Import scan.

Lemma foldl_preserves {A B} (P : A -> Prop) (f : A -> B -> A) (l : list B) :
  (forall a b, P a -> P (f a b)) -> forall a, P a -> P (foldl f a l).
Proof. intros Hf. induction l as [|b l IH]; intros a Ha; cbn; auto. Qed.

Lemma bucket_invariant_empty : bucket_invariant ∅.
Proof. intros k usages u Hk. by rewrite lookup_empty in Hk. Qed.

Lemma append_usages_invariant varName usages vars :
  bucket_invariant vars ->
  Forall (fun u => uVariable u = varName) usages ->
  bucket_invariant (append_usages varName usages vars).
Proof.
  intros Hvars Hus k us u. unfold append_usages.
  destruct (decide (varName = k)) as [->|Hne].
  - rewrite lookup_insert_eq. intros [= <-] [Hu|Hu]%elem_of_app.
    + destruct (vars !! k) as [old|] eqn:Hold; cbn in Hu.
      * by apply (Hvars k old).
      * by apply not_elem_of_nil in Hu.
    + by apply (proj1 (Forall_forall _ _) Hus).
  - rewrite lookup_insert_ne by done. apply Hvars.
Qed.

Lemma record_match_invariant filePath lineNum line pattern vars m :
  bucket_invariant vars ->
  bucket_invariant (record_match filePath lineNum line pattern vars m).
Proof.
  intros Hvars. destruct m as [|whole [|varName groups]]; cbn; try done.
  apply append_usages_invariant; [done|]. by apply Forall_singleton.
Qed.

Lemma scan_lines_invariant ps filePath ls : forall lineNum vars,
  bucket_invariant vars ->
  bucket_invariant (scan_lines ps filePath lineNum ls vars).
Proof.
  induction ls as [|line ls IH]; intros lineNum vars Hvars; cbn [scan_lines];
    [done|].
  apply IH. unfold scan_line.
  apply (foldl_preserves bucket_invariant); [|done].
  intros vars' pattern Hvars'.
  apply (foldl_preserves bucket_invariant); [|done].
  intros. by apply record_match_invariant.
Qed.

Lemma scanFile_invariant ps f filePath fileResult :
  scanFile ps f filePath = inr fileResult ->
  bucket_invariant (Variables fileResult).
Proof.
  destruct f as [err|file]; cbn; [discriminate|]. intros [= <-]. cbn.
  apply scan_lines_invariant, bucket_invariant_empty.
Qed.

(** The merge loop, whatever the order in which it ranges over the map of
    the file. *)
Lemma merge_usages_lookup (l : list (string * list UsageResult)) :
  forall vars k,
  NoDup l.*1 ->
  merge_usages l vars !! k
  = match (list_to_map l : gmap string (list UsageResult)) !! k with
    | Some usages => Some (default [] (vars !! k) ++ usages)
    | None => vars !! k
    end.
Proof.
  unfold merge_usages.
  induction l as [|[k0 us0] l IH]; intros vars k Hnd.
  - done.
  - apply NoDup_cons in Hnd as [Hk0 Hnd]. cbn [foldl]. rewrite IH by done.
    rewrite list_to_map_cons. cbn [fst snd]. unfold append_usages.
    destruct (decide (k0 = k)) as [->|Hne].
    + rewrite (not_elem_of_list_to_map_1 l k) by done.
      by rewrite !lookup_insert_eq.
    + by rewrite !lookup_insert_ne.
Qed.

Lemma merge_usages_order (fileVars vars : gmap string (list UsageResult))
    (order : list (string * list UsageResult)) :
  order ≡ₚ map_to_list fileVars ->
  merge_usages order vars = merge_usages (map_to_list fileVars) vars.
Proof.
  intros Hperm. apply map_eq. intros k.
  assert (Hnd : NoDup order.*1)
    by (rewrite Hperm; apply NoDup_fst_map_to_list).
  rewrite !merge_usages_lookup by (done || apply NoDup_fst_map_to_list).
  by rewrite (list_to_map_proper order (map_to_list fileVars)).
Qed.

Lemma merge_usages_invariant (fileVars vars : gmap string (list UsageResult)) :
  bucket_invariant vars -> bucket_invariant fileVars ->
  bucket_invariant (merge_usages (map_to_list fileVars) vars).
Proof.
  intros Hvars Hfile k usages u.
  rewrite merge_usages_lookup by apply NoDup_fst_map_to_list.
  rewrite list_to_map_to_list.
  destruct (fileVars !! k) as [new|] eqn:Hnew; [|apply Hvars].
  intros [= <-] [Hu|Hu]%elem_of_app; [|by apply (Hfile k new)].
  destruct (vars !! k) as [old|] eqn:Hold; cbn in Hu.
  - by apply (Hvars k old).
  - by apply not_elem_of_nil in Hu.
Qed.

Lemma visit_path_invariant ps open path v result :
  bucket_invariant (Variables result) ->
  bucket_invariant (Variables (visit_path ps open path v result).1).
Proof.
  intros Hres. destruct v; cbn [visit_path]; [done| |].
  - by destruct (existsb _ _).
  - destruct (negb _); [done|].
    destruct (scanFile ps (open path) path) as [err|fileResult] eqn:Hscan;
      [done|]. cbn.
    apply merge_usages_invariant; [done|]. by eapply scanFile_invariant.
Qed.

(** [ScanProject] returns no error: its function returns nil, or [SkipDir]
    on a directory. *)
Lemma ScanProject_no_error ps open tree rootPath :
  (ScanProject ps open tree rootPath).2 = None.
Proof.
  unfold ScanProject, Walk.
  assert (Hfn : forall path v st,
             match (visit_path ps open path v st).2 with
             | WalkErr _ => False
             | WalkSkipDir => v = VisitDir
             | WalkNil => True
             end).
  { intros path v st. destruct v; cbn [visit_path]; [done| |].
    - by destruct (existsb _ _).
    - destruct (negb _); [done|]. by destruct (scanFile _ _ _). }
  pose proof (walk_no_error (visit_path ps open) Hfn tree rootPath
                (mkScanResult ∅ [] [])) as Hwalk.
  destruct (walk _ _ _ _) as [st' r]. cbn [snd] in *. by destruct r.
Qed.

End scanner_facts.

(** C9. Every usage stored under a key of [Variables] is a usage of that
    key: in the result of [scanFile], after the merge of a per-file result
    into a result, in whatever order the merge ranges over the per-file map,
    and in the result of [ScanProject] on every tree. *)
Theorem usages_match_their_bucket `{CaseTables} (ps : scan.ProjectScanner) :
  (forall (f : Opened) (filePath : string) (fileResult : scan.ScanResult),
      scan.scanFile ps f filePath = inr fileResult ->
      bucket_invariant (scan.Variables fileResult)) /\
  (forall (fileVars vars : gmap string (list scan.UsageResult))
          (order : list (string * list scan.UsageResult)),
      bucket_invariant vars -> bucket_invariant fileVars ->
      order ≡ₚ map_to_list fileVars ->
      bucket_invariant (scan.merge_usages order vars)) /\
  (forall (open : string -> Opened) (tree : scan.entry) (rootPath : string),
      bucket_invariant
        (scan.Variables (scan.ScanProject ps open tree rootPath).1)).
Proof.
  split; [|split].
  - intros f filePath fileResult. apply scanFile_invariant.
  - intros fileVars vars order Hvars Hfile Horder.
    rewrite (merge_usages_order fileVars) by done.
    by apply merge_usages_invariant.
  - intros open tree rootPath. unfold scan.ScanProject, scan.Walk.
    pose proof (walk_preserves (scan.visit_path ps open)
                  (fun st => bucket_invariant (scan.Variables st))) as Hwalk.
    specialize (Hwalk (fun path v st => visit_path_invariant ps open path v st)
                  tree rootPath (scan.mkScanResult ∅ [] [])
                  bucket_invariant_empty).
    by destruct (scan.walk _ _ _ _).
Qed.

(** The invariant on the project of one file. *)
Lemma usages_match_their_bucket_witness :
  bucket_invariant
    (scan.Variables
       (@scan.ScanProject ascii_case scan.NewProjectScanner long_line_open
          long_line_tree ".").1).
Proof.
  apply (proj2 (proj2 (@usages_match_their_bucket ascii_case
                         scan.NewProjectScanner))).
Defined.

(** C8, the failing input. Reading [app.js] fails after its first line:
    [scanFile] keeps the read error in the [Errors] of its own result and
    returns no error, and [ScanProject] merges the variables and the file
    name of that result but not its errors: the Scan Result of the project
    lists the file as scanned, holds the usage found before the failure, and
    has no error at all. *)
Theorem ScanProject_drops_read_error :
  (exists fileResult,
      @scan.scanFile ascii_case scan.NewProjectScanner (long_line_open "app.js")
         "app.js" = inr fileResult
      /\ scan.Errors fileResult = [ErrIO "bufio.Scanner: token too long"]) /\
  let result := @scan.ScanProject ascii_case scan.NewProjectScanner
                   long_line_open long_line_tree "." in
  scan.Errors result.1 = [] /\
  scan.Files result.1 = ["app.js"] /\
  result.2 = None /\
  exists usage, scan.Variables result.1 !! "PORT" = Some [usage]
                /\ scan.uFile usage = "app.js".
Proof.
  split.
  - eexists. split; [reflexivity|]. vm_compute. reflexivity.
  - cbv zeta. repeat split; try (vm_compute; reflexivity).
    eexists. split; vm_compute; reflexivity.
Qed.

(** * Further properties *)

(** ** The line parser, continued *)

Section parser_more_facts.
Import parse.

Lemma Index_None_Contains (s sep : string) :
  Contains s sep = false -> Index s sep = None.
Proof. unfold Contains. by destruct (Index s sep). Qed.

(** Splitting in at most two at a separator that does not occur gives the
    string itself. *)
Lemma SplitN_2_absent (s sep : string) :
  sep <> EmptyString -> Contains s sep = false -> SplitN s sep 2 = [s].
Proof.
  intros Hsep Hno%Index_None_Contains. unfold SplitN.
  cbn [Z.eqb Z.ltb Z.compare].
  destruct (String.eqb_spec sep EmptyString) as [->|_]; [congruence|].
  change (Z.to_nat 2) with 2%nat.
  destruct (Nat.min 2 (String.length s + 1) - 1)%nat; cbn [split_loop]; [done|].
  by rewrite Hno.
Qed.

Lemma parsed_upto_mono filename n m st :
  (n <= m)%Z -> parsed_upto filename n st -> parsed_upto filename m st.
Proof.
  intros Hnm [Hk Hs Hi His]. split; [|done| |done].
  - eapply Forall_impl; [exact Hk|]. cbn. intros v [? ?]. split; [done|lia].
  - eapply Forall_impl; [exact Hi|]. cbn. intros i (? & ? & ?).
    repeat split; [done|lia|lia|done].
Qed.

Lemma parsed_upto_add_issue filename n st name key recs :
  (1 <= n)%Z -> parsed_upto filename n st ->
  parsed_upto filename n (add_issue (NewIssue name key filename n n recs) st).
Proof.
  intros Hn [Hk Hs Hi His]. split; cbn [add_issue Vars IssueList]; [done|done| |].
  - apply Forall_app. split; [done|]. apply Forall_singleton. cbn.
    repeat split; [lia..|done].
  - rewrite fmap_app. apply StronglySorted_app_2; [|done|].
    + intros x1 x2 (i & -> & Hin)%list_elem_of_fmap ->%list_elem_of_singleton.
      cbn. apply (proj1 (Forall_forall _ _) Hi) in Hin. lia.
    + repeat constructor.
Qed.

Lemma parsed_upto_add_var filename n st key value :
  (1 <= n)%Z -> key <> "" ->
  Forall (fun v => env.Key v <> "" /\ (1 <= env.Line v <= n - 1)%Z) (Vars st) ->
  StronglySorted Z.lt (env.Line <$> Vars st) ->
  Forall (fun i => FirstLine i = Line i /\ (1 <= Line i <= n)%Z
                   /\ issues.File i = filename) (IssueList st) ->
  StronglySorted Z.le (Line <$> IssueList st) ->
  parsed_upto filename n (add_var (env.mkVar key value n) st).
Proof.
  intros Hn Hkey Hk Hs Hi His.
  split; cbn [add_var Vars IssueList]; [| |done|done].
  - apply Forall_app. split.
    + eapply Forall_impl; [exact Hk|]. cbn. intros v [? ?]. split; [done|lia].
    + apply Forall_singleton. cbn. split; [done|lia].
  - rewrite fmap_app. apply StronglySorted_app_2; [|done|].
    + intros x1 x2 (v & -> & Hin)%list_elem_of_fmap ->%list_elem_of_singleton.
      cbn. apply (proj1 (Forall_forall _ _) Hk) in Hin. lia.
    + repeat constructor.
Qed.

Lemma parseLine_parsed_upto filename n line st :
  (0 <= n)%Z -> parsed_upto filename n st ->
  parsed_upto filename (n + 1) (parseLine filename (n + 1) line st).
Proof.
  intros Hn Hst.
  assert (Hst' : parsed_upto filename (n + 1) st)
    by (eapply parsed_upto_mono; [|exact Hst]; lia).
  unfold parseLine.
  destruct (_ || _); [done|].
  destruct (negb _); [apply parsed_upto_add_issue; [lia|done]|].
  destruct (SplitN _ _ _) as [|part0 [|part1 [|? ?]]];
    try (apply parsed_upto_add_issue; [lia|done]).
  destruct (String.eqb_spec (TrimSpace part0) "") as [|Hkey];
    [apply parsed_upto_add_issue; [lia|done]|].
  assert (Hmid : forall st1, parsed_upto filename (n + 1) st1 ->
                   Vars st1 = Vars st ->
                   parsed_upto filename (n + 1)
                     (add_var (env.mkVar (TrimSpace part0) (TrimSpace part1) (n + 1))
                        st1)).
  { intros st1 Hst1 Hvars. destruct Hst as [Hk Hs _ _].
    apply parsed_upto_add_var; rewrite ?Hvars; try apply Hst1; try done;
      try lia.
    by replace (n + 1 - 1)%Z with n by lia. }
  assert (Hvalue : forall st1, parsed_upto filename (n + 1) st1 ->
                     Vars st1 = Vars st ->
                     parsed_upto filename (n + 1)
                       (add_var (env.mkVar (TrimSpace part0) (TrimSpace part1)
                                   (n + 1))
                          (if String.eqb (TrimSpace part1) ""
                           then add_issue
                                  (NewIssue "empty value" (TrimSpace part0)
                                     filename (n + 1) (n + 1)
                                     ["Consider if this variable should have a default value";
                                      "Use quotes for intentionally empty strings: KEY="
                                        +:+ dquote +:+ dquote;
                                      "Document why this value is empty"]) st1
                           else st1))).
  { intros st1 Hst1 Hvars. destruct (String.eqb _ _); [|by apply Hmid].
    apply Hmid; [apply parsed_upto_add_issue; [lia|done]|done]. }
  destruct (_ || _); apply Hvalue; try done.
  apply parsed_upto_add_issue; [lia|done].
Qed.

Lemma scanLines_parsed_upto filename ls : forall n st,
  (0 <= n)%Z -> parsed_upto filename n st ->
  parsed_upto filename (n + Z.of_nat (length ls)) (scanLines filename n ls st).
Proof.
  induction ls as [|line ls IH]; intros n st Hn Hst; cbn [scanLines length].
  - by replace (n + Z.of_nat 0)%Z with n by lia.
  - replace (n + Z.of_nat (S (length ls)))%Z
      with (n + 1 + Z.of_nat (length ls))%Z by lia.
    apply IH; [lia|]. by apply parseLine_parsed_upto.
Qed.

Lemma scanLines_length_Vars filename ls : forall n st,
  (length (Vars (scanLines filename n ls st)) <= length (Vars st) + length ls)%nat.
Proof.
  induction ls as [|line ls IH]; intros n st; cbn [scanLines length]; [lia|].
  etrans; [apply IH|].
  enough (length (Vars (parseLine filename (n + 1) line st))
          <= length (Vars st) + 1)%nat by lia.
  unfold parseLine.
  repeat match goal with
         | |- context [if ?b then _ else _] => destruct b
         | |- context [match SplitN ?a ?b ?c with _ => _ end] =>
             destruct (SplitN a b c) as [|? [|? [|? ?]]]
         end;
    cbn [add_issue add_var Vars]; rewrite ?length_app; cbn; lia.
Qed.

End parser_more_facts.

(** X1. Whatever the file, when [ParseWithIssues] succeeds the file was
    opened and read to its end, every variable has a non-empty key and the
    number of a line of the file, the variables come in increasing order of
    line, one per line at most, and every issue of the parser is about one
    line of the file (first line = last line), under the name of the file,
    in the order of the lines. *)
Theorem ParseWithIssues_well_formed (f : Opened) (filename : string)
    (result : parse.EnhancedResult) :
  parse.ParseWithIssues f filename = inr result ->
  exists file, f = inr file /\ read_err file = None /\
    parsed_upto filename (Z.of_nat (length (lines file))) result /\
    (length (parse.Vars result) <= length (lines file))%nat.
Proof.
  unfold parse.ParseWithIssues. destruct f as [err|file]; [discriminate|].
  destruct (read_err file) eqn:Herr; [discriminate|]. intros [= <-].
  exists file. split; [done|]. split; [done|]. split.
  - apply (scanLines_parsed_upto filename (lines file) 0); [lia|].
    split; cbn; constructor.
  - apply (scanLines_length_Vars filename (lines file) 0 (parse.mkResult [] [])).
Qed.

(** A fourth line that defines [PORT] again. *)
Lemma ParseWithIssues_well_formed_witness :
  exists file, (inr two_ports_file : Opened) = inr file /\
    read_err file = None /\
    parsed_upto ".env" (Z.of_nat (length (lines file)))
      (parse.mkResult []
         [env.mkVar "PORT" "8080" 1; env.mkVar "HOST" "h" 2;
          env.mkVar "PORT" "3000" 4]) /\
    (3 <= length (lines file))%nat.
Proof.
  apply (ParseWithIssues_well_formed (inr two_ports_file) ".env").
  vm_compute. reflexivity.
Defined.

(** ** The parser and the rules *)

Section parsed_rules_facts.
Import parse rules.

Lemma ParseWithIssues_parsed_upto f filename result :
  ParseWithIssues f filename = inr result ->
  exists n, parsed_upto filename n result.
Proof.
  unfold ParseWithIssues. destruct f as [err|file]; [discriminate|].
  destruct (read_err file); [discriminate|]. intros [= <-].
  exists (0 + Z.of_nat (length (lines file)))%Z.
  apply scanLines_parsed_upto; [lia|]. split; cbn; constructor.
Qed.

Lemma filter_lines_sorted (P : env.Var -> Prop) `{!forall v, Decision (P v)}
    (vars : list env.Var) :
  StronglySorted Z.lt (env.Line <$> vars) ->
  StronglySorted Z.lt (env.Line <$> filter P vars).
Proof.
  induction vars as [|v vars IH]; [done|].
  cbn [fmap list_fmap]. rewrite StronglySorted_cons, filter_cons.
  intros [Hall Hs]. destruct (decide (P v)); [|by apply IH].
  cbn [fmap list_fmap]. apply StronglySorted_cons. split; [|by apply IH].
  apply Forall_forall.
  intros x (w & -> & [_ Hw]%list_elem_of_filter)%list_elem_of_fmap.
  apply (proj1 (Forall_forall _ _) Hall). by apply list_elem_of_fmap_2.
Qed.

Lemma NoDup_fmap_filter {A} (f : A -> string) (l : list A) :
  (forall k, length (filter (fun x => f x = k) l) <= 1)%nat -> NoDup (f <$> l).
Proof.
  induction l as [|x l IH]; intros Hlen; cbn [fmap list_fmap]; constructor.
  - intros (y & Hxy & Hy)%list_elem_of_fmap.
    specialize (Hlen (f x)). rewrite filter_cons_True in Hlen by done.
    assert (Hin : y ∈ filter (fun z => f z = f x) l)
      by (by apply list_elem_of_filter).
    destruct (filter _ l); [by apply not_elem_of_nil in Hin|cbn in Hlen; lia].
  - apply IH. intros k. specialize (Hlen k). rewrite filter_cons in Hlen.
    destruct (decide (f x = k)); cbn in Hlen; lia.
Qed.

(** The issues of a run of [Duplicate] about one key, on variables in
    increasing order of positive line. *)
Lemma Duplicate_returns_key vars file out k :
  Forall (fun v => (1 <= env.Line v)%Z) vars ->
  Duplicate_returns vars file out ->
  filter (fun i => Key i = k) out
  = match filter (fun v => env.Key v = k) vars with
    | v1 :: v2 :: rest =>
        [NewIssue "duplicate variable" k file (env.Line v1)
           (env.Line (default v2 (last rest))) []]
    | _ => []
    end.
Proof.
  intros Hlines Hout. unfold Duplicate_returns in Hout.
  assert (Hk : filter (fun i => Key i = k) out
               ≡ₚ filter (fun i => Key i = k) (Duplicate vars file))
    by (by rewrite Hout).
  rewrite Duplicate_filter_key, Duplicate_seen_lookup in Hk.
  assert (Hocc : Forall (fun v => (1 <= env.Line v)%Z)
                   (filter (fun v => env.Key v = k) vars)).
  { apply Forall_forall. intros v [_ Hv]%list_elem_of_filter.
    by apply (proj1 (Forall_forall _ _) Hlines). }
  destruct (filter (fun v => env.Key v = k) vars) as [|v1 [|v2 rest]];
    cbn [seen_issue] in Hk.
  - by apply Permutation_nil_r.
  - cbn [last] in Hk. case_decide as Hn;
      [exfalso; apply Hn; reflexivity|by apply Permutation_nil_r].
  - assert (Hlast : last (v2 :: rest) = Some (default v2 (last rest)))
      by (rewrite last_cons; by destruct (last rest)).
    rewrite Hlast in Hk.
    assert (1 <= env.Line (default v2 (last rest)))%Z.
    { apply (proj1 (Forall_forall _ _) Hocc). right.
      by apply last_Some_elem_of. }
    case_decide as Hn; [by apply Permutation_singleton_r|]. cbn in Hn. lia.
Qed.

End parsed_rules_facts.

(** X2. On the variables of any file that [ParseWithIssues] parsed, every
    run of [Duplicate] reports exactly the keys defined more than once, each
    once, and every issue spans a true range: its first line is at least 1
    and strictly below its last line; it carries the file name and no
    recommendation. *)
Theorem Duplicate_on_parsed_file (f : Opened) (filename : string)
    (result : parse.EnhancedResult) (out : list Issue) :
  parse.ParseWithIssues f filename = inr result ->
  rules.Duplicate_returns (parse.Vars result) filename out ->
  NoDup (Key <$> out) /\
  (forall k : string,
      k ∈ Key <$> out <->
      (1 < length (filter (fun v => env.Key v = k) (parse.Vars result)))%nat) /\
  Forall (fun i => (1 <= FirstLine i < Line i)%Z /\ File i = filename
                   /\ Name i = "duplicate variable" /\ Recommendations i = [])
         out.
Proof.
  intros [n [Hk Hs _ _]]%ParseWithIssues_parsed_upto Hout.
  assert (Hlines : Forall (fun v => (1 <= env.Line v)%Z) (parse.Vars result)).
  { eapply Forall_impl; [exact Hk|]. cbn. intros v [_ ?]. lia. }
  pose proof (fun k => Duplicate_returns_key _ _ _ k Hlines Hout) as Hkey.
  split; [|split].
  - apply NoDup_fmap_filter. intros k. rewrite Hkey.
    destruct (filter _ (parse.Vars result)) as [|v1 [|v2 rest]]; cbn; lia.
  - intros k. rewrite list_elem_of_fmap. specialize (Hkey k). split.
    + intros (i & -> & Hi).
      assert (Hin : i ∈ filter (fun j => Key j = Key i) out)
        by (by apply list_elem_of_filter).
      rewrite Hkey in Hin.
      destruct (filter _ (parse.Vars result)) as [|v1 [|v2 rest]];
        [by apply not_elem_of_nil in Hin..|cbn; lia].
    + intros Hlen.
      destruct (filter _ (parse.Vars result)) as [|v1 [|v2 rest]];
        cbn in Hlen; try lia.
      eexists. split; [|eapply (proj1 (list_elem_of_filter _ _ _)); rewrite Hkey; left].
      reflexivity.
  - apply Forall_forall. intros i Hi.
    assert (Hin : i ∈ filter (fun j => Key j = Key i) out)
      by (by apply list_elem_of_filter).
    rewrite Hkey in Hin.
    pose proof (filter_lines_sorted (fun v => env.Key v = Key i) _ Hs) as Hsorted.
    assert (Hocc : Forall (fun v => (1 <= env.Line v)%Z)
                     (filter (fun v => env.Key v = Key i) (parse.Vars result))).
    { apply Forall_forall. intros v [_ Hv]%list_elem_of_filter.
      by apply (proj1 (Forall_forall _ _) Hlines). }
    destruct (filter _ (parse.Vars result)) as [|v1 [|v2 rest]];
      [by apply not_elem_of_nil in Hin..|].
    apply list_elem_of_singleton in Hin as ->. cbn.
    repeat split; try done.
    + by apply Forall_cons in Hocc as [? _].
    + cbn [fmap list_fmap] in Hsorted.
      apply StronglySorted_cons in Hsorted as [Hall _].
      apply (proj1 (Forall_forall _ _) Hall).
      apply (list_elem_of_fmap_2 env.Line (v2 :: rest)), last_Some_elem_of.
      rewrite last_cons. by destruct (last rest).
Qed.

(** [PORT] on lines 1 and 4 of a file. *)
Lemma Duplicate_on_parsed_file_witness :
  Forall (fun i => (1 <= FirstLine i < Line i)%Z /\ File i = ".env"
                   /\ Name i = "duplicate variable" /\ Recommendations i = [])
    (rules.Duplicate [env.mkVar "PORT" "8080" 1; env.mkVar "HOST" "h" 2;
                      env.mkVar "PORT" "3000" 4] ".env").
Proof.
  apply (Duplicate_on_parsed_file (inr two_ports_file) ".env"
           (parse.mkResult []
              [env.mkVar "PORT" "8080" 1; env.mkVar "HOST" "h" 2;
               env.mkVar "PORT" "3000" 4])).
  - vm_compute. reflexivity.
  - apply Permutation_refl.
Defined.

(** ** The two parsers *)

Section two_parsers_facts.

Lemma parser_parseLine_acc lineNum line vars :
  parser.parseLine lineNum line vars = vars ++ parser.parseLine lineNum line [].
Proof.
  unfold parser.parseLine. destruct (_ || _); [by rewrite app_nil_r|].
  destruct (SplitN _ _ _) as [|part0 [|part1 [|? ?]]]; by rewrite ?app_nil_r.
Qed.

Lemma parser_scanLines_acc ls : forall lineNum vars,
  parser.scanLines lineNum ls vars = vars ++ parser.scanLines lineNum ls [].
Proof.
  induction ls as [|line ls IH]; intros lineNum vars; cbn [parser.scanLines].
  - by rewrite app_nil_r.
  - rewrite IH, (IH _ (parser.parseLine _ _ [])), parser_parseLine_acc.
    by rewrite app_assoc.
Qed.

Lemma parseLine_parser_parseLine filename lineNum line st :
  parse.Vars (parse.parseLine filename lineNum line st)
  = parse.Vars st
    ++ filter (fun v => env.Key v <> "") (parser.parseLine lineNum line []).
Proof.
  unfold parse.parseLine, parser.parseLine.
  destruct (_ || _); [by rewrite app_nil_r|].
  destruct (Contains (TrimSpace line) "=") eqn:Heq; cbn [negb].
  - destruct (SplitN_2_present (TrimSpace line) "=") as (p0 & p1 & ->);
      [discriminate|assumption|].
    cbn [app]. rewrite filter_cons, filter_nil. cbn [env.Key].
    destruct (String.eqb_spec (TrimSpace p0) "") as [Hkey|Hkey].
    + rewrite decide_False by (intros Hn; by apply Hn).
      by rewrite app_nil_r.
    + rewrite decide_True by done.
      by repeat match goal with
                | |- context [if ?b then _ else _] => destruct b
                end.
  - rewrite SplitN_2_absent by done. by rewrite app_nil_r.
Qed.

Lemma scanLines_parser_scanLines filename ls : forall lineNum st,
  parse.Vars (parse.scanLines filename lineNum ls st)
  = parse.Vars st
    ++ filter (fun v => env.Key v <> "") (parser.scanLines lineNum ls []).
Proof.
  induction ls as [|line ls IH]; intros lineNum st;
    cbn [parse.scanLines parser.scanLines].
  - by rewrite app_nil_r.
  - rewrite IH, parseLine_parser_parseLine.
    rewrite (parser_scanLines_acc ls _ (parser.parseLine _ _ [])), filter_app.
    by rewrite app_assoc.
Qed.

End two_parsers_facts.

(** X3. The two parsers agree up to empty keys: on every file,
    [EnhancedParser.Parse] fails exactly when [Parser.parseFile] fails, with
    the same error, and otherwise returns the variables of
    [Parser.parseFile] without those whose key is empty. *)
Theorem Parse_refines_parseFile (f : Opened) (filename : string) :
  parse.Parse f filename
  = match parser.parseFile f with
    | inl err => inl err
    | inr vars => inr (filter (fun v => env.Key v <> "") vars)
    end.
Proof.
  unfold parse.Parse, parse.ParseWithIssues, parser.parseFile.
  destruct f as [err|file]; [done|].
  destruct (read_err file); [done|].
  by rewrite scanLines_parser_scanLines.
Qed.

(** ** The rules [Missing] and [EmptyValues] *)

Section more_rules_facts.
Import rules_more.

Lemma existing_keys_lookup (vars : list env.Var) (k : string) :
  default false (existing_keys vars !! k)
  = bool_decide (k ∈ env.Key <$> vars).
Proof.
  unfold existing_keys.
  induction vars as [|v vars IH] using rev_ind.
  - cbn. rewrite lookup_empty. cbn. symmetry. apply bool_decide_eq_false.
    apply not_elem_of_nil.
  - rewrite foldl_snoc, fmap_snoc.
    destruct (decide (env.Key v = k)) as [<-|Hne].
    + rewrite lookup_insert_eq. cbn. symmetry. apply bool_decide_eq_true.
      apply elem_of_app. right. by left.
    + rewrite lookup_insert_ne, IH by done.
      apply bool_decide_ext. rewrite elem_of_app, list_elem_of_singleton.
      split; [by left|]. by intros [?| ->].
Qed.

Lemma EmptyValues_filter (vars : list env.Var) (file : string) :
  EmptyValues vars file
  = (fun v => NewIssue "empty variable" (env.Key v) file (env.Line v) 0
                ["Add the variable value to your .env file"])
      <$> filter (fun v => env.Value v = "") vars.
Proof.
  unfold EmptyValues.
  induction vars as [|v vars IH] using rev_ind; [done|].
  rewrite foldl_snoc, filter_app, fmap_app, IH, filter_cons, filter_nil.
  destruct (String.eqb_spec (env.Value v) "") as [Hv|Hv]; cbn [negb].
  - by rewrite decide_True by done.
  - rewrite decide_False by done. by rewrite app_nil_r.
Qed.

Lemma add_other_issue_agree st name key file fl ll recs :
  name <> "empty value" -> empty_values_agree st ->
  empty_values_agree (parse.add_issue (NewIssue name key file fl ll recs) st).
Proof.
  unfold empty_values_agree. intros Hname Hst.
  cbn [parse.add_issue parse.IssueList parse.Vars].
  rewrite filter_app, filter_cons, filter_nil.
  rewrite decide_False by done. by rewrite app_nil_r.
Qed.

Lemma parseLine_empty_values_agree filename lineNum line st :
  empty_values_agree st ->
  empty_values_agree (parse.parseLine filename lineNum line st).
Proof.
  intros Hst. unfold parse.parseLine.
  destruct (_ || _); [done|].
  destruct (negb _); [by apply add_other_issue_agree|].
  destruct (SplitN _ _ _) as [|part0 [|part1 [|? ?]]];
    try by apply add_other_issue_agree.
  destruct (String.eqb (TrimSpace part0) "");
    [by apply add_other_issue_agree|].
  set (st1 := if _ || _ then _ else st).
  assert (Hst1 : empty_values_agree st1)
    by (subst st1; destruct (_ || _); [by apply add_other_issue_agree|done]).
  clearbody st1. revert Hst1. unfold empty_values_agree.
  destruct (String.eqb_spec (TrimSpace part1) "") as [Hv|Hv];
    cbn [parse.add_issue parse.add_var parse.IssueList parse.Vars];
    intros Hst1; rewrite !filter_app, !filter_cons, !filter_nil; cbn [env.Value].
  - rewrite !decide_True by done. rewrite !fmap_app, Hst1. by rewrite Hv.
  - rewrite decide_False by done. by rewrite app_nil_r.
Qed.

Lemma scanLines_empty_values_agree filename ls : forall lineNum st,
  empty_values_agree st ->
  empty_values_agree (parse.scanLines filename lineNum ls st).
Proof.
  induction ls as [|line ls IH]; intros lineNum st Hst; cbn [parse.scanLines];
    [done|].
  by apply IH, parseLine_empty_values_agree.
Qed.

End more_rules_facts.

(** X4. [Missing] returns, in the order of the required list and with its
    repetitions, one issue (at lines 0 and 0) for each required name that
    is not a key of the file, and nothing else; the values and the lines of
    the file play no part. *)
Theorem Missing_exact (requiredVars : list string) (vars : list env.Var)
    (file : string) :
  rules_more.Missing requiredVars vars file
  = (fun required => NewIssue "missing required variable" required file 0 0
                       rules_more.missing_recs)
      <$> filter (fun required => required ∉ env.Key <$> vars) requiredVars.
Proof.
  unfold rules_more.Missing.
  induction requiredVars as [|required requiredVars IH] using rev_ind; [done|].
  rewrite foldl_snoc, filter_app, fmap_app, IH, filter_cons, filter_nil.
  rewrite existing_keys_lookup.
  destruct (decide (required ∈ env.Key <$> vars)) as [Hin|Hin].
  - rewrite bool_decide_eq_true_2 by done. cbn [negb].
    rewrite decide_False by (intros Hn; by apply Hn). by rewrite app_nil_r.
  - rewrite bool_decide_eq_false_2 by done. cbn [negb].
    by rewrite decide_True by done.
Qed.

(** X5. On the variables of any file that [ParseWithIssues] parsed, the
    rule [EmptyValues] reports the same keys on the same lines, in the same
    order, as the [empty value] issues of the parser: each empty value is
    reported twice when the rule is enabled. *)
Theorem EmptyValues_repeats_the_parser (f : Opened) (filename : string)
    (result : parse.EnhancedResult) :
  parse.ParseWithIssues f filename = inr result ->
  issue_place <$> rules_more.EmptyValues (parse.Vars result) filename
  = issue_place
      <$> filter (fun i => Name i = "empty value") (parse.IssueList result).
Proof.
  unfold parse.ParseWithIssues. destruct f as [err|file]; [discriminate|].
  destruct (read_err file); [discriminate|]. intros [= <-].
  pose proof (scanLines_empty_values_agree filename (lines file) 0
                (parse.mkResult [] []) eq_refl) as Hagree.
  unfold empty_values_agree in Hagree.
  rewrite Hagree, EmptyValues_filter, <- list_fmap_compose. done.
Qed.

(** [EMPTY_VAR=] on line 5. *)
Lemma EmptyValues_repeats_the_parser_witness :
  issue_place <$> rules_more.EmptyValues scenario_vars ".env"
  = issue_place
      <$> filter (fun i => Name i = "empty value")
            (scenario_parse_issues ".env").
Proof.
  apply (EmptyValues_repeats_the_parser (inr scenario_file) ".env"
           (parse.mkResult (scenario_parse_issues ".env") scenario_vars)).
  vm_compute. reflexivity.
Defined.

(** ** The linter *)

Section linter_facts.

Lemma foldl_rules_concat (rs : list rules.Rule) (vars : list env.Var)
    (file : string) : forall acc,
  foldl (fun acc (rule : rules.Rule) => acc ++ rule vars file) acc rs
  = acc ++ concat ((fun rule : rules.Rule => rule vars file) <$> rs).
Proof.
  induction rs as [|rule rs IH]; intros acc; cbn [foldl fmap list_fmap concat].
  - by rewrite app_nil_r.
  - by rewrite IH, app_assoc.
Qed.

Lemma Lint_from_step l fs file files acc result :
  parse.ParseWithIssues (fs file) file = inr result ->
  lint.Lint_from l fs (file :: files) acc
  = lint.Lint_from l fs files (acc ++ file_issues l file result).
Proof.
  intros Hparse. cbn [lint.Lint_from]. rewrite Hparse, foldl_rules_concat.
  unfold file_issues.
  destruct (lint.includeParseIssues l); [by rewrite <- app_assoc|done].
Qed.

Lemma Lint_from_parsed l fs files : forall acc results,
  Forall2 (fun file result =>
             parse.ParseWithIssues (fs file) file = inr result) files results ->
  lint.Lint_from l fs files acc
  = inr (acc ++ concat (zip_with (file_issues l) files results)).
Proof.
  induction files as [|file files IH]; intros acc results Hall.
  - apply Forall2_nil_inv_l in Hall as ->. cbn. by rewrite app_nil_r.
  - apply Forall2_cons_inv_l in Hall as (result & results' & Hparse & Hall & ->).
    rewrite (Lint_from_step _ _ _ _ _ _ Hparse), (IH _ _ Hall).
    cbn [zip_with concat]. by rewrite app_assoc.
Qed.

End linter_facts.

(** X6. A run of the linter over files that all parse returns, file after
    file, the issues of the parser (when they are included) followed by the
    issues of each rule in the order the rules were added; and a file that
    cannot be opened or read makes the whole run fail with the error of that
    file, the issues of the files before it being lost. *)
Theorem Lint_file_by_file (l : lint.Linter) (fs : string -> Opened)
    (files : list string) :
  (forall results,
      Forall2 (fun file result =>
                 parse.ParseWithIssues (fs file) file = inr result)
              files results ->
      lint.Lint l fs files
      = inr (concat (zip_with (file_issues l) files results))) /\
  (forall before file after results err,
      files = before ++ file :: after ->
      Forall2 (fun file result =>
                 parse.ParseWithIssues (fs file) file = inr result)
              before results ->
      parse.ParseWithIssues (fs file) file = inl err ->
      lint.Lint l fs files = inl err).
Proof.
  split.
  - intros results Hall. unfold lint.Lint.
    by rewrite (Lint_from_parsed l fs files [] results Hall).
  - intros before file after results err -> Hall Hfail. unfold lint.Lint.
    generalize (@nil Issue). revert results Hall.
    induction before as [|file0 before IH]; intros results Hall acc.
    + cbn [app lint.Lint_from]. by rewrite Hfail.
    + apply Forall2_cons_inv_l in Hall as (r & results' & Hparse & Hall & ->).
      cbn [app]. rewrite (Lint_from_step _ _ _ _ _ _ Hparse). by eapply IH.
Qed.

(** A run over a good file and then a missing one fails. *)
Lemma Lint_file_by_file_witness :
  lint.Lint (lint.WithRule rules.Duplicate lint.New)
    (fun path => if String.eqb path ".env" then inr two_ports_file
                 else inl (ErrIO "open: no such file or directory"))
    [".env"; ".env.local"]
  = inl (Errorf "cannot open .env file: "
           (ErrIO "open: no such file or directory")).
Proof.
  apply (proj2 (Lint_file_by_file _ _ _) [".env"] ".env.local" []
           [parse.mkResult []
              [env.mkVar "PORT" "8080" 1; env.mkVar "HOST" "h" 2;
               env.mkVar "PORT" "3000" 4]]).
  - reflexivity.
  - repeat constructor.
  - reflexivity.
Defined.



(** ** The Convention rule, continued *)

Section convention_more_facts.
Import regexp rules.

(** A pattern that starts with [^] matches at the start of the text only. *)
Lemma search_BeginText_later (r : regex) (s : string) : forall c,
  search (Cat BeginText r) (Some c) s = None.
Proof.
  induction s as [|c' s IH]; intros c; cbn [search match_here run]; [done|].
  apply IH.
Qed.

Lemma MatchString_BeginText (r : regex) (s : string) :
  MatchString (Cat BeginText r) s
  = match match_here (Cat BeginText r) None s with
    | Some _ => true
    | None => false
    end.
Proof.
  unfold MatchString. destruct s as [|c s]; cbn [search].
  - by destruct (match_here _ _ _).
  - destruct (match_here _ _ _); [done|]. by rewrite search_BeginText_later.
Qed.

(** A starred class followed by the end of the text takes the whole rest
    or fails. *)
Lemma run_Star_Class_EndText (p : ascii -> bool) (s : string) :
  forall prev caps,
  run (Star (Class p)) prev s caps
      (fun prev' s' caps' =>
         run EndText prev' s' caps' (fun _ s'' caps'' => Some (s'', caps'')))
  = if all_bytes p s then Some (EmptyString, caps) else None.
Proof.
  intros prev caps. cbn [run].
  assert (Hfuel : (String.length s <= String.length s)%nat) by lia.
  revert Hfuel. generalize (String.length s) at 2 3 as fuel.
  intros fuel. revert s prev caps.
  induction fuel as [|fuel IH]; intros s prev caps Hlen.
  - destruct s; [done|cbn in Hlen; lia].
  - destruct s as [|c s]; [done|]. cbn [all_bytes String.length] in *.
    destruct (p c); cbn [andb]; [|done].
    replace (String.length s <? S (String.length s))%nat with true
      by (symmetry; apply Nat.ltb_lt; lia).
    rewrite IH by lia. by destruct (all_bytes p s).
Qed.

Lemma validPattern_upper_snake (key : string) :
  MatchString validPattern key = upper_snake key.
Proof.
  unfold validPattern. rewrite MatchString_BeginText.
  unfold match_here. destruct key as [|c rest]; [done|].
  cbn [run upper_snake].
  destruct (is_upper c); [|done].
  change (match run (Star (Class (fun c0 => is_upper c0 || is_digit c0
                                             || Ascii.eqb c0 "_")))
                  (Some c) rest []
                  (fun prev' s' caps' =>
                     run EndText prev' s' caps'
                       (fun _ s'' caps'' => Some (s'', caps''))) with
          | Some _ => true
          | None => false
          end = true && all_bytes (fun c0 => is_upper c0 || is_digit c0
                                             || Ascii.eqb c0 "_") rest).
  rewrite run_Star_Class_EndText. by destruct (all_bytes _ rest).
Qed.

Context `{CaseTables}.

Lemma flag_issueFound cond recs st :
  issueFound (flag cond recs st) = cond || issueFound st.
Proof. by destruct cond. Qed.

Lemma flag_advised cond recs st :
  recs <> [] -> advised st -> advised (flag cond recs st).
Proof.
  intros Hrecs Hst. destruct cond; [|done]. intros _. cbn.
  destruct (recommendations st); [done|discriminate].
Qed.

Lemma recommend_grows cond recs st :
  recommendations st <> [] -> recommendations (recommend cond recs st) <> [].
Proof.
  destruct cond; [|done]. cbn. by destruct (recommendations st).
Qed.

Lemma recommend_issueFound cond recs st :
  issueFound (recommend cond recs st) = issueFound st.
Proof. by destruct cond. Qed.

Lemma pattern_findings_advised key st :
  issueFound (pattern_findings key st) = true
  /\ recommendations (pattern_findings key st) <> [].
Proof.
  unfold pattern_findings.
  split; [by rewrite !recommend_issueFound|].
  set (st7 := recommend (MatchString _ key) _ _).
  - unfold recommend at 1.
    destruct (Nat.eqb_spec (length (recommendations st7)) 0) as [Hz|Hnz].
    + cbn. by destruct (recommendations st7).
    + by destruct (recommendations st7).
Qed.

Lemma abbreviation_step_issueFound key st entry :
  issueFound (abbreviation_step key st entry)
  = abbreviation_fires key entry || issueFound st.
Proof.
  unfold abbreviation_step, abbreviation_fires. destruct entry as [abbrev full].
  cbn [fst snd]. destruct (Contains key abbrev && negb (Contains key full)); [|done].
  cbn [andb]. apply flag_issueFound.
Qed.

Lemma abbreviation_step_advised key st entry :
  advised st -> advised (abbreviation_step key st entry).
Proof.
  unfold abbreviation_step. destruct entry as [abbrev full].
  destruct (_ && _); [|done]. by apply flag_advised.
Qed.

Lemma abbreviation_loop_issueFound key abbrevs : forall st,
  issueFound (foldl (abbreviation_step key) st abbrevs)
  = existsb (abbreviation_fires key) abbrevs || issueFound st.
Proof.
  induction abbrevs as [|entry abbrevs IH]; intros st; cbn [foldl existsb];
    [done|].
  rewrite IH, abbreviation_step_issueFound.
  by destruct (abbreviation_fires key entry), (existsb _ abbrevs).
Qed.

Lemma existsb_Permutation {A} (p : A -> bool) (l1 l2 : list A) :
  l1 ≡ₚ l2 -> existsb p l1 = existsb p l2.
Proof.
  induction 1 as [|x l l' _ IH|x y l|l l' l'' _ IH1 _ IH2]; cbn; try congruence.
  by destruct (p x), (p y).
Qed.

(** The findings just before the loop over the abbreviations. *)
Lemma Convention_var_decision abbrevs file v :
  abbrevs ≡ₚ abbreviationSuggestions ->
  (Convention_var abbrevs file v = None
   <-> negb (upper_snake (env.Key v)) || name_findings (env.Key v) = false)
  /\ (forall issue, Convention_var abbrevs file v = Some issue ->
       Recommendations issue <> [] /\ Key issue = env.Key v
       /\ FirstLine issue = env.Line v /\ Line issue = env.Line v
       /\ Name issue = "naming convention violation").
Proof.
  intros Hperm. unfold Convention_var.
  set (key := env.Key v).
  set (st1 := if negb (MatchString validPattern key) then _ else _).
  set (st2 := flag (Nat.eqb _ 1) _ st1).
  set (st3 := flag (Nat.ltb 50 _) _ st2).
  set (st4 := flag (existsb _ systemVars) _ st3).
  set (st5 := match antiPatterns !! key with Some _ => _ | None => st4 end).
  set (st6 := match List.find _ redundantPrefixes with
              | Some _ => _ | None => st5 end).
  assert (Hf1 : issueFound st1 = negb (upper_snake key)).
  { subst st1. rewrite validPattern_upper_snake.
    destruct (upper_snake key); cbn [negb]; [done|].
    apply pattern_findings_advised. }
  assert (Ha1 : advised st1).
  { subst st1. destruct (negb _); [|done]. intros _.
    apply pattern_findings_advised. }
  assert (Hf5 : issueFound st5
                = bool_decide (is_Some (antiPatterns !! key)) || issueFound st4).
  { subst st5. destruct (antiPatterns !! key) as [suggestion|].
    - by rewrite bool_decide_eq_true_2 by eauto.
    - by rewrite bool_decide_eq_false_2 by (by intros [? ?]). }
  assert (Ha5 : advised st4 -> advised st5).
  { subst st5. destruct (antiPatterns !! key); [|done].
    by apply flag_advised. }
  assert (Hf6 : issueFound st6
                = existsb (HasPrefix key) redundantPrefixes || issueFound st5).
  { subst st6. destruct (List.find _ _) as [prefix|] eqn:Hfind.
    - apply find_some in Hfind as [Hin Hp].
      assert (existsb (HasPrefix key) redundantPrefixes = true) as ->
        by (apply existsb_exists; eauto).
      done.
    - assert (existsb (HasPrefix key) redundantPrefixes = false) as ->; [|done].
      apply not_true_is_false. intros (p & Hin & Hp)%existsb_exists.
      by rewrite (find_none _ _ Hfind p Hin) in Hp. }
  assert (Ha6 : advised st5 -> advised st6).
  { subst st6. destruct (List.find _ _); [|done]. by apply flag_advised. }
  assert (Hfound : issueFound (foldl (abbreviation_step key) st6 abbrevs)
                   = negb (upper_snake key) || name_findings key).
  { rewrite abbreviation_loop_issueFound, Hf6, Hf5. subst st4 st3 st2.
    rewrite !flag_issueFound, Hf1, (existsb_Permutation _ _ _ Hperm).
    unfold name_findings.
    repeat match goal with
           | |- context [?b || _] =>
               lazymatch b with
               | _ || _ => fail
               | true => fail
               | false => fail
               | _ => destruct b
               end
           end; reflexivity. }
  assert (Hadv : advised (foldl (abbreviation_step key) st6 abbrevs)).
  { apply (foldl_preserves advised); [intros; by apply abbreviation_step_advised|].
    apply Ha6, Ha5. subst st4 st3 st2. by repeat apply flag_advised. }
  split.
  - rewrite <- Hfound.
    destruct (issueFound (foldl (abbreviation_step key) st6 abbrevs));
      split; congruence.
  - intros issue.
    destruct (issueFound (foldl (abbreviation_step key) st6 abbrevs)) eqn:Hfd;
      [|discriminate].
    intros [= <-]. cbn. repeat split. by apply Hadv.
Qed.

(** X8. [Convention] reports a variable exactly when its key is not in
    upper snake case or has one of the other findings (a single byte, more
    than fifty bytes, a system variable, a generic name, a redundant prefix,
    an abbreviation standing as a word), whatever the case tables and the
    order in which the abbreviations are ranged over.  The issues come in
    the order of the variables, one for each reported variable, and each
    carries the key, the line of its variable as both lines, the file, the
    name of the rule and at least one recommendation. *)
Theorem Convention_reports_exactly abbrevs (vars : list env.Var) file :
  abbrevs ≡ₚ abbreviationSuggestions ->
  Forall2 (fun (issue : Issue) (v : env.Var) =>
             Key issue = env.Key v /\ FirstLine issue = env.Line v
             /\ Line issue = env.Line v /\ File issue = file
             /\ Name issue = "naming convention violation"
             /\ Recommendations issue <> [])
    (Convention_in abbrevs vars file)
    (filter (fun v => negb (upper_snake (env.Key v))
                      || name_findings (env.Key v) = true) vars).
Proof.
  intros Hperm. unfold Convention_in.
  induction vars as [|v vars IH]; [constructor|].
  cbn [omap list_omap]. rewrite filter_cons.
  destruct (Convention_var_decision abbrevs file v Hperm) as [Hnone Hsome].
  destruct (Convention_var abbrevs file v) as [issue|] eqn:Hv.
  - rewrite decide_True.
    + constructor; [|exact IH].
      destruct (Hsome issue eq_refl) as (Hrecs & Hkey & Hfl & Hl & Hname).
      repeat split; try done.
      unfold Convention_var in Hv. destruct (issueFound _); [|done].
      by injection Hv as <-.
    + apply not_false_iff_true. intros Hclean. by apply Hnone in Hclean.
  - rewrite decide_False; [exact IH|].
    rewrite (proj1 Hnone eq_refl). done.
Qed.

End convention_more_facts.

(** A lower-case key and a clean one: the first is reported. *)
Lemma Convention_reports_exactly_witness :
  rules.abbreviationSuggestions ≡ₚ rules.abbreviationSuggestions
  /\ Forall2 (fun (issue : Issue) (v : env.Var) =>
               Key issue = env.Key v /\ FirstLine issue = env.Line v
               /\ Line issue = env.Line v /\ File issue = ".env"
               /\ Name issue = "naming convention violation"
               /\ Recommendations issue <> [])
       (@rules.Convention_in ascii_case rules.abbreviationSuggestions
          [env.mkVar "port" "8080" 1; env.mkVar "HOST" "h" 2] ".env")
       (filter (fun v => negb (upper_snake (env.Key v))
                         || name_findings (env.Key v) = true)
          [env.mkVar "port" "8080" 1; env.mkVar "HOST" "h" 2]).
Proof.
  split; [apply Permutation_refl|].
  apply (@Convention_reports_exactly ascii_case rules.abbreviationSuggestions
           [env.mkVar "port" "8080" 1; env.mkVar "HOST" "h" 2] ".env").
  apply Permutation_refl.
Defined.

(** ** The patterns of the scanner *)

Section capture_facts.
Import regexp.

Lemma all_bytes_app p s t :
  all_bytes p (s +:+ t) = all_bytes p s && all_bytes p t.
Proof.
  induction s as [|c s IH]; [done|].
  change (String c s +:+ t) with (String c (s +:+ t)). cbn [all_bytes].
  by rewrite IH, andb_assoc.
Qed.

Lemma take_bytes_app s t : take_bytes (String.length s) (s +:+ t) = s.
Proof.
  induction s as [|c s IH]; [done|].
  change (String c s +:+ t) with (String c (s +:+ t)). cbn. by rewrite IH.
Qed.

Lemma append_assoc_string (s t u : string) : (s +:+ t) +:+ u = s +:+ (t +:+ u).
Proof.
  induction s as [|c s IH]; [done|].
  change (String c s +:+ t) with (String c (s +:+ t)).
  change (String c (s +:+ t) +:+ u) with (String c ((s +:+ t) +:+ u)).
  change (String c s +:+ (t +:+ u)) with (String c (s +:+ (t +:+ u))).
  by rewrite IH.
Qed.

Lemma hands_over_Cat P Q T r1 r2 :
  hands_over P r1 Q -> hands_over Q r2 T -> hands_over P (Cat r1 r2) T.
Proof.
  intros H1 H2 R prev s caps k x HP Hrun. cbn [run] in Hrun.
  apply H1 in Hrun as (prev1 & s1 & caps1 & HQ & Hrun); [|done].
  by apply H2 in Hrun.
Qed.

Lemma hands_over_Star P r : hands_over P r P -> hands_over P (Star r) P.
Proof.
  intros Hr R prev s caps k x HP. cbn [run].
  generalize (String.length s) as fuel. intros fuel. revert prev s caps HP.
  induction fuel as [|fuel IH]; intros prev s caps HP Hrun; [by eauto|].
  cbn [run] in Hrun.
  destruct (run r prev s caps _) as [y|] eqn:Hstep; [|by eauto].
  injection Hrun as ->.
  apply Hr in Hstep as (prev1 & s1 & caps1 & HP1 & Hstep); [|done].
  destruct (String.length s1 <? String.length s)%nat; [|done].
  by apply IH in Hstep.
Qed.

Lemma hands_over_group_free P r : group_free r = true -> hands_over P r P.
Proof.
  induction r as [|p|r1 IH1 r2 IH2|r1 IH1 r2 IH2|r1 IH1|i r1 IH1| | |];
    intros Hfree; cbn [group_free] in Hfree.
  - intros R prev s caps k x HP Hrun. by eauto.
  - intros R prev s caps k x HP Hrun. cbn [run] in Hrun.
    destruct s as [|c s]; [done|]. destruct (p c); [by eauto|done].
  - apply andb_prop in Hfree as [Hf1 Hf2]. eapply hands_over_Cat; eauto.
  - apply andb_prop in Hfree as [Hf1 Hf2].
    intros R prev s caps k x HP Hrun. cbn [run] in Hrun.
    destruct (run r1 prev s caps k) as [y|] eqn:Hleft.
    + injection Hrun as ->. by apply (IH1 Hf1) in Hleft.
    + by apply (IH2 Hf2) in Hrun.
  - apply hands_over_Star; auto.
  - done.
  - intros R prev s caps k x HP Hrun. cbn [run] in Hrun.
    destruct prev; [done|by eauto].
  - intros R prev s caps k x HP Hrun. cbn [run] in Hrun.
    destruct s; [by eauto|done].
  - intros R prev s caps k x HP Hrun. cbn [run] in Hrun.
    destruct (xorb _ _); [by eauto|done].
Qed.

Lemma takes_only_Empty p : takes_only p Empty.
Proof. intros R prev s caps k x Hrun. exists EmptyString, s, prev. done. Qed.

Lemma takes_only_Class p : takes_only p (Class p).
Proof.
  intros R prev s caps k x Hrun. cbn [run] in Hrun.
  destruct s as [|c s]; [done|]. destruct (p c) eqn:Hc; [|done].
  exists (String c EmptyString), s, (Some c). cbn. by rewrite Hc.
Qed.

Lemma takes_only_Cat p r1 r2 :
  takes_only p r1 -> takes_only p r2 -> takes_only p (Cat r1 r2).
Proof.
  intros H1 H2 R prev s caps k x Hrun. cbn [run] in Hrun.
  apply H1 in Hrun as (t1 & s1 & prev1 & -> & Ht1 & Hrun).
  apply H2 in Hrun as (t2 & s2 & prev2 & -> & Ht2 & Hrun).
  exists (t1 +:+ t2), s2, prev2.
  by rewrite append_assoc_string, all_bytes_app, Ht1, Ht2.
Qed.

Lemma takes_only_Star p r : takes_only p r -> takes_only p (Star r).
Proof.
  intros Hr R prev s caps k x. cbn [run].
  generalize (String.length s) as fuel. intros fuel. revert prev s.
  induction fuel as [|fuel IH]; intros prev s Hrun.
  - by exists EmptyString, s, prev.
  - cbn [run] in Hrun.
    destruct (run r prev s caps _) as [y|] eqn:Hstep;
      [|by exists EmptyString, s, prev].
    injection Hrun as ->.
    apply Hr in Hstep as (t1 & s1 & prev1 & -> & Ht1 & Hstep).
    destruct (String.length s1 <? String.length (t1 +:+ s1))%nat; [|done].
    apply IH in Hstep as (t2 & s2 & prev2 & -> & Ht2 & Hstep).
    exists (t1 +:+ t2), s2, prev2.
    by rewrite append_assoc_string, all_bytes_app, Ht1, Ht2.
Qed.

Lemma takes_only_AtLeast p n r : takes_only p r -> takes_only p (AtLeast n r).
Proof.
  intros Hr. apply takes_only_Cat; [|by apply takes_only_Star].
  induction n as [|n IH]; [apply takes_only_Empty|].
  by apply takes_only_Cat.
Qed.

(** The group of the patterns of the scanner: a name. *)
Lemma hands_over_name P r :
  takes_only (fun c => is_upper c || is_digit c || Ascii.eqb c "_") r ->
  hands_over P (Group 1 (Cat (Class is_upper) r)) names_variable.
Proof.
  intros Hr R prev s caps k x _ Hrun. cbn [run] in Hrun.
  destruct s as [|c s]; [done|]. destruct (is_upper c) eqn:Hc; [|done].
  apply Hr in Hrun as (t & s' & prev' & -> & Ht & Hrun).
  eexists _, _, _. split; [|exact Hrun].
  eexists _, _. split; [reflexivity|].
  replace (String.length (String c (t +:+ s')) - String.length s')%nat
    with (String.length (String c t)).
  - change (String c (t +:+ s')) with (String c t +:+ s').
    rewrite take_bytes_app. cbn [upper_snake]. by rewrite Hc, Ht.
  - cbn [String.length]. rewrite length_app_string. lia.
Qed.

(** The matches of a pattern with the single group of a name. *)
Lemma find_from_names r :
  hands_over (fun _ => True) r names_variable -> NumSubexp r = 1%nat ->
  forall s skip prev m,
  m ∈ find_from r skip prev s ->
  exists whole name, m = [whole; name] /\ upper_snake name = true.
Proof.
  intros Hr Hnum.
  assert (Hm : forall prev s rest caps,
             match_here r prev s = Some (rest, caps) ->
             exists whole name,
               take_bytes (String.length s - String.length rest) s
               :: (group_text caps <$> seq 1 (NumSubexp r)) = [whole; name]
               /\ upper_snake name = true).
  { intros prev s rest caps Hhere. unfold match_here in Hhere.
    apply Hr in Hhere as (prev' & s' & caps' & (t & more & -> & Ht) & Heq);
      [|done].
    injection Heq as <- <-. rewrite Hnum. by eexists _, t. }
  induction s as [|c s IH]; intros skip prev m; destruct skip as [|skip];
    cbn [find_from].
  - destruct (match_here r prev EmptyString) as [[rest caps]|] eqn:Hhere.
    + intros ->%list_elem_of_singleton. by eapply Hm.
    + by intros ?%not_elem_of_nil.
  - by intros ?%not_elem_of_nil.
  - destruct (match_here r prev (String c s)) as [[rest caps]|] eqn:Hhere.
    + intros [->|Hin]%elem_of_cons; [by eapply Hm|by eapply IH].
    + apply IH.
  - apply IH.
Qed.

End capture_facts.

(** The matches of the patterns of [getCommonPatterns]. *)
Lemma getCommonPatterns_names (pattern : scan.VariablePattern)
    (line : string) (m : list string) :
  pattern ∈ scan.getCommonPatterns ->
  m ∈ scan.Pattern pattern line ->
  exists whole name, m = [whole; name] /\ upper_snake name = true.
Proof.
  intros Hpattern. unfold scan.getCommonPatterns in Hpattern.
  cbv zeta in Hpattern.
  repeat (apply elem_of_cons in Hpattern as [->|Hpattern]);
    [..|by apply not_elem_of_nil in Hpattern];
    cbn [scan.Pattern]; unfold regexp.FindAllStringSubmatch;
    (apply find_from_names; [|reflexivity]);
    repeat first
      [ apply hands_over_group_free; reflexivity
      | apply hands_over_name;
        first [ apply takes_only_Star, takes_only_Class
              | apply takes_only_AtLeast, takes_only_Class ]
      | eapply hands_over_Cat ].
Qed.

(** X9. Every match that one of the fourteen patterns of
    [getCommonPatterns] finds in a line is the text of the match followed by
    exactly one group, and the group holds a name in upper snake case: an
    upper-case letter, then upper-case letters, digits and underscores.  So
    [scanFile] never skips a match of these patterns as too short, and the
    names it records pass the shape test of [Convention]. *)
Theorem common_patterns_capture_names (pattern : scan.VariablePattern)
    (line : string) (m : list string) :
  pattern ∈ scan.getCommonPatterns ->
  m ∈ scan.Pattern pattern line ->
  exists whole name,
    m = [whole; name] /\ upper_snake name = true
    /\ regexp.MatchString rules.validPattern name = true.
Proof.
  intros Hpattern Hm.
  destruct (getCommonPatterns_names pattern line m Hpattern Hm)
    as (whole & name & -> & Hname).
  exists whole, name. by rewrite validPattern_upper_snake.
Qed.

(** A line of Go with two reads of the environment. *)
Lemma common_patterns_capture_names_witness :
  exists whole name,
    ["os.Getenv('PORT')"; "PORT"] = [whole; name]
    /\ upper_snake name = true
    /\ regexp.MatchString rules.validPattern name = true.
Proof.
  apply (common_patterns_capture_names getenv_pattern
           "p := os.Getenv('PORT') + os.Getenv('HOST')").
  - unfold getenv_pattern, scan.getCommonPatterns. cbv zeta.
    cbn [List.nth]. left.
  - vm_compute. left.
Defined.

(** ** The scanner, continued *)

Section scan_more_facts.
Context `{CaseTables}.
Import scan.

Lemma buckets_of_empty : buckets_of [] ∅.
Proof. intros k. by rewrite lookup_empty. Qed.

Lemma record_match_buckets filePath lineNum line pattern us vars m :
  buckets_of us vars ->
  buckets_of (us ++ usages_of_match filePath lineNum line pattern m)
    (record_match filePath lineNum line pattern vars m).
Proof.
  intros Hvars.
  destruct m as [|whole [|varName groups]]; cbn [usages_of_match record_match];
    [by rewrite app_nil_r..|].
  intros k. rewrite filter_app. unfold append_usages.
  destruct (decide (varName = k)) as [->|Hne].
  - rewrite lookup_insert_eq, Hvars, filter_cons_True, filter_nil by done.
    destruct (filter _ us); by cbn.
  - rewrite lookup_insert_ne, Hvars, filter_cons_False, filter_nil, app_nil_r
      by done.
    done.
Qed.

Lemma scan_line_buckets ps filePath lineNum line us vars :
  buckets_of us vars ->
  buckets_of (us ++ usages_of_line ps filePath lineNum line)
    (scan_line ps filePath lineNum line vars).
Proof.
  unfold scan_line, usages_of_line. revert us vars.
  induction (patterns ps) as [|pattern ps' IH]; intros us vars Hvars;
    cbn [foldl]; [by rewrite app_nil_r|].
  rewrite bind_cons, app_assoc. apply IH. clear IH.
  revert us vars Hvars.
  induction (Pattern pattern line) as [|m ms IH]; intros us vars Hvars;
    cbn [foldl]; [by rewrite app_nil_r|].
  rewrite bind_cons, app_assoc. by apply IH, record_match_buckets.
Qed.

Lemma scan_lines_buckets ps filePath ls : forall lineNum us vars,
  buckets_of us vars ->
  buckets_of (us ++ usages_of_lines ps filePath lineNum ls)
    (scan_lines ps filePath lineNum ls vars).
Proof.
  induction ls as [|line ls IH]; intros lineNum us vars Hvars;
    cbn [scan_lines usages_of_lines]; [by rewrite app_nil_r|].
  rewrite app_assoc. by apply IH, scan_line_buckets.
Qed.

Lemma elem_of_usages_of_match filePath lineNum line pattern m u :
  u ∈ usages_of_match filePath lineNum line pattern m
  <-> exists whole groups,
        m = whole :: uVariable u :: groups
        /\ u = recorded filePath lineNum line pattern (uVariable u).
Proof.
  destruct m as [|whole [|varName groups]]; cbn [usages_of_match].
  - split; [by intros ?%not_elem_of_nil|by intros (? & ? & ? & _)].
  - split; [by intros ?%not_elem_of_nil|by intros (? & ? & ? & _)].
  - rewrite list_elem_of_singleton. split.
    + intros ->. by exists whole, groups.
    + intros (whole' & groups' & [= _ -> _] & Hu). done.
Qed.

Lemma elem_of_usages_of_lines ps filePath ls u : forall lineNum,
  u ∈ usages_of_lines ps filePath lineNum ls
  <-> exists (i : nat) line pattern whole groups,
        ls !! i = Some line /\ pattern ∈ patterns ps
        /\ (whole :: uVariable u :: groups) ∈ Pattern pattern line
        /\ u = recorded filePath (lineNum + Z.of_nat i + 1) line pattern
                 (uVariable u).
Proof.
  induction ls as [|line ls IH]; intros lineNum; cbn [usages_of_lines].
  - split; [by intros ?%not_elem_of_nil|by intros (? & ? & ? & ? & ? & ? & _)].
  - rewrite elem_of_app, IH. unfold usages_of_line. split.
    + intros [Hhere|(i & l & pattern & whole & groups & Hl & Hp & Hm & Hu)].
      * apply list_elem_of_bind in Hhere as (pattern & Hhere & Hp).
        apply list_elem_of_bind in Hhere as (m & Hhere & Hm).
        apply elem_of_usages_of_match in Hhere as (whole & groups & -> & Hu).
        exists 0%nat, line, pattern, whole, groups.
        repeat split; try done. by rewrite Z.add_0_r.
      * exists (S i), l, pattern, whole, groups. repeat split; try done.
        rewrite Hu at 1. f_equal. lia.
    + intros (i & l & pattern & whole & groups & Hl & Hp & Hm & Hu).
      destruct i as [|i]; cbn in Hl.
      * injection Hl as <-. left.
        apply list_elem_of_bind. exists pattern. split; [|done].
        apply list_elem_of_bind. eexists. split; [|exact Hm].
        apply elem_of_usages_of_match. eexists _, _. split; [done|].
        rewrite Hu at 1. f_equal. lia.
      * right. exists i, l, pattern, whole, groups. repeat split; try done.
        rewrite Hu at 1. f_equal. lia.
Qed.

(** The result of [scanFile] on a file that opens. *)
Lemma scanFile_buckets ps file filePath :
  exists fileResult,
    scanFile ps (inr file) filePath = inr fileResult
    /\ Files fileResult = [filePath]
    /\ buckets_of (usages_of_lines ps filePath 0 (lines file))
         (Variables fileResult).
Proof.
  eexists. split; [reflexivity|]. split; [reflexivity|]. cbn [Variables].
  apply (scan_lines_buckets ps filePath (lines file) 0 [] ∅ buckets_of_empty).
Qed.

Lemma buckets_of_lookup us vars k usages :
  buckets_of us vars -> vars !! k = Some usages ->
  usages <> [] /\ usages = filter (fun u => uVariable u = k) us.
Proof.
  intros Hvars. rewrite Hvars.
  destruct (filter _ us) as [|u mine]; [done|]. by intros [= <-].
Qed.

Lemma buckets_of_elem us vars u :
  buckets_of us vars -> u ∈ us ->
  exists usages, vars !! uVariable u = Some usages /\ u ∈ usages.
Proof.
  intros Hvars Hu.
  assert (Hmine : u ∈ filter (fun u' => uVariable u' = uVariable u) us)
    by (by apply list_elem_of_filter).
  rewrite Hvars. destruct (filter _ us) as [|u' mine]; [|by eauto].
  by apply not_elem_of_nil in Hmine.
Qed.

Lemma scanFile_found_in ps file filePath fileResult k usages :
  scanFile ps (inr file) filePath = inr fileResult ->
  Variables fileResult !! k = Some usages ->
  usages <> [] /\ Forall (found_in ps file filePath k) usages.
Proof.
  destruct (scanFile_buckets ps file filePath) as (r & -> & _ & Hvars).
  intros [= <-] Hk.
  destruct (buckets_of_lookup _ _ _ _ Hvars Hk) as [Hne ->].
  split; [done|]. apply Forall_forall. intros u [Hu Hin]%list_elem_of_filter.
  apply elem_of_usages_of_lines in Hin
    as (i & line & pattern & whole & groups & Hl & Hp & Hm & Heq).
  rewrite Hu, Z.add_0_l in *. by exists i, line, pattern, whole, groups.
Qed.

End scan_more_facts.

(** X10. [scanFile] on a file that opens returns a result, and its map
    holds the matches of the file and nothing else: a name is a key only
    with a list of usages that is not empty; every usage under a name is the
    one recorded for a match, of a pattern of the scanner in a line of the
    file, whose first group is that name (the file path, the number of the
    line counted from 1, the trimmed line, the name of the pattern, the
    confidence of the name in the line); and every match with a group, of
    every pattern in every line, has its usage under the name of its first
    group.  The usages under a name are all the usages of that name, in the
    order of the lines, then of the patterns, then of the matches. *)
Theorem scanFile_records_the_matches `{CaseTables} (ps : scan.ProjectScanner)
    (file : TextFile) (filePath : string) :
  exists fileResult,
    scan.scanFile ps (inr file) filePath = inr fileResult
    /\ scan.Files fileResult = [filePath]
    /\ (forall k usages,
          scan.Variables fileResult !! k = Some usages ->
          usages <> []
          /\ usages = filter (fun u => scan.uVariable u = k)
                        (usages_of_lines ps filePath 0 (lines file))
          /\ Forall (found_in ps file filePath k) usages)
    /\ (forall (i : nat) line pattern whole name groups,
          lines file !! i = Some line -> pattern ∈ scan.patterns ps ->
          (whole :: name :: groups) ∈ scan.Pattern pattern line ->
          exists usages,
            scan.Variables fileResult !! name = Some usages
            /\ recorded filePath (Z.of_nat i + 1) line pattern name ∈ usages).
Proof.
  destruct (scanFile_buckets ps file filePath) as (r & Hscan & Hfiles & Hvars).
  exists r. split; [done|]. split; [done|]. split.
  - intros k usages Hk.
    destruct (buckets_of_lookup _ _ _ _ Hvars Hk) as [Hne Heq].
    split; [done|]. split; [done|].
    by apply (scanFile_found_in ps file filePath r k usages).
  - intros i line pattern whole name groups Hl Hp Hm.
    apply (buckets_of_elem _ _ (recorded filePath (Z.of_nat i + 1) line
                                  pattern name) Hvars).
    apply elem_of_usages_of_lines.
    exists i, line, pattern, whole, groups. by rewrite Z.add_0_l.
Qed.

(** ** The walk of the project, continued *)

Section project_facts.
Context `{CaseTables}.
Import scan.

Lemma scanned_ok_empty ps open : scanned_ok ps open (mkScanResult ∅ [] []).
Proof.
  split; [constructor|]. intros k usages Hk. cbn [Variables] in Hk.
  by rewrite lookup_empty in Hk.
Qed.

Lemma found_in_uFile ps file filePath k u :
  found_in ps file filePath k u -> uFile u = filePath.
Proof. by intros (i & line & pattern & whole & groups & _ & _ & _ & ->). Qed.

Lemma visit_path_scanned_ok ps open path v result :
  scanned_ok ps open result ->
  scanned_ok ps open (visit_path ps open path v result).1.
Proof.
  intros [Hfiles Hvars]. destruct v; cbn [visit_path]; [done| |].
  - by destruct (existsb _ _).
  - destruct (shouldScanFile ps path) eqn:Hshould; cbn [negb]; [|done].
    destruct (open path) as [err|file] eqn:Hopen; [done|].
    destruct (scanFile ps (inr file) path) as [err|fileResult] eqn:Hscan;
      [done|].
    cbn [fst]. split; cbn [Files Variables].
    + apply Forall_app. split; [done|]. apply Forall_singleton. by eauto.
    + intros k usages.
      rewrite merge_usages_lookup by apply NoDup_fst_map_to_list.
      rewrite list_to_map_to_list.
      assert (Hold : forall old, Variables result !! k = Some old ->
                Forall (fun u => uFile u ∈ Files result ++ [path]
                          /\ exists file, open (uFile u) = inr file
                                /\ found_in ps file (uFile u) k u) old).
      { intros old Hk. destruct (Hvars k old Hk) as [_ Hus].
        eapply Forall_impl; [exact Hus|]. cbn. intros u [Hin Hfound].
        split; [|done]. apply elem_of_app. by left. }
      destruct (Variables fileResult !! k) as [new|] eqn:Hnew.
      * intros [= <-].
        destruct (scanFile_found_in ps file path fileResult k new Hscan Hnew)
          as [Hne Hfound].
        split; [by destruct (default [] _), new|].
        apply Forall_app. split.
        -- destruct (Variables result !! k) as [old|]; [by apply Hold|].
           constructor.
        -- eapply Forall_impl; [exact Hfound|]. cbn. intros u Hu.
           rewrite (found_in_uFile _ _ _ _ _ Hu).
           split; [apply elem_of_app; right; by left|]. by eauto.
      * intros Hk. split; [by apply (Hvars k usages)|]. by apply Hold.
Qed.

Lemma ScanProject_scanned_ok ps open tree rootPath :
  scanned_ok ps open (ScanProject ps open tree rootPath).1.
Proof.
  unfold ScanProject, Walk.
  pose proof (walk_preserves (visit_path ps open) (scanned_ok ps open)
                (fun path v st => visit_path_scanned_ok ps open path v st)
                tree rootPath (mkScanResult ∅ [] [])
                (scanned_ok_empty ps open)) as Hwalk.
  by destruct (walk _ _ _ _).
Qed.

(** The names of a result of the scanner with the common patterns. *)
Lemma scanned_ok_names open result k usages :
  scanned_ok NewProjectScanner open result ->
  Variables result !! k = Some usages ->
  upper_snake k = true.
Proof.
  intros [_ Hvars] Hk. destruct (Hvars k usages Hk) as [Hne Hus].
  destruct usages as [|u usages]; [done|].
  apply Forall_cons in Hus as [(_ & file & _ & Hfound) _].
  destruct Hfound as (i & line & pattern & whole & groups & _ & Hp & Hm & _).
  destruct (getCommonPatterns_names pattern line _ Hp Hm)
    as (whole' & name & [= _ -> _] & Hname).
  done.
Qed.

End project_facts.

(** X11. [ScanProject] never returns an error, whatever the tree and
    whatever opening the files yields, and in its result every file listed
    passed [shouldScanFile] and was opened, no name has an empty list of
    usages, and every usage under a name was recorded for a match that names
    it, of a pattern of the scanner in a line of a file that is listed. *)
Theorem ScanProject_result_well_formed `{CaseTables}
    (ps : scan.ProjectScanner) (open : string -> Opened) (tree : scan.entry)
    (rootPath : string) :
  let result := (scan.ScanProject ps open tree rootPath).1 in
  (scan.ScanProject ps open tree rootPath).2 = None
  /\ (forall path, path ∈ scan.Files result ->
        scan.shouldScanFile ps path = true
        /\ exists file, open path = inr file)
  /\ (forall k usages,
        scan.Variables result !! k = Some usages ->
        usages <> []
        /\ forall u, u ∈ usages ->
             scan.uFile u ∈ scan.Files result
             /\ exists file, open (scan.uFile u) = inr file
                             /\ found_in ps file (scan.uFile u) k u).
Proof.
  cbv zeta. split; [apply ScanProject_no_error|].
  destruct (ScanProject_scanned_ok ps open tree rootPath) as [Hfiles Hvars].
  split.
  - intros path Hpath. by apply (proj1 (Forall_forall _ _) Hfiles).
  - intros k usages Hk. destruct (Hvars k usages Hk) as [Hne Hus].
    split; [done|]. intros u Hu. by apply (proj1 (Forall_forall _ _) Hus).
Qed.

(** X12. [autoDiscoverRequiredVars] never fails.  The names it returns are
    distinct, each is in upper snake case, and each has, in the result of
    the scan, a list of usages that is not empty, has at least [minUsages]
    entries and a mean confidence of at least [minConfidence]. *)
Theorem autoDiscoverRequiredVars_names `{CaseTables} (open : string -> Opened)
    (tree : scan.entry) (scanPath : string) (minConfidence : float)
    (minUsages : Z) :
  exists names,
    cmd.autoDiscoverRequiredVars open tree scanPath minConfidence minUsages
    = inr names
    /\ NoDup names
    /\ forall name, name ∈ names ->
         upper_snake name = true
         /\ exists usages,
              scan.Variables
                (scan.ScanProject scan.NewProjectScanner open tree scanPath).1
                !! name = Some usages
              /\ usages <> []
              /\ (minUsages <= Z.of_nat (length usages))%Z
              /\ (minConfidence <=? scan.avgConfidence usages)%float = true.
Proof.
  unfold cmd.autoDiscoverRequiredVars.
  pose proof (ScanProject_no_error scan.NewProjectScanner open tree scanPath)
    as Herr.
  pose proof (ScanProject_scanned_ok scan.NewProjectScanner open tree scanPath)
    as Hok.
  destruct (scan.ScanProject _ open tree scanPath) as [result err].
  cbn [fst snd] in *. subst err.
  eexists. split; [reflexivity|]. split; [apply GetRequiredVariables_NoDup|].
  intros name (usages & Hk & Hreq)%GetRequiredVariables_elem.
  apply required_spec in Hreq as [Hmin Hmean].
  split; [by eapply scanned_ok_names|].
  exists usages. repeat split; try done. by apply (proj2 Hok name usages).
Qed.



(** ** The Security rule, continued *)

Section plain_facts.
Import regexp.

Lemma run_sound (r : regex) : plain r = true ->
  forall (R : Type) prev s caps
         (k : option ascii -> string -> captures -> option R) x,
  run r prev s caps k = Some x ->
  exists s' prev' caps', matches_from r s s' /\ k prev' s' caps' = Some x.
Proof.
  induction r as [|p|r1 IH1 r2 IH2|r1 IH1 r2 IH2|r1 IH1|i r1 IH1| | |];
    cbn [plain]; intros Hplain R prev s caps k x Hrun; try done;
    cbn [run] in Hrun.
  - by exists s, prev, caps.
  - destruct s as [|c s]; [done|]. destruct (p c) eqn:Hc; [|done].
    exists s, (Some c), caps. split; [|done]. by exists c.
  - apply andb_prop in Hplain as [Hp1 Hp2].
    apply (IH1 Hp1) in Hrun as (s1 & prev1 & caps1 & Hm1 & Hrun).
    apply (IH2 Hp2) in Hrun as (s2 & prev2 & caps2 & Hm2 & Hrun).
    exists s2, prev2, caps2. split; [by exists s1|done].
  - apply andb_prop in Hplain as [Hp1 Hp2].
    destruct (run r1 prev s caps k) as [y|] eqn:Hleft.
    + injection Hrun as ->.
      apply (IH1 Hp1) in Hleft as (s1 & prev1 & caps1 & Hm1 & Hk).
      exists s1, prev1, caps1. split; [by left|done].
    + apply (IH2 Hp2) in Hrun as (s1 & prev1 & caps1 & Hm1 & Hk).
      exists s1, prev1, caps1. split; [by right|done].
  - apply (IH1 Hplain) in Hrun as (s1 & prev1 & caps1 & Hm1 & Hk).
    by eexists s1, prev1, _.
  - destruct s; [|done]. by exists EmptyString, prev, caps.
Qed.

Lemma run_complete (r : regex) : plain r = true ->
  forall (R : Type) prev s s' caps
         (k : option ascii -> string -> captures -> option R),
  matches_from r s s' ->
  (forall prev' caps', is_Some (k prev' s' caps')) ->
  is_Some (run r prev s caps k).
Proof.
  induction r as [|p|r1 IH1 r2 IH2|r1 IH1 r2 IH2|r1 IH1|i r1 IH1| | |];
    cbn [plain]; intros Hplain R prev s s' caps k Hm Hk; try done;
    cbn [run matches_from] in *.
  - subst s'. apply Hk.
  - destruct Hm as (c & -> & ->). apply Hk.
  - apply andb_prop in Hplain as [Hp1 Hp2]. destruct Hm as (s1 & Hm1 & Hm2).
    apply (IH1 Hp1 _ _ _ s1); [done|]. intros prev' caps'.
    by apply (IH2 Hp2 _ _ _ s').
  - apply andb_prop in Hplain as [Hp1 Hp2].
    destruct (run r1 prev s caps k) as [y|] eqn:Hleft; [by eauto|].
    destruct Hm as [Hm|Hm]; [|by apply (IH2 Hp2 _ _ _ s')].
    pose proof (IH1 Hp1 _ prev _ _ caps k Hm Hk) as Hsome.
    rewrite Hleft in Hsome. by destruct Hsome.
  - apply (IH1 Hplain _ _ _ s'); [done|]. intros prev' caps'. apply Hk.
  - destruct Hm as [-> ->]. apply Hk.
Qed.

Lemma matches_from_suffix (r : regex) : plain r = true ->
  forall s s', matches_from r s s' -> exists pre, s = pre +:+ s'.
Proof.
  induction r as [|p|r1 IH1 r2 IH2|r1 IH1 r2 IH2|r1 IH1|i r1 IH1| | |];
    cbn [plain matches_from]; intros Hplain s s' Hm; try done.
  - subst s'. by exists EmptyString.
  - destruct Hm as (c & -> & _). by exists (String c EmptyString).
  - apply andb_prop in Hplain as [Hp1 Hp2]. destruct Hm as (s1 & Hm1 & Hm2).
    destruct (IH1 Hp1 _ _ Hm1) as [pre1 ->].
    destruct (IH2 Hp2 _ _ Hm2) as [pre2 ->].
    exists (pre1 +:+ pre2). by rewrite append_assoc_string.
  - apply andb_prop in Hplain as [Hp1 Hp2]. destruct Hm; eauto.
  - eauto.
  - destruct Hm as [-> ->]. by exists EmptyString.
Qed.

(** A plain pattern matches a text when it matches at the front of one of
    its suffixes. *)
Lemma search_plain (r : regex) : plain r = true ->
  forall s prev,
  is_Some (search r prev s)
  <-> exists pre suf s', s = pre +:+ suf /\ matches_from r suf s'.
Proof.
  intros Hplain.
  assert (Hhere : forall prev suf,
             is_Some (match_here r prev suf)
             <-> exists s', matches_from r suf s').
  { intros prev suf. unfold match_here. split.
    - intros [x Hx].
      apply (run_sound r Hplain) in Hx as (s' & _ & _ & Hm & _). by eauto.
    - intros [s' Hm]. by apply (run_complete r Hplain _ _ _ s'). }
  induction s as [|c s IH]; intros prev; cbn [search].
  - destruct (match_here r prev EmptyString) as [m|] eqn:Hm.
    + split; [|by eauto]. intros _.
      destruct (proj1 (Hhere prev EmptyString)) as [s' Hs']; [by rewrite Hm|].
      by exists EmptyString, EmptyString, s'.
    + split; [by intros [? ?]|]. intros (pre & suf & s' & Heq & Hs').
      destruct pre; [|done].
      change (EmptyString +:+ suf) with suf in Heq. subst suf.
      rewrite <- Hm. apply Hhere. by eauto.
  - destruct (match_here r prev (String c s)) as [m|] eqn:Hm.
    + split; [|by eauto]. intros _.
      destruct (proj1 (Hhere prev (String c s))) as [s' Hs']; [by rewrite Hm|].
      by exists EmptyString, (String c s), s'.
    + rewrite IH. split.
      * intros (pre & suf & s' & -> & Hs'). by exists (String c pre), suf, s'.
      * intros (pre & suf & s' & Heq & Hs'). destruct pre as [|c' pre].
        -- change (EmptyString +:+ suf) with suf in Heq. subst suf.
           assert (is_Some (match_here r prev (String c s))) as [? Hsome]
             by (apply Hhere; by eauto).
           by rewrite Hsome in Hm.
        -- change (String c' pre +:+ suf) with (String c' (pre +:+ suf)) in Heq.
           injection Heq as -> ->. by exists pre, suf, s'.
Qed.

Lemma MatchString_plain (r : regex) (s : string) : plain r = true ->
  MatchString r s = true
  <-> exists pre suf s', s = pre +:+ suf /\ matches_from r suf s'.
Proof.
  intros Hplain. rewrite <- (search_plain r Hplain s None). unfold MatchString.
  destruct (search r None s) as [m|].
  - split; [by eauto|done].
  - split; [done|by intros [? ?]].
Qed.

(** A pattern that ends as another one matches only where the other does. *)
Lemma MatchString_tail (r r' : regex) (s : string) :
  plain r = true -> plain r' = true ->
  (forall suf s', matches_from r suf s' ->
     exists pre suf', suf = pre +:+ suf' /\ matches_from r' suf' s') ->
  MatchString r s = true -> MatchString r' s = true.
Proof.
  intros Hr Hr' Htail.
  rewrite (MatchString_plain r s Hr), (MatchString_plain r' s Hr').
  intros (pre & suf & s' & -> & Hm).
  destruct (Htail suf s' Hm) as (pre' & suf' & -> & Hm').
  exists (pre +:+ pre'), suf', s'. by rewrite append_assoc_string.
Qed.

(** What is left after a plain first part. *)
Lemma matches_from_Cat_tail (r1 r2 : regex) (s s' : string) :
  plain r1 = true -> matches_from (Cat r1 r2) s s' ->
  exists pre suf, s = pre +:+ suf /\ matches_from r2 suf s'.
Proof.
  intros Hp (s1 & Hm1 & Hm2).
  destruct (matches_from_suffix r1 Hp _ _ Hm1) as [pre ->]. by eauto.
Qed.

Lemma plain_LitFold (w : string) : plain (LitFold w) = true.
Proof.
  induction w as [|c w IH]; [done|]. cbn [LitFold plain]. rewrite IH.
  unfold FoldByte. by repeat destruct (Ascii.eqb _ _).
Qed.

(** A literal under [(?i)] matches the text whose ASCII lower-casing it
    is. *)
Lemma matches_from_LitFold_lower (t s' : string) :
  matches_from (LitFold (lower_ascii t)) (t +:+ s') s'.
Proof.
  induction t as [|b t IH]; [done|].
  change (String b t +:+ s') with (String b (t +:+ s')).
  change (lower_ascii (String b t)) with (String (lower_byte b) (lower_ascii t)).
  cbn [LitFold matches_from]. exists (t +:+ s'). split; [|exact IH].
  assert (Hboth : matches_from
                    (Class (fun b' => Ascii.eqb (lower_byte b')
                                        (lower_byte (lower_byte b))))
                    (String b (t +:+ s')) (t +:+ s')).
  { exists b. split; [done|]. apply Ascii.eqb_eq.
    unfold lower_byte. destruct (is_upper b) eqn:Hb; [|by rewrite Hb].
    destruct b as [[] [] [] [] [] [] [] []]; by vm_compute. }
  unfold FoldByte. repeat destruct (Ascii.eqb _ _); cbn [matches_from]; auto.
Qed.

End plain_facts.

Section secret_key_facts.
Import regexp rules.

Lemma MatchString_ends_as (r r' : regex) (s : string) :
  plain r = true -> plain r' = true -> ends_as r r' ->
  MatchString r s = true -> MatchString r' s = true.
Proof. apply MatchString_tail. Qed.

Lemma ends_as_here (r r' : regex) :
  (forall suf s', matches_from r suf s' -> matches_from r' suf s') ->
  ends_as r r'.
Proof. intros Himp suf s' Hm. exists EmptyString, suf. by auto. Qed.

Lemma ends_as_Cat (r1 r2 r' : regex) :
  plain r1 = true -> ends_as r2 r' -> ends_as (Cat r1 r2) r'.
Proof.
  intros Hp Hends suf s' Hm.
  apply matches_from_Cat_tail in Hm as (pre & suf1 & -> & Hm); [|done].
  apply Hends in Hm as (pre' & suf' & -> & Hm).
  exists (pre +:+ pre'), suf'. by rewrite append_assoc_string.
Qed.

Lemma ends_as_LitFold_cons (c : ascii) (w : string) (r r' : regex) :
  ends_as (Cat (LitFold w) r) r' -> ends_as (Cat (LitFold (String c w)) r) r'.
Proof.
  intros Hends suf s' (s2 & (s1 & Hc & Hw) & Hr).
  assert (Hp : plain (FoldByte c) = true)
    by (unfold FoldByte; by repeat destruct (Ascii.eqb _ _)).
  destruct (matches_from_suffix _ Hp _ _ Hc) as [pre ->].
  destruct (Hends s1 s') as (pre' & suf' & -> & Hm); [by exists s2|].
  exists (pre +:+ pre'), suf'. by rewrite append_assoc_string.
Qed.

(** Eight of the ten patterns of [secretKeyPatterns] match only where one
    of the first two does. *)
Lemma isSecretKey_two_patterns (key : string) :
  isSecretKey key
  = existsb (fun pattern => MatchString pattern key) (take 2 secretKeyPatterns).
Proof.
  unfold isSecretKey, secretKeyPatterns. cbn [take existsb].
  set (p1 := Cat (Group 1 (Alt (LitFold "password") _)) EndText).
  set (p2 := Cat (Group 1 (Alt (LitFold "secret") _)) EndText).
  assert (Hplain1 : plain p1 = true) by reflexivity.
  assert (Hplain2 : plain p2 = true) by reflexivity.
  destruct (MatchString p1 key) eqn:H1; [done|].
  destruct (MatchString p2 key) eqn:H2; [done|].
  cbn [orb].
  pose (tail_of_two := fun r : regex => ends_as r p1 \/ ends_as r p2).
  assert (Htwo : forall r, plain r = true -> tail_of_two r ->
                           MatchString r key = false).
  { intros r Hr [Htail|Htail]; apply not_true_is_false; intros Hm.
    - apply (MatchString_ends_as r p1) in Hm; [congruence|done..].
    - apply (MatchString_ends_as r p2) in Hm; [congruence|done..]. }
  rewrite !Htwo; [done|..]; try reflexivity; unfold tail_of_two.
  all: first
    [ left;
      repeat first
        [ apply ends_as_here; intros suf s' (s1 & Halt & Hend);
          unfold p1; cbn [matches_from] in *;
          exists s1; split; [tauto|exact Hend]
        | apply ends_as_LitFold_cons
        | apply ends_as_Cat; [reflexivity|] ];
      fail
    | right;
      repeat first
        [ apply ends_as_here; intros suf s' (s1 & Halt & Hend);
          unfold p2; cbn [matches_from] in *;
          exists s1; split; [tauto|exact Hend]
        | apply ends_as_LitFold_cons
        | apply ends_as_Cat; [reflexivity|] ];
      fail ].
Qed.

Lemma append_nil_r_string (s : string) : s +:+ EmptyString = s.
Proof.
  induction s as [|c s IH]; [done|].
  change (String c s +:+ EmptyString) with (String c (s +:+ EmptyString)).
  by rewrite IH.
Qed.

Lemma isSecretKey_suffix (pre t w : string) :
  w ∈ secret_words -> lower_ascii t = w -> isSecretKey (pre +:+ t) = true.
Proof.
  intros Hw Ht. rewrite isSecretKey_two_patterns.
  unfold secretKeyPatterns. cbn [take existsb].
  pose proof (matches_from_LitFold_lower t EmptyString) as Hm.
  rewrite Ht, append_nil_r_string in Hm.
  assert (Hmatch : forall a b c : string,
             w = a \/ w = b \/ w = c ->
             MatchString
               (Cat (Group 1 (Alt (LitFold a) (Alt (LitFold b) (LitFold c))))
                    EndText) (pre +:+ t) = true).
  { intros a b c Habc. apply MatchString_plain.
    - cbn [plain]. by rewrite !plain_LitFold.
    - exists pre, t, EmptyString. split; [done|]. exists EmptyString.
      split; [|done]. cbn [matches_from].
      destruct Habc as [<-|[<-|<-]]; auto. }
  unfold secret_words in Hw.
  repeat (apply elem_of_cons in Hw as [Hw|Hw]);
    [..|by apply not_elem_of_nil in Hw].
  1-3: rewrite Hmatch by auto; done.
  all: rewrite (Hmatch "secret" "key" "token") by auto; apply orb_true_r.
Qed.

End secret_key_facts.

(** X14. A key has the name of a secret exactly when one of the first two
    patterns of [secretKeyPatterns] matches it: the other eight patterns
    match only keys that these two match.  In particular every key that
    ends, in whatever mix of ASCII cases, with one of [password], [pwd],
    [pass], [secret], [key] and [token] has the name of a secret, whatever
    stands before the word, as [MONKEY] and [COMPASS] do. *)
Theorem isSecretKey_six_words (key : string) :
  rules.isSecretKey key
  = existsb (fun pattern => regexp.MatchString pattern key)
      (take 2 rules.secretKeyPatterns)
  /\ (forall pre t w,
        key = pre +:+ t -> w ∈ secret_words -> lower_ascii t = w ->
        rules.isSecretKey key = true).
Proof.
  split; [apply isSecretKey_two_patterns|].
  intros pre t w -> Hw Ht. by apply (isSecretKey_suffix pre t w).
Qed.

(** ** The lint command *)

Section merge_facts.
Import cmd.

Lemma filter_all {A} (P : A -> Prop) `{!forall x, Decision (P x)} (l : list A) :
  (forall x, x ∈ l -> P x) -> filter P l = l.
Proof.
  induction l as [|x l IH]; intros Hall; [done|].
  rewrite filter_cons_True by (apply Hall; by left).
  rewrite IH; [done|]. intros y Hy. apply Hall. by right.
Qed.

Lemma filter_filter_and {A} (P Q R : A -> Prop) `{!forall x, Decision (P x)}
    `{!forall x, Decision (Q x)} `{!forall x, Decision (R x)} (l : list A) :
  (forall x, R x <-> P x /\ Q x) -> filter P (filter Q l) = filter R l.
Proof.
  intros Hiff. induction l as [|x l IH]; [done|].
  destruct (decide (Q x)) as [HQ|HQ].
  - rewrite (filter_cons_True Q) by done.
    destruct (decide (P x)) as [HP|HP].
    + rewrite !filter_cons_True by (done || by apply Hiff). by rewrite IH.
    + rewrite !filter_cons_False by (done || rewrite Hiff; tauto). done.
  - rewrite (filter_cons_False Q), (filter_cons_False R)
      by (done || rewrite Hiff; tauto).
    done.
Qed.

Lemma elem_of_first_occurrences (l : list string) (y : string) :
  y ∈ first_occurrences l <-> y ∈ l.
Proof.
  induction l as [|x l IH]; cbn [first_occurrences]; [done|].
  rewrite !elem_of_cons, list_elem_of_filter, IH.
  destruct (decide (y = x)); tauto.
Qed.

Lemma NoDup_first_occurrences (l : list string) : NoDup (first_occurrences l).
Proof.
  induction l as [|x l IH]; cbn [first_occurrences]; [constructor|].
  apply NoDup_cons. split; [|by apply NoDup_filter].
  rewrite list_elem_of_filter. tauto.
Qed.

Lemma first_occurrences_NoDup (l : list string) :
  NoDup l -> first_occurrences l = l.
Proof.
  induction 1 as [|x l Hx _ IH]; cbn [first_occurrences]; [done|].
  rewrite IH. f_equal. apply filter_all. by intros y Hy ->.
Qed.

Lemma first_occurrences_app (l1 l2 : list string) :
  first_occurrences (l1 ++ l2)
  = first_occurrences l1 ++ filter (fun y => y ∉ l1) (first_occurrences l2).
Proof.
  induction l1 as [|x l1 IH]; cbn [app first_occurrences].
  - symmetry. apply filter_all. intros y _. apply not_elem_of_nil.
  - rewrite IH, filter_app. cbn [app]. do 2 f_equal.
    apply filter_filter_and. intros y. rewrite not_elem_of_cons. tauto.
Qed.

(** One loop of [mergeLists], on a map that holds the names gathered. *)
Lemma merge_loop_first_occurrences (vs : list string) :
  forall (unique : gmap string bool) (merged : list string),
  (forall v, default false (unique !! v) = true <-> v ∈ merged) ->
  exists unique',
    merge_loop vs (unique, merged)
    = (unique',
       merged ++ filter (fun v => v ∉ merged) (first_occurrences vs))
    /\ (forall v, default false (unique' !! v) = true
                  <-> v ∈ merged ++ filter (fun v => v ∉ merged)
                                      (first_occurrences vs)).
Proof.
  unfold merge_loop.
  induction vs as [|v vs IH]; intros unique merged Hinv;
    cbn [foldl first_occurrences].
  - exists unique. rewrite filter_nil, app_nil_r. done.
  - destruct (default false (unique !! v)) eqn:Hv; cbn [negb].
    + assert (Hin : v ∈ merged) by (by apply Hinv).
      destruct (IH unique merged Hinv) as (unique' & -> & Hinv').
      rewrite filter_cons_False by tauto.
      assert (filter (fun y => y ∉ merged)
                (filter (fun y => y <> v) (first_occurrences vs))
              = filter (fun y => y ∉ merged) (first_occurrences vs)) as ->.
      { apply filter_filter_and. intros y. split; [|tauto].
        intros Hy. split; [done|]. by intros ->. }
      by exists unique'.
    + assert (Hnin : v ∉ merged) by (rewrite <- Hinv, Hv; done).
      destruct (IH (<[v := true]> unique) (merged ++ [v])) as (unique' & -> & Hinv').
      { intros x. rewrite elem_of_app, list_elem_of_singleton, <- Hinv.
        destruct (decide (v = x)) as [->|Hne].
        - rewrite lookup_insert_eq. cbn. tauto.
        - rewrite lookup_insert_ne by done. split; [tauto|].
          intros [?|?]; [done|congruence]. }
      rewrite filter_cons_True by done.
      assert (filter (fun y => y ∉ merged ++ [v]) (first_occurrences vs)
              = filter (fun y => y ∉ merged)
                  (filter (fun y => y <> v) (first_occurrences vs))) as Heq.
      { symmetry. apply filter_filter_and. intros y.
        rewrite elem_of_app, list_elem_of_singleton. tauto. }
      rewrite Heq, <- app_assoc in *. by exists unique'.
Qed.

Lemma mergeLists_first_occurrences (existing discovered : list string) :
  mergeLists existing discovered = first_occurrences (discovered ++ existing).
Proof.
  unfold mergeLists.
  destruct (merge_loop_first_occurrences discovered ∅ [])
    as (unique1 & -> & Hinv1).
  { intros v. rewrite lookup_empty. cbn. split; [done|].
    by intros ?%not_elem_of_nil. }
  destruct (merge_loop_first_occurrences existing unique1 _ Hinv1)
    as (unique2 & -> & _).
  cbn [snd app]. rewrite first_occurrences_app.
  rewrite (filter_all (fun v => v ∉ [])) by (intros; apply not_elem_of_nil).
  f_equal. apply list_filter_iff.
  intros y. by rewrite elem_of_first_occurrences.
Qed.

End merge_facts.

(** X15. [mergeLists] returns the discovered names and then the existing
    ones, each name once, at the place of its first occurrence: the result
    has no duplicate, holds exactly the names of the two lists, and starts
    with the discovered names when these have no duplicate. *)
Theorem mergeLists_discovered_first (existing discovered : list string) :
  cmd.mergeLists existing discovered
  = first_occurrences (discovered ++ existing)
  /\ NoDup (cmd.mergeLists existing discovered)
  /\ (forall v, v ∈ cmd.mergeLists existing discovered
                <-> v ∈ discovered \/ v ∈ existing)
  /\ (NoDup discovered ->
      cmd.mergeLists existing discovered
      = discovered ++ filter (fun v => v ∉ discovered)
                        (first_occurrences existing)).
Proof.
  rewrite mergeLists_first_occurrences. split; [done|].
  split; [apply NoDup_first_occurrences|]. split.
  - intros v. by rewrite elem_of_first_occurrences, elem_of_app.
  - intros Hnd. by rewrite first_occurrences_app, first_occurrences_NoDup.
Qed.

(** ** The search for environment files *)

Section readable_walk_facts.
Import scan.

Context {S : Type} (walkFn : string -> visit -> S -> S * walk_ret).



End readable_walk_facts.

Section env_files_facts.
Import scan cmd.





End env_files_facts.


(** ** The abbreviations of the Convention rule *)

Section abbreviation_facts.
Import regexp rules.

Lemma HasPrefix_drop (s w : string) :
  HasPrefix s w = true -> s = w +:+ drop_bytes (String.length w) s.
Proof.
  revert s. induction w as [|a w IH]; intros s; [done|].
  destruct s as [|b s]; cbn [HasPrefix]; [done|].
  intros [->%Ascii.eqb_eq Hp]%andb_prop.
  change (String b w +:+ drop_bytes (String.length (String b w)) (String b s))
    with (String b (w +:+ drop_bytes (String.length w) s)).
  by rewrite <- IH.
Qed.

Lemma HasPrefix_refl (s : string) : HasPrefix s s = true.
Proof.
  induction s as [|a s IH]; [done|]. cbn [HasPrefix].
  by rewrite Ascii.eqb_refl, IH.
Qed.

Lemma all_bytes_drop p n : forall s,
  all_bytes p s = true -> all_bytes p (drop_bytes n s) = true.
Proof.
  induction n as [|n IH]; intros [|c s]; cbn [drop_bytes all_bytes]; try done.
  intros [_ Hs]%andb_prop. by apply IH.
Qed.

Lemma all_bytes_impl (p q : ascii -> bool) (s : string) :
  (forall c, p c = true -> q c = true) ->
  all_bytes p s = true -> all_bytes q s = true.
Proof.
  intros Himp. induction s as [|c s IH]; cbn [all_bytes]; [done|].
  intros [Hc Hs]%andb_prop. by rewrite (Himp c Hc), IH.
Qed.

Lemma upper_snake_word (key : string) :
  upper_snake key = true ->
  all_bytes is_word key = true /\ (1 <= String.length key)%nat.
Proof.
  destruct key as [|c key]; cbn [upper_snake all_bytes String.length]; [done|].
  intros [Hc Hkey]%andb_prop. split; [|lia].
  unfold is_word at 1. rewrite Hc. cbn [orb].
  eapply all_bytes_impl; [|exact Hkey].
  intros d. unfold is_word.
  by destruct (is_upper d), (is_lower d), (is_digit d), (Ascii.eqb d "_").
Qed.

(** A literal of word bytes. *)
Lemma run_Lit_word (w : string) :
  w <> EmptyString -> all_bytes is_word w = true ->
  exists c, is_word c = true /\
    forall (R : Type) prev s caps
           (k : option ascii -> string -> captures -> option R),
    run (Lit w) prev s caps k
    = if HasPrefix s w then k (Some c) (drop_bytes (String.length w) s) caps
      else None.
Proof.
  induction w as [|a w IH]; [done|]. intros _ [Ha Hw]%andb_prop.
  destruct (decide (w = EmptyString)) as [->|Hne].
  - exists a. split; [done|]. intros R prev s caps k.
    cbn [Lit run Byte]. destruct s as [|d s]; [done|].
    cbn [HasPrefix String.length drop_bytes].
    destruct (Ascii.eqb_spec a d) as [->|]; by cbn.
  - destruct (IH Hne Hw) as (c & Hc & Hrun). exists c. split; [done|].
    intros R prev s caps k.
    change (Lit (String a w)) with (Cat (Byte a) (Lit w)).
    cbn [run Byte]. destruct s as [|d s]; [done|].
    cbn [HasPrefix String.length drop_bytes].
    destruct (Ascii.eqb a d); [|done]. cbn [andb]. apply Hrun.
Qed.

(** In a text of word bytes the only word is the whole text. *)
Lemma MatchString_whole_word (w key : string) :
  w <> EmptyString -> all_bytes is_word w = true ->
  all_bytes is_word key = true ->
  MatchString (Cat WordBoundary (Cat (Lit w) WordBoundary)) key
  = String.eqb key w.
Proof.
  intros Hw Hall Hkey.
  destruct (run_Lit_word w Hw Hall) as (c0 & Hc0 & Hrun).
  assert (Hempty : HasPrefix EmptyString w = false) by (by destruct w).
  assert (Hlater : forall s c, is_word c = true -> all_bytes is_word s = true ->
            search (Cat WordBoundary (Cat (Lit w) WordBoundary)) (Some c) s
            = None).
  { induction s as [|d s IH]; intros c Hc Hs; cbn [search]; unfold match_here;
      cbn [run is_word_at first_byte]; rewrite Hc.
    - cbn [xorb]. by rewrite Hrun, Hempty.
    - cbn [all_bytes] in Hs. apply andb_prop in Hs as [Hd Hs].
      rewrite Hd. cbn [xorb]. by apply IH. }
  unfold MatchString. destruct key as [|d key].
  - cbn [search]. unfold match_here. cbn [run is_word_at first_byte xorb].
    symmetry. apply String.eqb_neq. by intros <-.
  - pose proof Hkey as Hkey'. cbn [all_bytes] in Hkey'.
    apply andb_prop in Hkey' as [Hd Hrest].
    cbn [search]. unfold match_here. cbn [run is_word_at first_byte].
    rewrite Hd. cbn [xorb]. rewrite Hrun.
    destruct (HasPrefix (String d key) w) eqn:Hp.
    + pose proof (HasPrefix_drop _ _ Hp) as Heq.
      pose proof (all_bytes_drop is_word (String.length w) _ Hkey) as Hdrop.
      destruct (drop_bytes (String.length w) (String d key)) as [|e rest].
      * cbn [run is_word_at first_byte]. rewrite Hc0. cbn [xorb].
        rewrite append_nil_r_string in Heq. rewrite Heq.
        by rewrite String.eqb_refl.
      * cbn [all_bytes] in Hdrop. apply andb_prop in Hdrop as [He _].
        cbn [run is_word_at first_byte]. rewrite Hc0, He. cbn [xorb].
        rewrite (Hlater key d Hd Hrest).
        symmetry. apply String.eqb_neq. intros Hkw.
        apply (f_equal String.length) in Heq.
        rewrite length_app_string, Hkw in Heq. cbn [String.length] in Heq. lia.
    + rewrite (Hlater key d Hd Hrest).
      symmetry. apply String.eqb_neq. intros Hkw.
      by rewrite Hkw, HasPrefix_refl in Hp.
Qed.

Lemma abbreviation_fires_word (key : string) (entry : string * string) :
  all_bytes is_word key = true -> entry ∈ abbreviationSuggestions ->
  abbreviation_fires key entry = String.eqb key entry.1.
Proof.
  intros Hkey Hentry. unfold abbreviationSuggestions in Hentry.
  unfold abbreviation_fires.
  repeat (apply elem_of_cons in Hentry as [->|Hentry]);
    [..|by apply not_elem_of_nil in Hentry];
    cbn [fst snd]; rewrite MatchString_whole_word by done;
    (match goal with
     | |- context [String.eqb key ?w] =>
         destruct (String.eqb_spec key w) as [->|_];
         [vm_compute; reflexivity|apply andb_false_r]
     end).
Qed.

Lemma existsb_false {A} (f : A -> bool) (l : list A) :
  existsb f l = false <-> forall x, x ∈ l -> f x = false.
Proof.
  induction l as [|a l IH]; cbn [existsb].
  - split; [|done]. by intros _ x ?%not_elem_of_nil.
  - rewrite orb_false_iff, IH. split.
    + intros [Ha Hl] x [->|Hx]%elem_of_cons; auto.
    + intros Hall. split; [apply Hall; by left|].
      intros x Hx. apply Hall. by right.
Qed.

Lemma Convention_var_upper_snake `{CaseTables} abbrevs file v :
  abbrevs ≡ₚ abbreviationSuggestions ->
  upper_snake (env.Key v) = true ->
  Convention_var abbrevs file v = None
  <-> (2 <= String.length (env.Key v) <= 50)%nat
      /\ (env.Key v ∉ systemVars)
      /\ antiPatterns !! env.Key v = None
      /\ (forall prefix, prefix ∈ redundantPrefixes ->
            HasPrefix (env.Key v) prefix = false)
      /\ env.Key v ∉ (abbreviationSuggestions.*1).
Proof.
  intros Hperm Hsnake.
  rewrite (proj1 (Convention_var_decision abbrevs file v Hperm)), Hsnake.
  destruct (upper_snake_word _ Hsnake) as [Hword Hlen].
  cbn [negb orb]. unfold name_findings.
  rewrite !orb_false_iff, !existsb_false.
  rewrite Nat.eqb_neq, Nat.ltb_ge, bool_decide_eq_false.
  rewrite <- eq_None_not_Some.
  assert (Hsys : (forall x, x ∈ systemVars -> String.eqb (env.Key v) x = false)
                 <-> env.Key v ∉ systemVars).
  { split.
    - intros Hall Hin. specialize (Hall _ Hin).
      by rewrite String.eqb_refl in Hall.
    - intros Hnin x Hx. apply String.eqb_neq. by intros <-. }
  assert (Habb : (forall x, x ∈ abbreviationSuggestions ->
                            abbreviation_fires (env.Key v) x = false)
                 <-> env.Key v ∉ (abbreviationSuggestions.*1)).
  { split.
    - intros Hall ([abbr full] & Hk & Hin)%list_elem_of_fmap.
      specialize (Hall _ Hin).
      rewrite abbreviation_fires_word in Hall by done.
      cbn [fst] in *. by rewrite Hk, String.eqb_refl in Hall.
    - intros Hnin x Hx. rewrite abbreviation_fires_word by done.
      apply String.eqb_neq. intros Hk. apply Hnin.
      apply list_elem_of_fmap. by exists x. }
  rewrite Hsys, Habb. intuition lia.
Qed.

End abbreviation_facts.

(** X17. On a key in upper snake case, the test of the abbreviations of
    [Convention] fires only when the key is one of the eight abbreviations
    itself: the underscore is a word byte, so an abbreviation that is a part
    of a longer name, as [DB] in [DB_URL], never stands between word
    boundaries.  Such a key is reported exactly when it has a single byte or
    more than fifty, is a system variable, one of the generic names or one
    of the abbreviations, or starts with a redundant prefix. *)
Theorem Convention_upper_snake_keys `{CaseTables} (v : env.Var)
    (file : string) (out : list Issue) :
  rules.Convention_returns1 v file out ->
  upper_snake (env.Key v) = true ->
  out = []
  <-> (2 <= String.length (env.Key v) <= 50)%nat
      /\ (env.Key v ∉ rules.systemVars)
      /\ rules.antiPatterns !! env.Key v = None
      /\ (forall prefix, prefix ∈ rules.redundantPrefixes ->
            HasPrefix (env.Key v) prefix = false)
      /\ env.Key v ∉ (rules.abbreviationSuggestions.*1).
Proof.
  intros (abbrevs & Hperm & ->) Hsnake.
  rewrite <- (Convention_var_upper_snake abbrevs file v Hperm Hsnake).
  unfold rules.Convention_in. cbn [omap list_omap].
  destruct (rules.Convention_var abbrevs file v); split; congruence.
Qed.

(** [DB_URL] is not reported. *)
Lemma Convention_upper_snake_keys_witness :
  @rules.Convention ascii_case [env.mkVar "DB_URL" "postgres://db" 1] ".env"
  = [].
Proof.
  apply (@Convention_upper_snake_keys ascii_case
           (env.mkVar "DB_URL" "postgres://db" 1) ".env").
  - exists rules.abbreviationSuggestions. split; [apply Permutation_refl|].
    reflexivity.
  - reflexivity.
  - cbn [env.Key]. split; [cbn; lia|].
    split; [|split; [reflexivity|split]].
    + intros Hin. unfold rules.systemVars in Hin.
      repeat (apply elem_of_cons in Hin as [Hin|Hin]; [discriminate Hin|]).
      by apply not_elem_of_nil in Hin.
    + intros prefix Hprefix. unfold rules.redundantPrefixes in Hprefix.
      repeat (apply elem_of_cons in Hprefix as [->|Hprefix]);
        [..|by apply not_elem_of_nil in Hprefix]; reflexivity.
    + intros Hin. unfold rules.abbreviationSuggestions in Hin.
      cbn [fmap list_fmap fst] in Hin.
      repeat (apply elem_of_cons in Hin as [Hin|Hin]; [discriminate Hin|]).
      by apply not_elem_of_nil in Hin.
Defined.

(** ** The removal of duplicates *)

Section remove_duplicates_facts.
Import fixcmd.

Lemma last_index_Some (key : string) (ls : list string) (j : nat) :
  last_index key ls = Some j
  <-> defines ls j key /\ forall j', (j < j')%nat -> ~ defines ls j' key.
Proof.
  revert j. induction ls as [|line ls IH]; intros j; cbn [last_index].
  - split; [done|]. by intros [(l & Hl & _) _].
  - destruct (last_index key ls) as [j0|] eqn:Hlast.
    + destruct (proj1 (IH j0) eq_refl) as [(l0 & Hl0 & Hk0) Hmax]. split.
      * intros [= <-]. split; [by exists l0|].
        intros [|j'] Hlt (l & Hl & Hk); [lia|].
        apply (Hmax j'); [lia|by exists l].
      * intros [(l & Hl & Hk) Hmax'].
        destruct j as [|j].
        -- exfalso. apply (Hmax' (S j0)); [lia|by exists l0].
        -- enough (Some j0 = Some j) by congruence.
           apply IH. split; [by exists l|].
           intros j' Hlt (l' & Hl' & Hk'). apply (Hmax' (S j')); [lia|].
           by exists l'.
    + assert (Hnone : forall j', ~ defines ls j' key).
      { intros j' (l & Hl & Hk).
        assert (Hex : exists j1, defines ls j1 key) by (exists j'; by exists l).
        clear Hl Hk. revert Hex. clear -Hlast.
        revert Hlast. induction ls as [|l0 ls IHls]; cbn [last_index].
        - by intros _ [j1 (l & Hl & _)].
        - destruct (last_index key ls) as [?|] eqn:Hl0; [done|].
          case_decide as Hd; [done|]. intros _ [[|j1] (l & Hl & Hk)].
          + cbn in Hl. by injection Hl as ->.
          + apply IHls; [done|]. exists j1. by exists l. }
      case_decide as Hd.
      * split.
        -- intros [= <-]. split; [by exists line|].
           intros [|j'] Hlt (l & Hl & Hk); [lia|]. apply (Hnone j'). by exists l.
        -- intros [(l & Hl & Hk) _]. destruct j as [|j]; [done|].
           exfalso. apply (Hnone j). by exists l.
      * split; [done|]. intros [(l & Hl & Hk) _]. destruct j as [|j].
        -- cbn in Hl. by injection Hl as ->.
        -- exfalso. apply (Hnone j). by exists l.
Qed.

Lemma last_index_defined (key : string) (ls : list string) (i : nat) :
  defines ls i key -> exists j, last_index key ls = Some j /\ (i <= j)%nat.
Proof.
  intros Hdef. destruct (last_index key ls) as [j|] eqn:Hlast.
  - exists j. split; [done|]. apply last_index_Some in Hlast as [_ Hmax].
    destruct (decide (i <= j)%nat); [done|]. exfalso. apply (Hmax i); [lia|done].
  - exfalso. revert i Hdef. induction ls as [|l0 ls IH]; intros i (l & Hl & Hk).
    + done.
    + cbn [last_index] in Hlast.
      destruct (last_index key ls) as [?|]; [done|]. case_decide; [done|].
      destruct i as [|i]; cbn in Hl; [by injection Hl as ->|].
      apply (IH eq_refl i). by exists l.
Qed.

Lemma last_lines_lookup (ls : list string) :
  forall (i : Z) (seen : gmap string Z) (key : string),
  last_lines i ls seen !! key
  = match last_index key ls with
    | Some j => Some (i + Z.of_nat j + 1)%Z
    | None => seen !! key
    end.
Proof.
  induction ls as [|line ls IH]; intros i seen key; cbn [last_lines last_index];
    [done|].
  rewrite IH. destruct (last_index key ls) as [j|]; [f_equal; lia|].
  destruct (line_key line) as [key'|] eqn:Hline.
  - destruct (decide (key' = key)) as [->|Hne].
    + rewrite lookup_insert_eq, decide_True by done. f_equal. lia.
    + rewrite lookup_insert_ne, decide_False by congruence. done.
  - by rewrite decide_False.
Qed.

Lemma mark_earlier_marks (seen : gmap string Z) (ls : list string) :
  forall i fixes, mark_earlier seen i ls fixes = fixes ++ marks seen i ls.
Proof.
  induction ls as [|line ls IH]; intros i fixes; cbn [mark_earlier marks];
    [by rewrite app_nil_r|].
  rewrite IH. destruct (line_key line) as [key|]; [|done].
  destruct (negb _); [by rewrite <- app_assoc|done].
Qed.

(** The marks of the lines from the index [i] of [all] on. *)
Lemma marks_elem (all : list string) (seen : gmap string Z) :
  (forall key, seen !! key
               = (fun j => (Z.of_nat j + 1)%Z) <$> last_index key all) ->
  forall ls (i : nat),
  (forall o, ls !! o = all !! (i + o)%nat) ->
  Forall (fun f => (Z.of_nat i < LineNumber f)%Z) (marks seen (Z.of_nat i) ls)
  /\ StronglySorted Z.lt (LineNumber <$> marks seen (Z.of_nat i) ls)
  /\ forall f,
       f ∈ marks seen (Z.of_nat i) ls
       <-> exists (o j : nat) line key,
             ls !! o = Some line /\ line_key line = Some key
             /\ last_index key all = Some j /\ (i + o < j)%nat
             /\ f = mkFix line "" (Z.of_nat (i + o) + 1)
                      ("removed duplicate variable '" +:+ key
                       +:+ "' (kept line " +:+ Itoa (Z.of_nat j + 1) +:+ ")").
Proof.
  intros Hseen. induction ls as [|line ls IH]; intros i Hshift; cbn [marks].
  - split; [constructor|]. split; [constructor|]. intros f. split.
    + by intros ?%not_elem_of_nil.
    + by intros (o & j & l & key & Hl & _).
  - destruct (IH (S i)) as (Hbound & Hsorted & Helem).
    { intros o. pose proof (Hshift (S o)) as Hs.
      rewrite Nat.add_succ_r in Hs. exact Hs. }
    replace (Z.of_nat i + 1)%Z with (Z.of_nat (S i)) by lia.
    assert (Hbound' : Forall (fun f => (Z.of_nat i < LineNumber f)%Z)
                        (marks seen (Z.of_nat (S i)) ls)).
    { eapply Forall_impl; [exact Hbound|]. cbn. intros f Hf. lia. }
    assert (Hrest : forall f,
               (exists (o j : nat) l key,
                   (line :: ls) !! S o = Some l /\ line_key l = Some key
                   /\ last_index key all = Some j /\ (i + S o < j)%nat
                   /\ f = mkFix l "" (Z.of_nat (i + S o) + 1)
                            ("removed duplicate variable '" +:+ key
                             +:+ "' (kept line " +:+ Itoa (Z.of_nat j + 1)
                             +:+ ")"))
               <-> f ∈ marks seen (Z.of_nat (S i)) ls).
    { intros f. rewrite Helem. split.
      - intros (o & j & l & key & Hl & Hk & Hj & Hlt & ->).
        exists o, j, l, key. cbn in Hl. repeat split; try done; [lia|].
        do 2 f_equal. lia.
      - intros (o & j & l & key & Hl & Hk & Hj & Hlt & ->).
        exists o, j, l, key. cbn. repeat split; try done; [lia|].
        do 2 f_equal. lia. }
    destruct (line_key line) as [key|] eqn:Hline.
    + assert (Hdef : defines all i key).
      { exists line. split; [|done]. rewrite <- (Nat.add_0_r i).
        by rewrite <- (Hshift 0%nat). }
      destruct (last_index_defined key all i Hdef) as (j & Hj & Hle).
      rewrite Hseen, Hj.
      replace (default 0%Z ((fun j => (Z.of_nat j + 1)%Z) <$> Some j))
        with (Z.of_nat j + 1)%Z by reflexivity.
      destruct (Z.eqb_spec (Z.of_nat (S i)) (Z.of_nat j + 1)) as [Heq|Hneq];
        cbn [negb app].
      * assert (j = i) as -> by lia.
        split; [done|]. split; [done|]. intros f. rewrite <- Hrest. split.
        -- intros (o & j' & l & k & Hl & Hk & Hj' & Hlt & ->).
           by exists (S o), j', l, k.
        -- intros ([|o] & j' & l & k & Hl & Hk & Hj' & Hlt & ->).
           ++ cbn in Hl. injection Hl as <-. rewrite Hline in Hk.
              injection Hk as <-. rewrite Hj in Hj'. injection Hj' as <-. lia.
           ++ by exists o, j', l, k.
      * split; [constructor; [cbn; lia|done]|].
        split.
        { cbn [fmap list_fmap]. constructor; [done|].
          apply Forall_fmap. eapply Forall_impl; [exact Hbound|].
          cbn. intros f Hf. lia. }
        intros f. rewrite elem_of_cons, <- Hrest. split.
        -- intros [->|(o & j' & l & k & Hl & Hk & Hj' & Hlt & ->)].
           ++ exists 0%nat, j, line, key. repeat split; try done; [lia|].
              f_equal. lia.
           ++ by exists (S o), j', l, k.
        -- intros ([|o] & j' & l & k & Hl & Hk & Hj' & Hlt & ->).
           ++ left. cbn in Hl. injection Hl as <-. rewrite Hline in Hk.
              injection Hk as <-. rewrite Hj in Hj'. injection Hj' as <-.
              f_equal. lia.
           ++ right. by exists o, j', l, k.
    + cbn [app]. split; [done|]. split; [done|]. intros f.
      rewrite <- Hrest. split.
      * intros (o & j' & l & k & Hl & Hk & Hj' & Hlt & ->).
        by exists (S o), j', l, k.
      * intros ([|o] & j' & l & k & Hl & Hk & Hj' & Hlt & ->).
        -- cbn in Hl. injection Hl as <-. congruence.
        -- by exists o, j', l, k.
Qed.

Lemma removeDuplicates_marks (ls : list string) :
  removeDuplicates ls = marks (last_lines 0 ls ∅) 0 ls
  /\ forall key, last_lines 0 ls ∅ !! key
                 = (fun j => (Z.of_nat j + 1)%Z) <$> last_index key ls.
Proof.
  split.
  - unfold removeDuplicates. by rewrite mark_earlier_marks.
  - intros key. rewrite last_lines_lookup, lookup_empty.
    by destruct (last_index key ls).
Qed.

End remove_duplicates_facts.

(** X18. [removeDuplicates] marks, in the order of the lines, exactly the
    lines that define a key which a later line defines again, a line
    defining a key when it is not blank or a comment and has a non-empty
    trimmed text before its first [=]: each fix empties its line and names,
    in its message, the key and the number of the last line that defines
    it; the last line that defines a key is never marked. *)
Theorem removeDuplicates_keeps_last (ls : list string) :
  StronglySorted Z.lt (fixcmd.LineNumber <$> fixcmd.removeDuplicates ls)
  /\ (forall f, f ∈ fixcmd.removeDuplicates ls ->
        exists (i j : nat) key,
          fixcmd.LineNumber f = (Z.of_nat i + 1)%Z
          /\ ls !! i = Some (fixcmd.OriginalLine f)
          /\ fixcmd.FixedLine f = ""
          /\ defines ls i key /\ (i < j)%nat /\ defines ls j key
          /\ (forall j', (j < j')%nat -> ~ defines ls j' key)
          /\ fixcmd.Issue f
             = "removed duplicate variable '" +:+ key +:+ "' (kept line "
               +:+ fixcmd.Itoa (Z.of_nat j + 1) +:+ ")")
  /\ (forall (i j : nat) key,
        (i < j)%nat -> defines ls i key -> defines ls j key ->
        (Z.of_nat i + 1)%Z ∈ fixcmd.LineNumber <$> fixcmd.removeDuplicates ls).
Proof.
  destruct (removeDuplicates_marks ls) as [-> Hseen].
  destruct (marks_elem ls _ Hseen ls 0 (fun o => eq_refl))
    as (_ & Hsorted & Helem).
  change (Z.of_nat 0) with 0%Z in *. split; [done|]. split.
  - intros f (o & j & line & key & Hl & Hk & Hj & Hlt & ->)%Helem.
    apply last_index_Some in Hj as [Hdef Hmax].
    exists o, j, key. cbn. repeat split; try done. by exists line.
  - intros i j key Hlt (line & Hl & Hk) Hj.
    destruct (last_index_defined key ls j Hj) as (j' & Hlast & Hle).
    apply list_elem_of_fmap. eexists. split; [|apply Helem].
    2: { exists i, j', line, key. repeat split; try done. lia. }
    done.
Qed.

(** ** The file after the removal of duplicates *)

Section fixed_file_facts.
Import fixcmd.

Lemma parseLine_line_key filename lineNum line st :
  parse.Vars (parse.parseLine filename lineNum line st)
  = parse.Vars st
    ++ match line_key line with
       | Some key => [env.mkVar key (line_value line) lineNum]
       | None => []
       end.
Proof.
  unfold parse.parseLine, line_key, line_value.
  destruct (_ || _); [by rewrite app_nil_r|].
  destruct (Contains (TrimSpace line) "=") eqn:Heq; cbn [negb].
  - destruct (SplitN_2_present (TrimSpace line) "=") as (p0 & p1 & ->);
      [discriminate|assumption|].
    destruct (String.eqb (TrimSpace p0) ""); [by rewrite app_nil_r|].
    by repeat match goal with
              | |- context [if ?b then _ else _] => destruct b
              end.
  - by rewrite app_nil_r.
Qed.

Lemma scanLines_vars_elem filename ls v : forall n st,
  v ∈ parse.Vars (parse.scanLines filename n ls st)
  <-> v ∈ parse.Vars st
      \/ exists (i : nat) line key,
           ls !! i = Some line /\ line_key line = Some key
           /\ v = env.mkVar key (line_value line) (n + Z.of_nat i + 1).
Proof.
  induction ls as [|line ls IH]; intros n st; cbn [parse.scanLines].
  - split; [by left|]. by intros [?|(i & l & k & Hl & _)].
  - rewrite IH, parseLine_line_key, elem_of_app. split.
    + intros [[Hv|Hv]|(i & l & k & Hl & Hk & ->)].
      * by left.
      * right. destruct (line_key line) as [key|] eqn:Hline;
          [|by apply not_elem_of_nil in Hv].
        apply list_elem_of_singleton in Hv as ->.
        exists 0%nat, line, key. repeat split; try done. f_equal. lia.
      * right. exists (S i), l, k. repeat split; try done. f_equal. lia.
    + intros [Hv|([|i] & l & k & Hl & Hk & ->)].
      * by left; left.
      * cbn in Hl. injection Hl as <-. left; right. rewrite Hk.
        apply list_elem_of_singleton. f_equal. lia.
      * right. exists i, l, k. repeat split; try done. f_equal. lia.
Qed.

(** The fixes of [removeDuplicates] empty lines of the file only. *)
Lemma applyFixes_lookup (fixes : list FixResult) :
  Forall (fun f => FixedLine f = "") fixes ->
  forall (ls : list string) (o : nat),
  applyFixes ls fixes !! o
  = if decide ((Z.of_nat o + 1)%Z ∈ LineNumber <$> fixes)
    then (fun _ => EmptyString) <$> ls !! o
    else ls !! o.
Proof.
  unfold applyFixes.
  induction fixes as [|f fixes IH]; intros Hall ls o; cbn [foldl].
  - rewrite decide_False; [done|]. apply not_elem_of_nil.
  - apply Forall_cons in Hall as [Hf Hall]. rewrite IH by done.
    cbn [fmap list_fmap]. rewrite Hf.
    assert (Hstep : forall o',
               (if (0 <? LineNumber f)%Z
                   && (LineNumber f <=? Z.of_nat (length ls))%Z
                then <[Z.to_nat (LineNumber f - 1) := EmptyString]> ls
                else ls) !! o'
               = if decide ((Z.of_nat o' + 1)%Z = LineNumber f)
                 then (fun _ => EmptyString) <$> ls !! o'
                 else ls !! o').
    { intros o'.
      destruct (Z.ltb_spec 0 (LineNumber f)) as [Hpos|Hneg]; cbn [andb].
      - destruct (Z.leb_spec (LineNumber f) (Z.of_nat (length ls)))
          as [Hle|Hgt].
        + case_decide as Ho.
          * replace (Z.to_nat (LineNumber f - 1)) with o' by lia.
            rewrite list_lookup_insert_eq by lia.
            destruct (lookup_lt_is_Some_2 ls o') as [l ->]; [lia|]. done.
          * rewrite list_lookup_insert_ne by lia. done.
        + case_decide as Ho; [|done].
          rewrite lookup_ge_None_2 by lia. done.
      - case_decide as Ho; [lia|done]. }
    rewrite Hstep.
    destruct (decide (Z.of_nat o + 1 = LineNumber f)%Z) as [Ho|Ho];
      destruct (decide ((Z.of_nat o + 1)%Z ∈ LineNumber <$> fixes))
        as [Hin|Hnin].
    1-3: rewrite decide_True by (apply elem_of_cons; auto);
      by destruct (ls !! o).
    rewrite decide_False; [done|]. by intros [?|?]%elem_of_cons.
Qed.

Lemma removeDuplicates_marked (ls : list string) :
  Forall (fun f => FixedLine f = "") (removeDuplicates ls)
  /\ forall i : nat,
       (Z.of_nat i + 1)%Z ∈ LineNumber <$> removeDuplicates ls
       <-> exists key (j : nat),
             defines ls i key /\ (i < j)%nat /\ defines ls j key.
Proof.
  destruct (removeDuplicates_marks ls) as [-> Hseen].
  destruct (marks_elem ls _ Hseen ls 0 (fun o => eq_refl))
    as (_ & _ & Helem).
  change (Z.of_nat 0) with 0%Z in *. split.
  - apply Forall_forall.
    by intros f (o & j & line & key & _ & _ & _ & _ & ->)%Helem.
  - intros i. rewrite list_elem_of_fmap. split.
    + intros (f & Hi & (o & j & line & key & Hl & Hk & Hj & Hlt & ->)%Helem).
      cbn in Hi. assert (o = i) as -> by lia.
      apply last_index_Some in Hj as [Hdef _].
      exists key, j. split; [by exists line|done].
    + intros (key & j & (line & Hl & Hk) & Hlt & Hj).
      destruct (last_index_defined key ls j Hj) as (j' & Hlast & Hle).
      eexists. split; [|apply Helem].
      2: { exists i, j', line, key. repeat split; try done. lia. }
      done.
Qed.

Lemma line_key_empty : line_key EmptyString = None.
Proof. reflexivity. Qed.

(** The lines that define a key after the fixes: the last ones. *)
Lemma without_duplicates_lookup (ls : list string) (i : nat) line key :
  without_duplicates ls !! i = Some line /\ line_key line = Some key
  <-> ls !! i = Some line /\ line_key line = Some key
      /\ forall j, (i < j)%nat -> ~ defines ls j key.
Proof.
  unfold without_duplicates.
  destruct (removeDuplicates_marked ls) as [Hempty Hmarked].
  rewrite (applyFixes_lookup _ Hempty). case_decide as Hin.
  - split.
    + intros [Hl Hk]. destruct (ls !! i); [|done]. cbn in Hl.
      injection Hl as <-. by rewrite line_key_empty in Hk.
    + intros (Hl & Hk & Hmax). exfalso.
      apply Hmarked in Hin as (key' & j & (l & Hl' & Hk') & Hlt & Hj).
      rewrite Hl in Hl'. injection Hl' as <-. rewrite Hk in Hk'.
      injection Hk' as <-. by apply (Hmax j).
  - split.
    + intros [Hl Hk]. split; [done|]. split; [done|].
      intros j Hlt Hj. apply Hin, Hmarked. exists key, j.
      split; [by exists line|done].
    + by intros (Hl & Hk & _).
Qed.

Lemma sorted_lines_NoDup (vars : list env.Var) :
  StronglySorted Z.lt (env.Line <$> vars) -> NoDup vars.
Proof.
  intros Hsorted. apply (NoDup_fmap_1 env.Line).
  induction Hsorted as [|x l _ IH Hall]; constructor; [|done].
  intros Hx. apply (proj1 (Forall_forall _ _) Hall) in Hx. lia.
Qed.

Lemma NoDup_fmap_count {A} (f : A -> string) (l : list A) (k : string) :
  NoDup (f <$> l) -> (length (filter (fun x => f x = k) l) <= 1)%nat.
Proof.
  induction l as [|x l IH]; cbn [fmap list_fmap]; [by cbn; lia|].
  intros [Hx Hl]%NoDup_cons. rewrite filter_cons.
  case_decide as Hk; [|by apply IH].
  assert (filter (fun y => f y = k) l = []) as ->; [|cbn; lia].
  destruct (filter _ l) as [|y l'] eqn:Hf; [done|]. exfalso. apply Hx.
  assert (Hy : y ∈ filter (fun y => f y = k) l) by (rewrite Hf; by left).
  apply list_elem_of_filter in Hy as [Hfy Hy].
  apply list_elem_of_fmap. exists y. by rewrite Hfy, Hk.
Qed.

End fixed_file_facts.

(** X19. After the fixes of [removeDuplicates], applied as [fixFile]
    applies them, no key is defined twice: on a file with these lines the
    parser returns each key once, [Duplicate] reports nothing, and the
    variables are, with their values and line numbers, those of the original
    lines that no later line overrides. *)
Theorem removeDuplicates_silences_Duplicate (ls : list string)
    (filename : string) (original fixed : parse.EnhancedResult)
    (out : list Issue) :
  parse.ParseWithIssues (inr (mkTextFile ls None)) filename = inr original ->
  parse.ParseWithIssues
    (inr (mkTextFile (fixcmd.applyFixes ls (fixcmd.removeDuplicates ls)) None))
    filename = inr fixed ->
  rules.Duplicate_returns (parse.Vars fixed) filename out ->
  out = []
  /\ NoDup (env.Key <$> parse.Vars fixed)
  /\ (forall v, v ∈ parse.Vars fixed
                <-> v ∈ parse.Vars original
                    /\ forall v', v' ∈ parse.Vars original ->
                                  env.Key v' = env.Key v ->
                                  (env.Line v' <= env.Line v)%Z).
Proof.
  intros Horiginal Hfixed Hout.
  pose proof (ParseWithIssues_parsed_upto _ _ _ Hfixed) as [n [Hk Hs _ _]].
  cbn in Horiginal, Hfixed. injection Horiginal as <-. injection Hfixed as <-.
  fold (without_duplicates ls) in *.
  set (vars := parse.Vars (parse.scanLines filename 0 (without_duplicates ls)
                             (parse.mkResult [] []))) in *.
  assert (Hvars : forall v,
             v ∈ vars
             <-> exists (i : nat) line key,
                   ls !! i = Some line /\ fixcmd.line_key line = Some key
                   /\ (forall j, (i < j)%nat -> ~ defines ls j key)
                   /\ v = env.mkVar key (line_value line) (Z.of_nat i + 1)).
  { intros v. unfold vars. rewrite scanLines_vars_elem. cbn [parse.Vars]. split.
    - intros [?%not_elem_of_nil|(i & line & key & Hl & Hkey & ->)]; [done|].
      destruct (proj1 (without_duplicates_lookup ls i line key))
        as (Hl' & _ & Hmax); [done|].
      by exists i, line, key.
    - intros (i & line & key & Hl & Hkey & Hmax & ->). right.
      exists i, line, key. split; [|done].
      by apply (proj2 (without_duplicates_lookup ls i line key)). }
  assert (Hnodup : NoDup (env.Key <$> vars)).
  { apply NoDup_fmap_2_strong; [|by apply sorted_lines_NoDup].
    intros v1 v2 (i1 & l1 & k1 & Hl1 & Hk1 & Hm1 & ->)%Hvars
      (i2 & l2 & k2 & Hl2 & Hk2 & Hm2 & ->)%Hvars Heq.
    cbn in Heq. subst k2.
    assert (i1 = i2) as ->.
    { destruct (Nat.lt_trichotomy i1 i2) as [Hlt|[Heq|Hgt]]; [|done|].
      - exfalso. apply (Hm1 i2 Hlt). by exists l2.
      - exfalso. apply (Hm2 i1 Hgt). by exists l1. }
    rewrite Hl1 in Hl2. by injection Hl2 as <-. }
  split; [|split; [done|]].
  - assert (Hlines : Forall (fun v => (1 <= env.Line v)%Z) vars).
    { eapply Forall_impl; [exact Hk|]. cbn. intros v [_ ?]. lia. }
    destruct out as [|i out]; [done|]. exfalso.
    pose proof (Duplicate_returns_key _ _ _ (Key i) Hlines Hout) as Hkey.
    rewrite filter_cons_True in Hkey by done.
    pose proof (NoDup_fmap_count env.Key vars (Key i) Hnodup) as Hcount.
    by destruct (filter _ vars) as [|v1 [|v2 rest]]; cbn in Hcount; try lia.
  - intros v. rewrite Hvars, scanLines_vars_elem. cbn [parse.Vars]. split.
    + intros (i & line & key & Hl & Hkey & Hmax & ->). split.
      * right. by exists i, line, key.
      * intros v' Hv'. apply scanLines_vars_elem in Hv'. cbn [parse.Vars] in Hv'.
        destruct Hv' as [?%not_elem_of_nil|(j & l' & k' & Hl' & Hk' & ->)];
          [done|].
        cbn. intros ->.
        destruct (decide (j <= i)%nat); [lia|]. exfalso.
        apply (Hmax j); [lia|]. by exists l'.
    + intros [[?%not_elem_of_nil|(i & line & key & Hl & Hkey & ->)] Hlast];
        [done|].
      exists i, line, key. repeat split; try done.
      intros j Hlt (l' & Hl' & Hk').
      specialize (Hlast (env.mkVar key (line_value l') (0 + Z.of_nat j + 1))).
      cbn in Hlast. enough (0 + Z.of_nat j + 1 <= 0 + Z.of_nat i + 1)%Z by lia.
      apply Hlast; [|done]. apply scanLines_vars_elem. right.
      by exists j, l', key.
Qed.

(** [PORT] twice: the first line goes. *)
Lemma removeDuplicates_silences_Duplicate_witness :
  rules.Duplicate
    (parse.Vars
       (parse.scanLines ".env" 0
          (fixcmd.applyFixes (lines two_ports_file)
             (fixcmd.removeDuplicates (lines two_ports_file)))
          (parse.mkResult [] [])))
    ".env" = [].
Proof.
  apply (removeDuplicates_silences_Duplicate (lines two_ports_file) ".env"
           _ _ _ eq_refl eq_refl).
  apply Permutation_refl.
Defined.

(** ** The values that look like secrets *)

Section secret_value_facts.
Import regexp rules.

Lemma take_drop_string (n : nat) (s : string) :
  take_bytes n s +:+ drop_bytes n s = s.
Proof.
  revert s. induction n as [|n IH]; intros [|c s]; try done.
  cbn [take_bytes drop_bytes].
  change (String c (take_bytes n s) +:+ drop_bytes n s)
    with (String c (take_bytes n s +:+ drop_bytes n s)).
  by rewrite IH.
Qed.

Lemma span_all (p : ascii -> bool) (s : string) :
  all_bytes p s = true -> span p s = String.length s.
Proof.
  induction s as [|c s IH]; cbn [all_bytes span String.length]; [done|].
  intros [-> Hs]%andb_prop. by rewrite IH.
Qed.

Lemma drop_bytes_length (s : string) : drop_bytes (String.length s) s = "".
Proof. by induction s. Qed.

Lemma run_Repeat_Class (p : ascii -> bool) (n : nat) :
  forall (R : Type) prev s caps
         (k : option ascii -> string -> captures -> option R),
  exists prev',
    run (Repeat n (Class p)) prev s caps k
    = if (n <=? String.length s)%nat && all_bytes p (take_bytes n s)
      then k prev' (drop_bytes n s) caps else None.
Proof.
  induction n as [|n IH]; intros R prev s caps k.
  - exists prev. by destruct s.
  - change (Repeat (S n) (Class p)) with (Cat (Class p) (Repeat n (Class p))).
    cbn [run]. destruct s as [|c s]; [by exists prev|].
    cbn [String.length take_bytes drop_bytes all_bytes].
    destruct (p c); [|exists prev; by rewrite andb_false_r].
    destruct (IH R (Some c) s caps k) as [prev' ->]. by exists prev'.
Qed.

(** A starred class takes all the bytes of the class when what follows
    fails in front of such a byte. *)
Lemma run_Star_Class_greedy (p : ascii -> bool) :
  forall (R : Type) (k : option ascii -> string -> captures -> option R),
  (forall prev c s' caps, p c = true -> k prev (String c s') caps = None) ->
  forall prev s caps,
  exists prev',
    run (Star (Class p)) prev s caps k
    = k prev' (drop_bytes (span p s) s) caps.
Proof.
  intros R k Hk prev s caps. cbn [run].
  assert (Hfuel : (String.length s <= String.length s)%nat) by lia.
  revert Hfuel. generalize (String.length s) at 2 3 as fuel.
  intros fuel. revert s prev.
  induction fuel as [|fuel IH]; intros s prev Hlen.
  - destruct s; [by exists prev|cbn in Hlen; lia].
  - destruct s as [|c s]; [by exists prev|].
    cbn [String.length span drop_bytes] in *.
    destruct (p c) eqn:Hc; [|by exists prev].
    replace (String.length s <? S (String.length s))%nat with true
      by (symmetry; apply Nat.ltb_lt; lia).
    destruct (IH s (Some c)) as [prev' ->]; [lia|].
    exists prev'. destruct (k prev' _ caps) eqn:Hrest; [done|].
    by apply Hk.
Qed.

Lemma long_run_split (p : ascii -> bool) (n : nat) (s : string) :
  (n <=? String.length s)%nat && all_bytes p (take_bytes n s)
  && all_bytes p (drop_bytes n s)
  = (n <=? String.length s)%nat && all_bytes p s.
Proof.
  by rewrite <- andb_assoc, <- all_bytes_app, take_drop_string.
Qed.

(** ^p{n,}$: a run of at least [n] bytes of the class. *)
Lemma MatchString_long_run (p : ascii -> bool) (n : nat) (s : string) :
  MatchString (Cat BeginText (Cat (AtLeast n (Class p)) EndText)) s
  = (n <=? String.length s)%nat && all_bytes p s.
Proof.
  rewrite MatchString_BeginText. unfold match_here, AtLeast.
  set (star := Star (Class p)). cbn [run].
  match goal with
  | |- context [run (Repeat n (Class p)) ?prev s ?caps ?k] =>
      destruct (run_Repeat_Class p n _ prev s caps k) as [prev' ->]
  end.
  rewrite <- long_run_split.
  destruct (_ && all_bytes p (take_bytes n s)); [|done].
  subst star. cbn [andb].
  change (match run (Star (Class p)) prev' (drop_bytes n s) []
                  (fun prev' s' caps' =>
                     run EndText prev' s' caps'
                       (fun _ s'' caps'' => Some (s'', caps''))) with
          | Some _ => true
          | None => false
          end = all_bytes p (drop_bytes n s)).
  rewrite run_Star_Class_EndText.
  by destruct (all_bytes p (drop_bytes n s)).
Qed.

(** The third pattern on a run of base64 bytes. *)
Lemma MatchString_base64_run (s : string) :
  all_bytes base64_byte s = true -> (20 <= String.length s)%nat ->
  MatchString
    (Cat BeginText
       (Cat (AtLeast 20 (Class (fun c => alnum c || one_of "+/" c)))
          (Cat (Opt (Cat (Byte "=") (Opt (Byte "=")))) EndText))) s = true.
Proof.
  intros Hall Hlen.
  change (fun c => alnum c || one_of "+/" c) with base64_byte.
  rewrite MatchString_BeginText. unfold match_here, AtLeast.
  set (star := Star (Class base64_byte)). cbn [run].
  match goal with
  | |- context [run (Repeat 20 (Class base64_byte)) ?prev s ?caps ?k] =>
      destruct (run_Repeat_Class base64_byte 20 _ prev s caps k) as [prev' ->]
  end.
  pose proof Hall as Hparts. rewrite <- (take_drop_string 20 s) in Hparts.
  rewrite all_bytes_app in Hparts. apply andb_prop in Hparts as [Htake Hdrop].
  rewrite Htake, (proj2 (Nat.leb_le _ _) Hlen). cbn [andb].
  match goal with
  | |- context [run star ?prev0 ?s0 ?caps0 ?k0] =>
      assert (Hk : forall prev c s' caps,
                 base64_byte c = true -> k0 prev (String c s') caps = None);
      [|destruct (run_Star_Class_greedy base64_byte _ k0 Hk prev0 s0 caps0)
          as [prev'' Hstar]]
  end.
  - intros prev c s' caps Hc. unfold Opt, Byte. cbn [run].
    destruct (Ascii.eqb_spec "=" c) as [<-|_]; [by vm_compute in Hc|done].
  - subst star. rewrite Hstar.
    by rewrite (span_all _ _ Hdrop), drop_bytes_length.
Qed.

Lemma alnum_base64 (c : ascii) : alnum c = true -> base64_byte c = true.
Proof. unfold base64_byte. by intros ->. Qed.

Lemma key_id_base64 (c : ascii) : key_id_byte c = true -> base64_byte c = true.
Proof.
  unfold key_id_byte, base64_byte, alnum.
  by destruct (is_digit c), (is_upper c), (is_lower c).
Qed.

(** The fifth pattern: [AKIA] and sixteen digits or upper-case letters. *)
Lemma MatchString_key_id (s : string) :
  MatchString
    (Cat BeginText
       (Cat (Lit "AKIA")
          (Cat (Repeat 16 (Class (fun c => is_digit c || is_upper c)))
             EndText))) s = true ->
  all_bytes base64_byte s = true /\ (20 <= String.length s)%nat.
Proof.
  change (fun c => is_digit c || is_upper c) with key_id_byte.
  rewrite MatchString_BeginText. unfold match_here.
  cbn [run].
  destruct (run_Lit_word "AKIA") as (c0 & _ & ->); [done|done|].
  destruct (HasPrefix s "AKIA") eqn:Hp; [|done].
  apply HasPrefix_drop in Hp. cbn [String.length] in Hp |- *.
  match goal with
  | |- context [run (Repeat 16 (Class key_id_byte)) ?prev ?s' ?caps ?k] =>
      destruct (run_Repeat_Class key_id_byte 16 _ prev s' caps k) as [prev' ->]
  end.
  destruct (16 <=? _)%nat eqn:Hlen; [|done]. cbn [andb].
  destruct (all_bytes key_id_byte (take_bytes 16 (drop_bytes 4 s))) eqn:Hall;
    [|done].
  cbn [run]. destruct (drop_bytes 16 (drop_bytes 4 s)) eqn:Hrest; [|done].
  intros _. apply Nat.leb_le in Hlen.
  pose proof (take_drop_string 16 (drop_bytes 4 s)) as Hsplit.
  rewrite Hrest, append_nil_r_string in Hsplit.
  rewrite Hp. split.
  - rewrite all_bytes_app. apply andb_true_intro. split; [done|].
    rewrite <- Hsplit. eapply all_bytes_impl; [|exact Hall].
    apply key_id_base64.
  - rewrite length_app_string. cbn [String.length]. lia.
Qed.

Lemma looksLikeSecret_third (value : string) :
  MatchString
    (Cat BeginText
       (Cat (AtLeast 20 (Class (fun c => alnum c || one_of "+/" c)))
          (Cat (Opt (Cat (Byte "=") (Opt (Byte "=")))) EndText))) value = true ->
  looksLikeSecret value = true.
Proof.
  intros Hm. unfold looksLikeSecret, secretValuePatterns. cbn [existsb].
  rewrite Hm. by rewrite !orb_true_r.
Qed.

End secret_value_facts.

(** X20. A value made of at least twenty letters, digits, [+] and [/], or
    of at least sixteen hexadecimal digits (a number of sixteen digits, for
    one), looks like a secret.  The second and the fifth pattern of
    [secretValuePatterns] (thirty-two alphanumerics; [AKIA] and sixteen
    digits or capitals) match only values that the third one matches, so
    they add nothing. *)
Theorem looksLikeSecret_long_runs (value : string) :
  (all_bytes base64_byte value = true -> (20 <= String.length value)%nat ->
   rules.looksLikeSecret value = true)
  /\ (all_bytes hex_byte value = true -> (16 <= String.length value)%nat ->
      rules.looksLikeSecret value = true)
  /\ rules.looksLikeSecret value
     = existsb (fun pattern => regexp.MatchString pattern value)
         (take 1 rules.secretValuePatterns
          ++ take 2 (drop 2 rules.secretValuePatterns)
          ++ drop 5 rules.secretValuePatterns).
Proof.
  split; [|split].
  - intros Hall Hlen. by apply looksLikeSecret_third, MatchString_base64_run.
  - intros Hall Hlen. unfold rules.looksLikeSecret, rules.secretValuePatterns.
    cbn [existsb].
    change (fun c => byte_in 97 102 c || byte_in 65 70 c || is_digit c)
      with hex_byte.
    rewrite (MatchString_long_run hex_byte 16), Hall.
    rewrite (proj2 (Nat.leb_le _ _) Hlen). cbn [andb]. by rewrite !orb_true_r.
  - unfold rules.looksLikeSecret, rules.secretValuePatterns.
    cbn [existsb take drop app].
    match goal with
    | |- ?m1 || (?m2 || (?m3 || (?m4 || (?m5 || ?m6)))) = _ =>
        assert (H2 : m2 = true -> m3 = true);
        [|assert (H5 : m5 = true -> m3 = true);
          [|destruct m3; [by destruct m1, m2, m4, m5|];
            destruct m2; [by discriminate H2|];
            destruct m5; [by discriminate H5|];
            by destruct m1, m4]]
    end.
    + rewrite MatchString_long_run. intros [Hlen Hall]%andb_prop.
      apply Nat.leb_le in Hlen. apply MatchString_base64_run; [|lia].
      eapply all_bytes_impl; [|exact Hall]. apply alnum_base64.
    + intros [Hall Hlen]%MatchString_key_id. by apply MatchString_base64_run.
Qed.

(** A number of sixteen digits. *)
Lemma looksLikeSecret_long_runs_witness :
  rules.looksLikeSecret "4111111111111111" = true.
Proof.
  apply (proj1 (proj2 (looksLikeSecret_long_runs "4111111111111111"))).
  - reflexivity.
  - cbn. lia.
Defined.

(** ** Every line of the file *)

Section every_line_facts.
Import parse.

Lemma parseLine_additive filename n line st :
  parseLine filename n line st
  = mkResult
      (IssueList st ++ IssueList (parseLine filename n line (mkResult [] [])))
      (Vars st ++ Vars (parseLine filename n line (mkResult [] []))).
Proof.
  destruct st as [issueList vars]. unfold parseLine, add_issue, add_var.
  repeat match goal with
         | |- context [if ?b then _ else _] => destruct b
         | |- context [match ?l with [] => _ | _ :: _ => _ end] => destruct l
         end; cbn; by rewrite ?app_nil_r, <- ?app_assoc.
Qed.

Lemma scanLines_issue_elem filename ls issue : forall n st,
  issue ∈ IssueList (scanLines filename n ls st)
  <-> issue ∈ IssueList st
      \/ exists (i : nat) line,
           ls !! i = Some line
           /\ issue ∈ IssueList (parseLine filename (n + Z.of_nat i + 1) line
                                   (mkResult [] [])).
Proof.
  induction ls as [|line ls IH]; intros n st; cbn [scanLines].
  - split; [by left|]. by intros [?|(i & l & Hl & _)].
  - rewrite IH, (parseLine_additive filename (n + 1) line st).
    cbn [IssueList]. rewrite elem_of_app. split.
    + intros [[Hi|Hi]|(i & l & Hl & Hi)].
      * by left.
      * right. exists 0%nat, line. split; [done|].
        by replace (n + Z.of_nat 0 + 1)%Z with (n + 1)%Z by lia.
      * right. exists (S i), l. split; [done|].
        by replace (n + Z.of_nat (S i) + 1)%Z with (n + 1 + Z.of_nat i + 1)%Z
          by lia.
    + intros [Hi|([|i] & l & Hl & Hi)].
      * by left; left.
      * cbn in Hl. injection Hl as <-. left; right.
        by replace (n + Z.of_nat 0 + 1)%Z with (n + 1)%Z in Hi by lia.
      * right. exists i, l. split; [done|].
        by replace (n + Z.of_nat (S i) + 1)%Z with (n + 1 + Z.of_nat i + 1)%Z
          in Hi by lia.
Qed.

(** The issues of one line. *)
Lemma parseLine_issues filename n line :
  Forall (fun issue => Line issue = n)
    (IssueList (parseLine filename n line (mkResult [] [])))
  /\ (blank_or_comment line = true ->
      IssueList (parseLine filename n line (mkResult [] [])) = [])
  /\ (blank_or_comment line = false -> fixcmd.line_key line = None ->
      exists issue,
        issue ∈ IssueList (parseLine filename n line (mkResult [] []))
        /\ (Name issue = "malformed line" \/ Name issue = "empty key")).
Proof.
  unfold parseLine, fixcmd.line_key, blank_or_comment, add_issue, add_var.
  destruct (_ || _); [by repeat split|].
  destruct (Contains (TrimSpace line) "=") eqn:Heq; cbn [negb].
  - destruct (SplitN_2_present (TrimSpace line) "=") as (p0 & p1 & ->);
      [discriminate|assumption|].
    destruct (String.eqb (TrimSpace p0) "").
    + split; [by repeat constructor|]. split; [done|]. intros _ _.
      eexists. split; [by left|]. by right.
    + split; [|by split].
      repeat match goal with
             | |- context [if ?b then _ else _] => destruct b
             end; cbn; by repeat constructor.
  - split; [by repeat constructor|]. split; [done|]. intros _ _.
    eexists. split; [by left|]. by left.
Qed.

Lemma line_key_blank_or_comment (line : string) :
  blank_or_comment line = true -> fixcmd.line_key line = None.
Proof. unfold blank_or_comment, fixcmd.line_key. by intros ->. Qed.

End every_line_facts.

(** X21. [ParseWithIssues] accounts for every line of a file it parsed: a
    blank line or a comment gives no variable and no issue; any other line
    gives, under its own number, either a variable, when it has a non-empty
    key before its first [=], or else no variable and an issue [malformed
    line] or [empty key].  No line is dropped without a trace. *)
Theorem ParseWithIssues_accounts_for_lines (file : TextFile)
    (filename : string) (result : parse.EnhancedResult) (i : nat)
    (line : string) :
  parse.ParseWithIssues (inr file) filename = inr result ->
  lines file !! i = Some line ->
  (blank_or_comment line = true ->
   (forall v, v ∈ parse.Vars result -> env.Line v <> (Z.of_nat i + 1)%Z)
   /\ (forall issue, issue ∈ parse.IssueList result ->
                     Line issue <> (Z.of_nat i + 1)%Z))
  /\ (blank_or_comment line = false ->
      match fixcmd.line_key line with
      | Some key =>
          exists v, v ∈ parse.Vars result
                    /\ env.Line v = (Z.of_nat i + 1)%Z /\ env.Key v = key
      | None =>
          (forall v, v ∈ parse.Vars result -> env.Line v <> (Z.of_nat i + 1)%Z)
          /\ exists issue,
               issue ∈ parse.IssueList result
               /\ Line issue = (Z.of_nat i + 1)%Z
               /\ (Name issue = "malformed line" \/ Name issue = "empty key")
      end).
Proof.
  unfold parse.ParseWithIssues. destruct (read_err file); [discriminate|].
  intros [= <-] Hline.
  assert (Hno_var : fixcmd.line_key line = None ->
            forall v,
              v ∈ parse.Vars (parse.scanLines filename 0 (lines file)
                                (parse.mkResult [] [])) ->
              env.Line v <> (Z.of_nat i + 1)%Z).
  { intros Hnone v Hv. apply scanLines_vars_elem in Hv. cbn [parse.Vars] in Hv.
    destruct Hv as [?%not_elem_of_nil|(j & l & key & Hl & Hk & ->)]; [done|].
    cbn. intros Heq. assert (j = i) as -> by lia.
    rewrite Hline in Hl. injection Hl as <-. congruence. }
  split.
  - intros Hblank. split; [by apply Hno_var, line_key_blank_or_comment|].
    intros issue Hissue. apply scanLines_issue_elem in Hissue.
    cbn [parse.IssueList] in Hissue.
    destruct Hissue as [?%not_elem_of_nil|(j & l & Hl & Hissue)]; [done|].
    destruct (parseLine_issues filename (0 + Z.of_nat j + 1) l)
      as (Hnum & Hnone & _).
    rewrite (proj1 (Forall_forall _ _) Hnum issue Hissue).
    intros Heq. assert (j = i) as -> by lia.
    rewrite Hline in Hl. injection Hl as <-.
    rewrite (Hnone Hblank) in Hissue. by apply not_elem_of_nil in Hissue.
  - intros Hblank. destruct (fixcmd.line_key line) as [key|] eqn:Hkey.
    + exists (env.mkVar key (line_value line) (0 + Z.of_nat i + 1)).
      split; [|split; [cbn; lia|done]].
      apply scanLines_vars_elem. right. by exists i, line, key.
    + split; [by apply Hno_var|].
      destruct (parseLine_issues filename (0 + Z.of_nat i + 1) line)
        as (Hnum & _ & Hsome).
      destruct (Hsome Hblank Hkey) as (issue & Hissue & Hname).
      exists issue. split; [|split; [|done]].
      * apply scanLines_issue_elem. right. by exists i, line.
      * rewrite (proj1 (Forall_forall _ _) Hnum issue Hissue). lia.
Qed.

(** The comment on the third line of the file with two ports. *)
Lemma ParseWithIssues_accounts_for_lines_witness :
  (forall v,
      v ∈ parse.Vars (parse.scanLines ".env" 0 (lines two_ports_file)
                        (parse.mkResult [] [])) ->
      env.Line v <> 3%Z)
  /\ (forall issue,
        issue ∈ parse.IssueList (parse.scanLines ".env" 0 (lines two_ports_file)
                                  (parse.mkResult [] [])) ->
        Line issue <> 3%Z).
Proof.
  apply (proj1 (ParseWithIssues_accounts_for_lines two_ports_file ".env" _
                  2 "# the port again" eq_refl eq_refl)).
  reflexivity.
Defined.
